(** * sumhash: a subset-sum compression function and its Merkle-Damgard digest

    A shallow embedding of [hash.go] (package [sumhash]) and the proofs of
    the properties its specification states.

    Conventions of the embedding.
    - A [uint64] is a [Z] reduced modulo 2^64 after every addition and
      shift; a [byte] is a [Z] in [0, 256).
    - A Go [int] that holds a length or an index is a [Z]; the slices
      involved are allocated, so no 64-bit wrap-around occurs on them.
    - A slice is a [list]; an index or slice expression that Go rejects at
      run time makes the embedded function fail.
    - A pointer receiver is passed and returned explicitly; a store of
      structs and backing arrays carries the digest where aliasing is
      at stake.
    - A panic ends the run: an embedded function that panics has no result.
      [Compress] alone also gives the destination as the panic leaves it. *)

From Stdlib Require Import ZArith Lia List.
From stdpp Require Import base numbers option list gmap.

Local Open Scope Z_scope.

(** * The program *)

(** ** Machine integers and slices *)

Definition uint64 (z : Z) : Z := z mod 2 ^ 64.
Definition uint8 (z : Z) : Z := z mod 2 ^ 8.

(** [len(s)] as a Go [int]. *)
Definition len {A} (s : list A) : Z := Z.of_nat (length s).

(** [s[i]] for an [int] index: fails outside [0, len(s)). *)
Definition index {A} (s : list A) (i : Z) : option A :=
  if decide (0 ≤ i) then s !! Z.to_nat i else None.

(** [make([]T, n)] with the zero value [z]: fails on a negative length. *)
Definition make {A} (z : A) (n : Z) : option (list A) :=
  if decide (0 ≤ n) then Some (replicate (Z.to_nat n) z) else None.

(** [s[lo:hi]] on a slice whose capacity is its length. *)
Definition slice {A} (s : list A) (lo hi : Z) : option (list A) :=
  if decide (0 ≤ lo ∧ lo ≤ hi ∧ hi ≤ len s)
  then Some (take (Z.to_nat (hi - lo)) (drop (Z.to_nat lo) s))
  else None.

(** [copy(dst[lo:hi], src)] written back into [dst]: the new contents and
    the count copied. The caller checks the slice expression. *)
Definition copy_slice {A} (dst : list A) (lo hi : nat) (src : list A) : list A * Z :=
  let n := Nat.min (hi - lo) (length src) in
  (take lo dst ++ take n src ++ drop (lo + n) dst, Z.of_nat n).

(** [binary.LittleEndian.Uint64] and the eight bytes [PutUint64] stores. *)
Definition le_bytes (w : Z) : list Z :=
  map (fun k : nat => uint8 (Z.shiftr w (8 * Z.of_nat k))) (seq 0 8).

Fixpoint le_uint64 (bs : list Z) : Z :=
  match bs with
  | [] => 0
  | b :: bs' => Z.lor b (Z.shiftl (le_uint64 bs') 8)
  end.

(** [binary.LittleEndian.PutUint64(buf[off:off+8], v)]. *)
Definition PutUint64 (buf : list Z) (off : Z) (v : Z) : option (list Z) :=
  _ ← slice buf off (off + 8);
  Some (take (Z.to_nat off) buf ++ le_bytes v ++ drop (Z.to_nat off + 8) buf).

(** ** Matrix generation *)

(** [Matrix] is [[][]uint64]; [LookupTable] is [[][][256]uint64], an inner
    list standing for an array of 256 words. *)
Abbreviation Matrix := (list (list Z)).
Abbreviation LookupTable := (list (list (list Z))).

(** An [io.Reader] with states in [S]. [Read s n] is a call of [Read] with a
    buffer of [n] bytes in state [s]: the bytes it stores at the start of
    the buffer (their number is the count [Read] returns, which may be less
    than [n]), whether the error it returns is non-nil, and the state
    afterwards. *)
Record Reader (S : Type) := { Read : S → nat → list Z * bool * S }.
Arguments Read {S} _ _ _.

(** The [j] loop of [RandomMatrix]: [n] cells to go. The count returned by
    [Read] is dropped; only the error is tested. The buffer [w] is shared by
    all the calls. *)
Fixpoint RandomMatrix_row {S} (rand : Reader S) (s : S) (w : list Z) (n : nat)
  : option (list Z * list Z * S) :=
  match n with
  | O => Some ([], w, s)
  | S n' =>
      let '(data, err, s') := Read rand s (length w) in
      let w' := (copy_slice w 0 (length w) data).1 in
      if err then None
      else
        '(row, w'', s'') ← RandomMatrix_row rand s' w' n';
        Some (le_uint64 w' :: row, w'', s'')
  end.

(** The [i] loop: [n] rows to go, each made by [make([]uint64, M)]. *)
Fixpoint RandomMatrix_rows {S} (rand : Reader S) (s : S) (w : list Z) (M : Z) (n : nat)
  : option (Matrix * list Z * S) :=
  match n with
  | O => Some ([], w, s)
  | S n' =>
      row0 ← make 0 M;
      '(row, w', s') ← RandomMatrix_row rand s w (length row0);
      '(rows, w'', s'') ← RandomMatrix_rows rand s' w' M n';
      Some (row :: rows, w'', s'')
  end.

(** [RandomMatrix]: the matrix and the reader afterwards, or a panic. *)
Definition RandomMatrix {S} (rand : Reader S) (s : S) (N compressionFactor : Z)
  : option (Matrix * S) :=
  let M := compressionFactor * N * 64 in
  A0 ← make (@nil Z) N;
  w ← make 0 8;
  '(A, _, s') ← RandomMatrix_rows rand s w M (length A0);
  Some (A, s').

(** A reader over a list of bytes that hands out one byte per call, as
    [iotest.OneByteReader] does, and reports [io.EOF] at the end. *)
Definition one_byte_reader : Reader (list Z) :=
  {| Read := fun s n =>
       match s, n with
       | b :: s', S _ => ([b], false, s')
       | [], S _ => ([], true, [])
       | _, O => ([], false, s)
       end |}.

(** A reader over a list of bytes that hands out what it has left, up to the
    size of the buffer, and reports [io.EOF] once empty, as [bytes.Reader]
    does. *)
Definition bytes_reader : Reader (list Z) :=
  {| Read := fun s n =>
       match s with
       | [] => ([], true, [])
       | _ => (take n s, false, drop n s)
       end |}.

(** A reader over a list of bytes that fills the buffer or fails, as
    [crypto/rand.Reader] does. *)
Definition full_reader : Reader (list Z) :=
  {| Read := fun s n =>
       if decide (n ≤ length s)%nat then (take n s, false, drop n s)
       else ([], true, s) |}.

(** ** The lookup table *)

(** [b<<i&0x80 > 0] on a byte [b]: the shift is truncated to eight bits. *)
Definition bit_selected (b : Z) (i : nat) : bool :=
  0 <? Z.land (uint8 (Z.shiftl b (Z.of_nat i))) 0x80.

(** The loop of [sumBits], from bit [i], [n] iterations to go. *)
Fixpoint sumBits_loop (as_ : list Z) (b : Z) (i n : nat) (x : Z) : option Z :=
  match n with
  | O => Some x
  | S n' =>
      if bit_selected b i
      then a ← as_ !! i; sumBits_loop as_ b (S i) n' (uint64 (x + a))
      else sumBits_loop as_ b (S i) n' x
  end.

Definition sumBits (as_ : list Z) (b : Z) : option Z :=
  sumBits_loop as_ b 0 8 0.

(** One [[256]uint64] table: [sumBits(as, byte(b))] for [b] in [0, 256). *)
Definition byte_table (as_ : list Z) : option (list Z) :=
  mapM (fun b : nat => sumBits as_ (uint8 (Z.of_nat b))) (seq 0 256).

(** The [j] loop of [Matrix.LookupTable] for one row: group [g] stands for
    [j = 8g]; [A[i][j:j+8]] and [At[i][j/8]] are both bounds-checked. *)
Definition row_tables (row : list Z) (M : Z) : option (list (list Z)) :=
  mapM (fun g : nat =>
          let j := 8 * Z.of_nat g in
          as_ ← slice row j (j + 8);
          if decide (j / 8 < M / 8) then byte_table as_ else None)
       (seq 0 (Z.to_nat ((M + 7) / 8))).

Definition Matrix_LookupTable (A : Matrix) : option LookupTable :=
  A0 ← A !! 0%nat;
  mapM (fun row => row_tables row (len A0)) A.

(** ** The compression capability *)

(** What a call of [Compress] leaves behind: the destination after a normal
    return, or the destination as it stands when the call panics. *)
Inductive outcome :=
| Returned (dst : list Z)
| Panicked (dst : list Z).

Definition returned (o : outcome) : option (list Z) :=
  match o with Returned d => Some d | Panicked _ => None end.

(** The [Compressor] interface. [InputLen] and [OutputLen] may panic (the
    matrix forms index row 0). [Compress] overwrites the caller's slice in
    place, so whatever it does the destination keeps its length. *)
Record Compressor := {
  Compress : list Z → list Z → outcome;
  InputLen : option Z;
  OutputLen : option Z;
  Compress_length : ∀ dst msg out,
    Compress dst msg = Returned out → length out = length dst
}.

(** ** The reference compressor *)

Definition Matrix_InputLen (A : Matrix) : option Z :=
  A0 ← A !! 0%nat; Some (len A0 / 8).

Definition Matrix_OutputLen (A : Matrix) : option Z := Some (len A).

(** The [b] loop of [Matrix.Compress] for byte [j] of value [m]. *)
Fixpoint bits_loop (row : list Z) (j : nat) (m : Z) (b n : nat) (x : Z) : option Z :=
  match n with
  | O => Some x
  | S n' =>
      if bit_selected m b
      then a ← row !! (8 * j + b)%nat; bits_loop row j m (S b) n' (uint64 (x + a))
      else bits_loop row j m (S b) n' x
  end.

(** The [j] loop of [Matrix.Compress], over the rest of [msg] from byte [j]. *)
Fixpoint bytes_loop (row : list Z) (j : nat) (msg : list Z) (x : Z) : option Z :=
  match msg with
  | [] => Some x
  | m :: msg' => x' ← bits_loop row j m 0 8 x; bytes_loop row (S j) msg' x'
  end.

(** The [i] loop of [Matrix.Compress], over the rows from row [i]. *)
Fixpoint Matrix_rows_loop (rows : list (list Z)) (i : nat) (msg dst : list Z) : outcome :=
  match rows with
  | [] => Returned dst
  | row :: rows' =>
      match bytes_loop row 0 msg 0 with
      | None => Panicked dst
      | Some x =>
          if decide (i < length dst)%nat
          then Matrix_rows_loop rows' (S i) msg (<[i := x]> dst)
          else Panicked dst
      end
  end.

Definition Matrix_Compress (A : Matrix) (dst msg : list Z) : outcome :=
  match A !! 0%nat with
  | None => Panicked dst
  | Some A0 =>
      match index msg (len A0 / 8 - 1), index dst (len A - 1) with
      | Some _, Some _ => Matrix_rows_loop A 0 msg dst
      | _, _ => Panicked dst
      end
  end.

(** ** The lookup-table compressor *)

Definition LookupTable_InputLen (At : LookupTable) : option Z :=
  A0 ← At !! 0%nat; Some (len A0).

Definition LookupTable_OutputLen (At : LookupTable) : option Z := Some (len At).

(** The [j] loop of [LookupTable.Compress], over the tables from group [j]. *)
Fixpoint groups_loop (tabs : list (list Z)) (j : nat) (msg : list Z) (x : Z) : option Z :=
  match tabs with
  | [] => Some x
  | tab :: tabs' =>
      m ← msg !! j;
      a ← index tab m;
      groups_loop tabs' (S j) msg (uint64 (x + a))
  end.

Fixpoint LookupTable_rows_loop (rows : LookupTable) (i : nat) (msg dst : list Z) : outcome :=
  match rows with
  | [] => Returned dst
  | tabs :: rows' =>
      match groups_loop tabs 0 msg 0 with
      | None => Panicked dst
      | Some x =>
          if decide (i < length dst)%nat
          then LookupTable_rows_loop rows' (S i) msg (<[i := x]> dst)
          else Panicked dst
      end
  end.

Definition LookupTable_Compress (At : LookupTable) (dst msg : list Z) : outcome :=
  match At !! 0%nat with
  | None => Panicked dst
  | Some A0 =>
      match index msg (len A0 - 1), index dst (len At - 1) with
      | Some _, Some _ => LookupTable_rows_loop At 0 msg dst
      | _, _ => Panicked dst
      end
  end.

(** ** The streaming digest *)

(** The [digest] struct. [d_calls] is a ghost field, absent from the Go
    struct: the log of the messages handed to [c.Compress], oldest first. *)
Record digest := {
  d_c : Compressor;
  d_size : Z;
  d_blockSize : Z;
  d_h : list Z;
  d_x : list Z;
  d_nx : Z;
  d_len : Z;
  d_calls : list (list Z)
}.

Definition set_h (d : digest) (h : list Z) (calls : list (list Z)) : digest :=
  {| d_c := d_c d; d_size := d_size d; d_blockSize := d_blockSize d;
     d_h := h; d_x := d_x d; d_nx := d_nx d; d_len := d_len d; d_calls := calls |}.

Definition set_x (d : digest) (x : list Z) (nx : Z) : digest :=
  {| d_c := d_c d; d_size := d_size d; d_blockSize := d_blockSize d;
     d_h := d_h d; d_x := x; d_nx := nx; d_len := d_len d; d_calls := d_calls d |}.

Definition set_len (d : digest) (n : Z) : digest :=
  {| d_c := d_c d; d_size := d_size d; d_blockSize := d_blockSize d;
     d_h := d_h d; d_x := d_x d; d_nx := d_nx d; d_len := n; d_calls := d_calls d |}.

Definition Reset (d : digest) : digest :=
  {| d_c := d_c d; d_size := d_size d; d_blockSize := d_blockSize d;
     d_h := (fun _ => 0) <$> d_h d; d_x := d_x d; d_nx := 0; d_len := 0;
     d_calls := d_calls d |}.

Definition New (c : Compressor) : option digest :=
  ol ← OutputLen c;
  let size := ol * 8 in
  il ← InputLen c;
  let blockSize := il - size in
  x ← make 0 blockSize;
  ol' ← OutputLen c;
  h ← make 0 ol';
  Some (Reset {| d_c := c; d_size := size; d_blockSize := blockSize;
                 d_h := h; d_x := x; d_nx := 0; d_len := 0; d_calls := [] |}).

Definition Size (d : digest) : Z := d_size d.
Definition BlockSize (d : digest) : Z := d_blockSize d.

(** [for j := range h { PutUint64(buf[8*j:8*j+8], h[j]) }], from word [j]. *)
Fixpoint put_words (buf : list Z) (j : nat) (h : list Z) : option (list Z) :=
  match h with
  | [] => Some buf
  | v :: h' => buf' ← PutUint64 buf (8 * Z.of_nat j) v; put_words buf' (S j) h'
  end.

(** The loop of [blocks] from offset [i]. For a block size of zero the Go
    loop never ends; the embedding then runs out of [fuel] and has no
    result. [blocks_spec] shows the fuel is enough for a positive block
    size. *)
Fixpoint blocks_loop (fuel : nat) (d : digest) (data msg : list Z) (i : Z) : option digest :=
  match fuel with
  | O => None
  | S fuel' =>
      if decide (i ≤ len data - d_blockSize d) then
        msg1 ← put_words msg 0 (d_h d);
        _ ← slice msg1 (d_size d) (d_size d + d_blockSize d);
        src ← slice data i (i + d_blockSize d);
        let msg2 := (copy_slice msg1 (Z.to_nat (d_size d))
                       (Z.to_nat (d_size d + d_blockSize d)) src).1 in
        h' ← returned (Compress (d_c d) (d_h d) msg2);
        blocks_loop fuel' (set_h d h' (d_calls d ++ [msg2])) data msg2 (i + d_blockSize d)
      else Some d
  end.

Definition blocks (d : digest) (data : list Z) : option digest :=
  il ← InputLen (d_c d);
  msg ← make 0 il;
  blocks_loop (S (length data)) d data msg 0.

(** [Write], in the three steps of the source: top up a partial carry
    buffer, compress the whole blocks of what is left, keep the tail. Each
    step gives the receiver and the rest of [p]. *)
Definition Write_fill (d : digest) (p : list Z) : option (digest * list Z) :=
  if decide (0 < d_nx d) then
    _ ← slice (d_x d) (d_nx d) (len (d_x d));
    let '(x', n) := copy_slice (d_x d) (Z.to_nat (d_nx d)) (length (d_x d)) p in
    let d1 := set_x d x' (d_nx d + n) in
    d2 ← (if decide (d_nx d1 = d_blockSize d1)
          then d' ← blocks d1 (d_x d1); Some (set_x d' (d_x d') 0)
          else Some d1);
    p' ← slice p n (len p);
    Some (d2, p')
  else Some (d, p).

Definition Write_blocks (d : digest) (p : list Z) : option (digest * list Z) :=
  if decide (d_blockSize d ≤ len p) then
    if decide (d_blockSize d = 0) then None
    else
      let n := Z.quot (len p) (d_blockSize d) * d_blockSize d in
      data ← slice p 0 n;
      d' ← blocks d data;
      p' ← slice p n (len p);
      Some (d', p')
  else Some (d, p).

Definition Write_tail (d : digest) (p : list Z) : digest :=
  if decide (0 < len p) then
    let '(x', n) := copy_slice (d_x d) 0 (length (d_x d)) p in set_x d x' n
  else d.

Definition Write (d : digest) (p : list Z) : option digest :=
  let d0 := set_len d (uint64 (d_len d + len p)) in
  '(d1, p1) ← Write_fill d0 p;
  '(d2, p2) ← Write_blocks d1 p1;
  Some (Write_tail d2 p2).

(** [digest.copy]: fresh backing arrays for [h] and [x], filled by [copy]. *)
Definition copy (d : digest) : digest :=
  {| d_c := d_c d; d_size := d_size d; d_blockSize := d_blockSize d;
     d_h := (copy_slice (replicate (length (d_h d)) 0) 0 (length (d_h d)) (d_h d)).1;
     d_x := (copy_slice (replicate (length (d_x d)) 0) 0 (length (d_x d)) (d_x d)).1;
     d_nx := d_nx d; d_len := d_len d; d_calls := d_calls d |}.

(** The padding of [checkSum], up to and including the write of the length
    field: the receiver as it stands when [d.nx != 0] is tested. All the
    arithmetic on [B], [P] and [d.len] is on [uint64]. *)
Definition padding (d : digest) : option digest :=
  let B := uint64 (d_blockSize d) in
  let P := uint64 (B - 8) in
  tmp ← make 0 B;
  _ ← index tmp 0;
  let tmp := <[0%nat := 0x80]> tmp in
  if decide (B = 0) then None
  else
    let r := d_len d mod B in
    pad ← (if decide (r < P) then slice tmp 0 (uint64 (P - r))
           else slice tmp 0 (uint64 (B + P - r)));
    d1 ← Write d pad;
    let bitlen := uint64 (Z.shiftl (d_len d1) 3) in
    tmp' ← PutUint64 tmp 0 bitlen;
    lenfield ← slice tmp' 0 8;
    Write d1 lenfield.

Definition checkSum (d : digest) : option (digest * list Z) :=
  d' ← padding d;
  if decide (d_nx d' ≠ 0) then None
  else
    digest0 ← make 0 (d_size d');
    out ← put_words digest0 0 (d_h d');
    Some (d', out).

Definition Sum (d : digest) (in_ : list Z) : option (list Z) :=
  let d0 := copy d in
  '(_, hash) ← checkSum d0;
  Some (in_ ++ hash).

(** ** The digest behind a pointer *)

(** The store: the backing arrays of the [[]uint64] and [[]byte] slices and
    the [digest] structs, by address. A struct holds the addresses of its
    two arrays; every slice of a digest spans its whole array. *)
Record dstruct := {
  s_c : Compressor;
  s_size : Z;
  s_blockSize : Z;
  s_h : nat;
  s_x : nat;
  s_nx : Z;
  s_len : Z;
  s_calls : list (list Z)
}.

Record store := {
  words : gmap nat (list Z);
  octets : gmap nat (list Z);
  structs : gmap nat dstruct
}.

(** The digest a pointer denotes: the struct with its arrays read. *)
Definition load (σ : store) (p : nat) : option digest :=
  s ← structs σ !! p;
  h ← words σ !! s_h s;
  x ← octets σ !! s_x s;
  Some {| d_c := s_c s; d_size := s_size s; d_blockSize := s_blockSize s;
          d_h := h; d_x := x; d_nx := s_nx s; d_len := s_len s;
          d_calls := s_calls s |}.

(** A method with a pointer receiver writes through the struct: the arrays
    it mutates are the ones the struct points to. *)
Definition write_back (σ : store) (p : nat) (d : digest) : option store :=
  s ← structs σ !! p;
  Some {| words := <[s_h s := d_h d]> (words σ);
          octets := <[s_x s := d_x d]> (octets σ);
          structs := <[p := {| s_c := s_c s; s_size := s_size s;
                               s_blockSize := s_blockSize s;
                               s_h := s_h s; s_x := s_x s;
                               s_nx := d_nx d; s_len := d_len d;
                               s_calls := d_calls d |}]> (structs σ) |}.

Definition Write_ptr (σ : store) (p : nat) (data : list Z) : option store :=
  d ← load σ p; d' ← Write d data; write_back σ p d'.

Definition Reset_ptr (σ : store) (p : nat) : option store :=
  d ← load σ p; write_back σ p (Reset d).

(** [d.copy()]: a new struct and two new arrays, at addresses not in use. *)
Definition copy_ptr (σ : store) (p : nat) : option (nat * store) :=
  s ← structs σ !! p;
  d ← load σ p;
  let dd := copy d in
  let ah := fresh (dom (words σ)) in
  let ax := fresh (dom (octets σ)) in
  let p' := fresh (dom (structs σ)) in
  Some (p', {| words := <[ah := d_h dd]> (words σ);
               octets := <[ax := d_x dd]> (octets σ);
               structs := <[p' := {| s_c := s_c s; s_size := s_size s;
                                     s_blockSize := s_blockSize s;
                                     s_h := ah; s_x := ax;
                                     s_nx := s_nx s; s_len := s_len s;
                                     s_calls := s_calls s |}]> (structs σ) |}).

Definition checkSum_ptr (σ : store) (p : nat) : option (list Z * store) :=
  d ← load σ p;
  '(d', hash) ← checkSum d;
  σ' ← write_back σ p d';
  Some (hash, σ').

Definition Sum_ptr (σ : store) (p : nat) (in_ : list Z) : option (list Z * store) :=
  '(p0, σ0) ← copy_ptr σ p;
  '(hash, σ') ← checkSum_ptr σ0 p0;
  Some (in_ ++ hash, σ').

(** [New] on a store. *)
Definition New_ptr (σ : store) (c : Compressor) : option (nat * store) :=
  d ← New c;
  let ah := fresh (dom (words σ)) in
  let ax := fresh (dom (octets σ)) in
  let p := fresh (dom (structs σ)) in
  Some (p, {| words := <[ah := d_h d]> (words σ);
              octets := <[ax := d_x d]> (octets σ);
              structs := <[p := {| s_c := d_c d; s_size := d_size d;
                                   s_blockSize := d_blockSize d;
                                   s_h := ah; s_x := ax;
                                   s_nx := d_nx d; s_len := d_len d;
                                   s_calls := d_calls d |}]> (structs σ) |}).

Definition empty_store : store := {| words := ∅; octets := ∅; structs := ∅ |}.

(** * What the properties are stated with *)

(** ** The specification's reading of the matrix and of the compression function *)

(** The cells the specification describes: the stream cut in groups of eight
    bytes, each decoded little-endian, [M] cells per row. *)
Fixpoint spec_cells (s : list Z) (n : nat) : list Z :=
  match n with
  | O => []
  | S n' => le_uint64 (take 8 s) :: spec_cells (drop 8 s) n'
  end.

Fixpoint spec_matrix (s : list Z) (M N : nat) : Matrix :=
  match N with
  | O => []
  | S N' => spec_cells s M :: spec_matrix (drop (8 * M) s) M N'
  end.

(** An [N] by [M] matrix, and a message made of bytes. *)
Definition dims (A : Matrix) (N M : Z) : Prop :=
  len A = N ∧ Forall (fun row => len row = M) A.

Definition bytes (msg : list Z) : Prop := Forall (fun m => 0 ≤ m < 256) msg.

(** Bit [b] of a byte, most significant bit first. *)
Definition spec_bit (m : Z) (b : nat) : bool := Z.testbit m (7 - Z.of_nat b).

(** The cells [A[i][8j+b]] a message selects in one row: one for every byte
    index [j] and bit position [b] such that bit [b] of [msg[j]] is set. *)
Definition spec_selected (row msg : list Z) : list Z :=
  j ← seq 0 (length msg);
  b ← seq 0 8;
  if spec_bit (msg !!! j) b then [row !!! (8 * j + b)%nat] else [].

(** Their sum modulo 2^64. *)
Definition spec_row_sum (row msg : list Z) : Z :=
  uint64 (foldr Z.add 0 (spec_selected row msg)).

(** ** The cells a message selects, in the order of the loops *)

(** The same cells, listed the way the loops of [Matrix.Compress] meet
    them: bit positions [b, b + n) of byte [j], then the bytes from [j] on. *)
Definition sumZ (l : list Z) : Z := foldr Z.add 0 l.

Fixpoint bits_cells (row : list Z) (j : nat) (m : Z) (b n : nat) : list Z :=
  match n with
  | O => []
  | S n' =>
      (if spec_bit m b then [row !!! (8 * j + b)%nat] else [])
        ++ bits_cells row j m (S b) n'
  end.

Fixpoint msg_cells (row : list Z) (j : nat) (msg : list Z) : list Z :=
  match msg with
  | [] => []
  | m :: msg' => bits_cells row j m 0 8 ++ msg_cells row (S j) msg'
  end.

(** The table [Matrix.LookupTable] holds for group [g] of a row. *)
Definition tab_of (row : list Z) (g : nat) : list Z :=
  (fun b : nat => uint64 (sumZ (bits_cells row g (uint8 (Z.of_nat b)) 0 8)))
    <$> seq 0 256.

(** ** The digest seen as a Merkle-Damgard chain *)

(** The input of one compression: the chaining value, little-endian, then
    the block. *)
Fixpoint chain_bytes (h : list Z) : list Z :=
  match h with
  | [] => []
  | w :: h' => le_bytes w ++ chain_bytes h'
  end.

Definition chain_input (h block : list Z) : list Z := chain_bytes h ++ block.

Definition compress_block (c : Compressor) (h block : list Z) : option (list Z) :=
  returned (Compress c h (chain_input h block)).

(** [n] chaining steps over the first [n] blocks of [b] bytes of [data]: the
    last chaining value and the compression inputs, in order. *)
Fixpoint run_blocks (c : Compressor) (b n : nat) (h data : list Z)
  : option (list Z * list (list Z)) :=
  match n with
  | O => Some (h, [])
  | S n' =>
      h1 ← compress_block c h (take b data);
      '(h2, ms) ← run_blocks c b n' h1 (drop b data);
      Some (h2, chain_input h (take b data) :: ms)
  end.

(** What of a digest the rest of a hash depends on: the chaining value, the
    bytes carried, the byte count. *)
Record view := View { v_h : list Z; v_buf : list Z; v_len : Z }.

Definition view_of (d : digest) : view :=
  View (d_h d) (take (Z.to_nat (d_nx d)) (d_x d)) (d_len d).

(** Feeding [p] to a view: compress the whole blocks of the carried bytes
    followed by [p], carry the rest. *)
Definition absorb (c : Compressor) (b : nat) (v : view) (p : list Z)
  : option (view * list (list Z)) :=
  let data := v_buf v ++ p in
  let n := (length data / b)%nat in
  '(h', ms) ← run_blocks c b n (v_h v) data;
  Some (View h' (drop (n * b) data) (uint64 (v_len v + len p)), ms).

(** The invariant of a digest made by [New] over a compressor of positive
    block size. *)
Record wf (d : digest) : Prop := {
  wf_blockSize : 0 < d_blockSize d;
  wf_size : d_size d = 8 * len (d_h d);
  wf_InputLen : InputLen (d_c d) = Some (d_size d + d_blockSize d);
  wf_OutputLen : OutputLen (d_c d) = Some (len (d_h d));
  wf_x : len (d_x d) = d_blockSize d;
  wf_nx : 0 ≤ d_nx d < d_blockSize d;
  wf_len : 0 ≤ d_len d < 2 ^ 64
}.

(** Two digests over the same compressor with the same geometry. *)
Definition same_config (d d' : digest) : Prop :=
  d_c d' = d_c d ∧ d_size d' = d_size d ∧ d_blockSize d' = d_blockSize d.

(** Two digests the rest of a hash cannot tell apart: they differ at most in
    the stale bytes of the carry buffer and in the ghost log. *)
Definition similar (d1 d2 : digest) : Prop :=
  wf d1 ∧ wf d2 ∧ same_config d1 d2 ∧ view_of d1 = view_of d2.

Definition option_similar (o1 o2 : option digest) : Prop :=
  match o1, o2 with
  | Some d1, Some d2 => similar d1 d2
  | None, None => True
  | _, _ => False
  end.

(** A sequence of [Write] calls. *)
Fixpoint Writes (d : digest) (chunks : list (list Z)) : option digest :=
  match chunks with
  | [] => Some d
  | p :: chunks' => d' ← Write d p; Writes d' chunks'
  end.

(** The states a caller can bring a digest of compressor [c] to. *)
Inductive reachable (c : Compressor) : digest → Prop :=
| reach_New d : New c = Some d → reachable c d
| reach_Reset d : reachable c d → reachable c (Reset d)
| reach_Write d p d' : reachable c d → Write d p = Some d' → reachable c d'.

(** Hashing a message handed over in chunks: [New], one [Write] per chunk,
    [Sum]. *)
Definition hash_chunks (c : Compressor) (chunks : list (list Z)) (in_ : list Z)
  : option (list Z) :=
  d ← New c; d' ← Writes d chunks; Sum d' in_.

(** A compressor that returns on every call with buffers of the lengths it
    declares. *)
Definition returns_on (c : Compressor) (il ol : Z) : Prop :=
  ∀ h msg, len h = ol → len msg = il → ∃ h', Compress c h msg = Returned h'.

(** The buffer [tmp] of [checkSum] once [tmp[0] = 0x80] is stored, and the
    number of its bytes the first padding write takes. *)
Definition pad_buffer (B : Z) : list Z := <[0%nat := 0x80]> (replicate (Z.to_nat B) 0).

Definition pad_len (d : digest) : Z :=
  let B := d_blockSize d in
  let r := d_len d mod B in
  if decide (r < B - 8) then B - 8 - r else B + (B - 8) - r.

(** ** Concrete matrices *)

(** A one-row matrix of 128 columns: 16 input bytes and one output word,
    hence a block of 8 bytes. *)
Definition A_1x128 : Matrix := [Z.of_nat <$> seq 1 128].

(** A one-row matrix of 72 columns: 9 input bytes and one output word, hence
    a block of a single byte. *)
Definition A_1x72 : Matrix := [Z.of_nat <$> seq 1 72].

(** A one-row matrix of 256 zero columns: 32 input bytes and one output
    word, hence a block of 24 bytes, which does not divide 2^64. *)
Definition Zero_1x256 : Matrix := [replicate 256 0].

(** Four rows of 256 columns (compression factor 1) and four rows of 512
    columns (compression factor 2). *)
Definition A_4x256 : Matrix :=
  (fun i : nat => (fun j : nat => Z.of_nat (256 * i + j + 1)) <$> seq 0 256) <$> seq 0 4.

Definition A_4x512 : Matrix :=
  (fun i : nat => (fun j : nat => Z.of_nat (512 * i + j + 1)) <$> seq 0 512) <$> seq 0 4.

(** The first 24 bytes of the padding block of the empty message for a block
    of 32 bytes. *)
Definition empty_pad : list Z := 0x80 :: replicate 23 0.

(** ** What the further properties are stated with *)

(** The words [LookupTable.Compress] adds up for one row: entry [msg[j]] of
    the table of group [j], for every group of the row. *)
Definition table_cells (tabs : list (list Z)) (msg : list Z) : list Z :=
  imap (fun j tab => tab !!! Z.to_nat (msg !!! j)) tabs.

(** The padding [checkSum] writes after a message of [n] bytes, for a block
    of [B] bytes: the marker, zeros up to [B - 8] bytes modulo [B] ([k]
    bytes with the marker), and the eight bytes of the bit count of the
    [n + k] bytes before them. *)
Definition md_pad_len (B n : Z) : Z :=
  let r := n mod B in
  if decide (r < B - 8) then B - 8 - r else B + (B - 8) - r.

Definition md_padding (B n : Z) : list Z :=
  let k := md_pad_len B n in
  0x80 :: replicate (Z.to_nat (k - 1)) 0 ++ le_bytes (uint64 (8 * (n + k))).

(** The chaining value after all the blocks of the padded message, from the
    zero chaining value of [ol] words. *)
Definition md_chain (c : Compressor) (B ol : Z) (m : list Z) : option (list Z) :=
  let padded := m ++ md_padding B (len m) in
  '(h, _) ← run_blocks c (Z.to_nat B) (length padded / Z.to_nat B)
               (replicate (Z.to_nat ol) 0) padded;
  Some h.

(** Two digests in step over two compressors: the same geometry, the same
    chaining value, carried bytes and byte count, and bytes in the carry
    buffer. *)
Definition twins (c1 c2 : Compressor) (d1 d2 : digest) : Prop :=
  wf d1 ∧ wf d2 ∧ d_c d1 = c1 ∧ d_c d2 = c2
  ∧ d_size d1 = d_size d2 ∧ d_blockSize d1 = d_blockSize d2
  ∧ view_of d1 = view_of d2 ∧ bytes (v_buf (view_of d1)).

Definition option_twins (c1 c2 : Compressor) (o1 o2 : option digest) : Prop :=
  match o1, o2 with
  | Some d1, Some d2 => twins c1 c2 d1 d2
  | None, None => True
  | _, _ => False
  end.

(** * Instances *)

(** ** The matrix forms as compressors *)

Lemma Matrix_rows_loop_length msg rows : ∀ i dst out,
  Matrix_rows_loop rows i msg dst = Returned out → length out = length dst.
Proof.
  induction rows as [|row rows IH]; intros i dst out; cbn [Matrix_rows_loop].
  - now intros [= <-].
  - destruct (bytes_loop row 0 msg 0); [|done].
    destruct (decide (i < length dst)%nat); [|done].
    intros H. apply IH in H. now rewrite length_insert in H.
Qed.

Lemma Matrix_Compress_length A dst msg out :
  Matrix_Compress A dst msg = Returned out → length out = length dst.
Proof.
  unfold Matrix_Compress. destruct (A !! 0%nat); [|done].
  destruct (index msg _); [|done]. destruct (index dst _); [|done].
  apply Matrix_rows_loop_length.
Qed.

Lemma LookupTable_rows_loop_length msg rows : ∀ i dst out,
  LookupTable_rows_loop rows i msg dst = Returned out → length out = length dst.
Proof.
  induction rows as [|tabs rows IH]; intros i dst out; cbn [LookupTable_rows_loop].
  - now intros [= <-].
  - destruct (groups_loop tabs 0 msg 0); [|done].
    destruct (decide (i < length dst)%nat); [|done].
    intros H. apply IH in H. now rewrite length_insert in H.
Qed.

Lemma LookupTable_Compress_length At dst msg out :
  LookupTable_Compress At dst msg = Returned out → length out = length dst.
Proof.
  unfold LookupTable_Compress. destruct (At !! 0%nat); [|done].
  destruct (index msg _); [|done]. destruct (index dst _); [|done].
  apply LookupTable_rows_loop_length.
Qed.

(** [Matrix] and [LookupTable] implement [Compressor]. *)
Definition Matrix_Compressor (A : Matrix) : Compressor :=
  {| Compress := Matrix_Compress A;
     InputLen := Matrix_InputLen A;
     OutputLen := Matrix_OutputLen A;
     Compress_length := Matrix_Compress_length A |}.

Definition LookupTable_Compressor (At : LookupTable) : Compressor :=
  {| Compress := LookupTable_Compress At;
     InputLen := LookupTable_InputLen At;
     OutputLen := LookupTable_OutputLen At;
     Compress_length := LookupTable_Compress_length At |}.

(** ** A digest to run the properties on *)

(** The digest over [A_1x128], fresh and after [Write] of nine bytes. *)
Definition d_fresh : digest :=
  {| d_c := Matrix_Compressor A_1x128; d_size := 8; d_blockSize := 8;
     d_h := [0]; d_x := [0; 0; 0; 0; 0; 0; 0; 0]; d_nx := 0; d_len := 0;
     d_calls := [] |}.

Definition d_nine : digest :=
  {| d_c := Matrix_Compressor A_1x128; d_size := 8; d_blockSize := 8;
     d_h := [1329]; d_x := [9; 0; 0; 0; 0; 0; 0; 0]; d_nx := 1; d_len := 9;
     d_calls := [[0; 0; 0; 0; 0; 0; 0; 0; 1; 2; 3; 4; 5; 6; 7; 8]] |}.

(** A store holding [d_nine] at address 0. *)
Definition store_nine : store :=
  {| words := {[0%nat := [1329]]};
     octets := {[0%nat := [9; 0; 0; 0; 0; 0; 0; 0]]};
     structs := {[0%nat := {| s_c := Matrix_Compressor A_1x128; s_size := 8;
                              s_blockSize := 8; s_h := 0; s_x := 0;
                              s_nx := 1; s_len := 9;
                              s_calls := [[0; 0; 0; 0; 0; 0; 0; 0; 1; 2; 3; 4; 5; 6; 7; 8]] |}]} |}.

(** * Proofs *)

(** ** The model runs *)

Example sumBits_ex : sumBits [1; 2; 4; 8; 16; 32; 64; 128] 0x81 = Some 129.
Proof. reflexivity. Qed.

Example Matrix_Compress_ex :
  Matrix_Compress [[1; 2; 3; 4; 5; 6; 7; 8]; [10; 20; 30; 40; 50; 60; 70; 80]] [0; 0; 9] [0xC1]
  = Returned [11; 110; 9].
Proof. reflexivity. Qed.

Example LookupTable_Compress_ex :
  (At ← Matrix_LookupTable [[1; 2; 3; 4; 5; 6; 7; 8]; [10; 20; 30; 40; 50; 60; 70; 80]];
   Some (LookupTable_Compress At [0; 0; 9] [0xC1]))
  = Some (Returned [11; 110; 9]).
Proof. vm_compute. reflexivity. Qed.

(** ** Arithmetic on machine integers *)

Lemma uint64_range z : 0 ≤ uint64 z < 2 ^ 64.
Proof. unfold uint64. apply Z.mod_pos_bound. lia. Qed.

Lemma uint64_small z : 0 ≤ z < 2 ^ 64 → uint64 z = z.
Proof. unfold uint64. apply Z.mod_small. Qed.

Lemma uint64_add_l a b : uint64 (uint64 a + b) = uint64 (a + b).
Proof. unfold uint64. apply Zplus_mod_idemp_l. Qed.

Lemma uint64_add_r a b : uint64 (a + uint64 b) = uint64 (a + b).
Proof. unfold uint64. apply Zplus_mod_idemp_r. Qed.

Lemma uint8_small z : 0 ≤ z < 256 → uint8 z = z.
Proof. unfold uint8. apply Z.mod_small. Qed.

Lemma land_0x80 y : Z.land y 0x80 = if Z.testbit y 7 then 0x80 else 0.
Proof.
  apply Z.bits_inj'. intros n Hn. rewrite Z.land_spec.
  change 0x80 with (2 ^ 7). rewrite Z.pow2_bits_eqb by lia.
  destruct (Z.testbit y 7) eqn:E.
  - rewrite Z.pow2_bits_eqb by lia.
    destruct (Z.eqb_spec 7 n) as [<-|Hne]; rewrite ?E, ?andb_false_r; reflexivity.
  - rewrite Z.bits_0.
    destruct (Z.eqb_spec 7 n) as [<-|Hne]; rewrite ?E, ?andb_false_r; reflexivity.
Qed.

(** The shift-and-mask test of the code reads bit [7 - i] of the byte. *)
Lemma bit_selected_spec m i : (i < 8)%nat → bit_selected m i = spec_bit m i.
Proof.
  intros Hi. unfold bit_selected, spec_bit, uint8.
  rewrite land_0x80, Z.mod_pow2_bits_low, Z.shiftl_spec by lia.
  destruct (Z.testbit m (7 - Z.of_nat i)); reflexivity.
Qed.

(** ** Slices *)

Lemma len_nonneg {A} (s : list A) : 0 ≤ len s.
Proof. unfold len. lia. Qed.

Lemma index_Some {A} (s : list A) i :
  0 ≤ i < len s → is_Some (index s i).
Proof.
  unfold index, len. intros H. rewrite decide_True by lia.
  apply lookup_lt_is_Some. lia.
Qed.

Lemma index_None {A} (s : list A) i :
  ¬ (0 ≤ i < len s) → index s i = None.
Proof.
  unfold index, len. intros H. case_decide; [|done].
  apply lookup_ge_None. lia.
Qed.

Lemma slice_Some {A} (s : list A) lo hi :
  0 ≤ lo → lo ≤ hi → hi ≤ len s →
  slice s lo hi = Some (take (Z.to_nat (hi - lo)) (drop (Z.to_nat lo) s)).
Proof. intros. unfold slice. now rewrite decide_True. Qed.

(** ** The reference compressor computes the selected sums *)

Lemma sumZ_app l1 l2 : sumZ (l1 ++ l2) = sumZ l1 + sumZ l2.
Proof. unfold sumZ. induction l1; simpl; lia. Qed.

Lemma bits_cells_bind row j m b n :
  bits_cells row j m b n
  = (b' ← seq b n; if spec_bit m b' then [row !!! (8 * j + b')%nat] else []).
Proof.
  revert b. induction n as [|n IH]; intros b; simpl; [done|].
  now rewrite IH.
Qed.

Lemma msg_cells_bind row pre msg :
  msg_cells row (length pre) msg
  = (j ← seq (length pre) (length msg);
     b ← seq 0 8;
     if spec_bit ((pre ++ msg) !!! j) b then [row !!! (8 * j + b)%nat] else []).
Proof.
  revert pre. induction msg as [|m msg IH]; intros pre; [done|].
  cbn [msg_cells length seq]. rewrite bind_cons.
  rewrite bits_cells_bind.
  replace ((pre ++ m :: msg) !!! length pre) with m
    by (now rewrite lookup_total_app_r, Nat.sub_diag by lia).
  f_equal.
  specialize (IH (pre ++ [m])).
  rewrite length_app, <- app_assoc in IH. simpl in IH.
  now rewrite Nat.add_1_r in IH.
Qed.

Lemma spec_selected_cells row msg : spec_selected row msg = msg_cells row 0 msg.
Proof. symmetry. exact (msg_cells_bind row [] msg). Qed.

Lemma bits_loop_spec row j m n : ∀ b x,
  (b + n ≤ 8)%nat → (8 * j + b + n ≤ length row)%nat → 0 ≤ x < 2 ^ 64 →
  bits_loop row j m b n x = Some (uint64 (x + sumZ (bits_cells row j m b n))).
Proof.
  induction n as [|n IH]; intros b x Hb Hrow Hx; cbn [bits_loop bits_cells].
  - cbn. now rewrite Z.add_0_r, uint64_small.
  - rewrite bit_selected_spec by lia.
    destruct (spec_bit m b).
    + rewrite (list_lookup_lookup_total_lt row (8 * j + b)) by lia.
      cbn [mbind option_bind].
      rewrite IH by (try lia; apply uint64_range).
      rewrite uint64_add_l, sumZ_app. cbn [sumZ foldr]. f_equal. f_equal. lia.
    + rewrite app_nil_l. apply IH; lia.
Qed.

Lemma bytes_loop_spec row msg : ∀ j x,
  (8 * (j + length msg) ≤ length row)%nat → 0 ≤ x < 2 ^ 64 →
  bytes_loop row j msg x = Some (uint64 (x + sumZ (msg_cells row j msg))).
Proof.
  induction msg as [|m msg IH]; intros j x Hrow Hx;
    cbn [bytes_loop msg_cells length] in *.
  - cbn. now rewrite Z.add_0_r, uint64_small.
  - rewrite bits_loop_spec by lia. cbn [mbind option_bind].
    rewrite IH by (try lia; apply uint64_range).
    now rewrite uint64_add_l, sumZ_app, Z.add_assoc.
Qed.

Lemma row_sum_spec row msg :
  (8 * length msg ≤ length row)%nat →
  bytes_loop row 0 msg 0 = Some (spec_row_sum row msg).
Proof.
  intros H. rewrite bytes_loop_spec by (simpl; lia).
  unfold spec_row_sum. now rewrite spec_selected_cells, Z.add_0_l.
Qed.

(** The row loop writes one sum per row, from word [i] of the destination. *)
Lemma Matrix_rows_loop_spec msg rows : ∀ i dst,
  Forall (fun row => (8 * length msg ≤ length row)%nat) rows →
  (i + length rows ≤ length dst)%nat →
  Matrix_rows_loop rows i msg dst
  = Returned (take i dst ++ ((fun row => spec_row_sum row msg) <$> rows)
                ++ drop (i + length rows) dst).
Proof.
  induction rows as [|row rows IH]; intros i dst Hrows Hdst;
    cbn [Matrix_rows_loop length fmap list_fmap] in *.
  - now rewrite Nat.add_0_r, app_nil_l, take_drop.
  - inversion_clear Hrows as [|? ? Hrow Hrest].
    rewrite row_sum_spec by lia. rewrite decide_True by lia.
    rewrite IH by (rewrite ?length_insert; auto; lia).
    f_equal.
    rewrite (take_S_r _ i (spec_row_sum row msg))
      by (apply list_lookup_insert_eq; lia).
    rewrite take_insert_ge, drop_insert_lt by lia.
    rewrite <- app_assoc. cbn [app].
    now replace (S i + length rows)%nat with (i + S (length rows))%nat by lia.
Qed.

Lemma Matrix_Compress_spec A N M dst msg :
  dims A N M → 1 ≤ N → 8 ≤ M → len msg = M / 8 → N ≤ len dst →
  Matrix_Compress A dst msg
  = Returned (((fun row => spec_row_sum row msg) <$> A) ++ drop (Z.to_nat N) dst).
Proof.
  intros [HN HM] H1 H8 Hmsg Hdst. unfold Matrix_Compress, len in *.
  destruct A as [|A0 A']; [simpl in HN; lia|]. cbn [lookup list_lookup].
  pose proof (Forall_inv HM) as HA0. cbn beta in HA0.
  assert (1 ≤ M / 8) by (apply Z.div_le_lower_bound; lia).
  rewrite HA0.
  destruct (index_Some msg (M / 8 - 1)) as [? ->]; [unfold len; lia|].
  destruct (index_Some dst (Z.of_nat (length (A0 :: A')) - 1)) as [? ->];
    [unfold len; lia|].
  rewrite Matrix_rows_loop_spec.
  - rewrite take_0, app_nil_l. do 3 f_equal. lia.
  - eapply Forall_impl; [exact HM|]. cbn beta. intros row Hrow.
    pose proof (Z.mul_div_le M 8). lia.
  - lia.
Qed.

(** ** The lookup table holds the sums of the eight-column groups *)

Lemma mapM_total {A B} (f : A → option B) (g : A → B) l :
  Forall (fun a => f a = Some (g a)) l → mapM f l = Some (g <$> l).
Proof.
  intros H. apply mapM_Some_2. induction H; constructor; auto.
Qed.

Lemma sumBits_loop_bits as_ b n : ∀ i x,
  sumBits_loop as_ b i n x = bits_loop as_ 0 b i n x.
Proof.
  induction n as [|n IH]; intros i x; cbn [sumBits_loop bits_loop]; [done|].
  rewrite !IH. change (8 * 0 + i)%nat with i.
  destruct (bit_selected b i); [|done].
  destruct (as_ !! i); cbn [mbind option_bind]; auto.
Qed.

Lemma bits_cells_slice row j m n : ∀ b,
  (b + n ≤ 8)%nat → (8 * j + 8 ≤ length row)%nat →
  bits_cells (take 8 (drop (8 * j) row)) 0 m b n = bits_cells row j m b n.
Proof.
  induction n as [|n IH]; intros b Hb Hrow; cbn [bits_cells]; [done|].
  rewrite IH by lia. f_equal.
  destruct (spec_bit m b); [|done]. f_equal.
  change (8 * 0 + b)%nat with b.
  rewrite lookup_total_take_lt by lia. now rewrite lookup_total_drop.
Qed.

Lemma sumBits_slice row j m :
  (8 * j + 8 ≤ length row)%nat →
  sumBits (take 8 (drop (8 * j) row)) m
  = Some (uint64 (sumZ (bits_cells row j m 0 8))).
Proof.
  intros Hrow. unfold sumBits. rewrite sumBits_loop_bits.
  rewrite bits_loop_spec.
  - now rewrite bits_cells_slice, Z.add_0_l by lia.
  - lia.
  - rewrite length_take, length_drop. lia.
  - lia.
Qed.

Lemma row_tables_spec row M :
  len row = M → M mod 8 = 0 →
  row_tables row M = Some (tab_of row <$> seq 0 (Z.to_nat (M / 8))).
Proof.
  intros Hlen Hmod. unfold row_tables, len in *.
  assert (HM : M = 8 * (M / 8)) by (apply Z_div_exact_full_2; lia).
  replace ((M + 7) / 8) with (M / 8)
    by (apply Z.div_unique with (r := 7); lia).
  apply mapM_total, Forall_forall. intros g Hg.
  apply list_elem_of_In, in_seq in Hg.
  rewrite slice_Some by (unfold len; lia).
  cbn [mbind option_bind].
  rewrite decide_True
    by (rewrite Z.mul_comm, Z.div_mul by lia; lia).
  replace (8 * Z.of_nat g + 8 - 8 * Z.of_nat g) with 8 by lia.
  replace (Z.to_nat (8 * Z.of_nat g)) with (8 * g)%nat by lia.
  change (Z.to_nat 8) with 8%nat.
  unfold byte_table, tab_of. apply mapM_total, Forall_forall. intros b _.
  apply sumBits_slice. lia.
Qed.

Lemma Matrix_LookupTable_spec A N M :
  dims A N M → 1 ≤ N → M mod 8 = 0 →
  Matrix_LookupTable A
  = Some ((fun row => tab_of row <$> seq 0 (Z.to_nat (M / 8))) <$> A).
Proof.
  intros [HN HM] H1 Hmod. unfold Matrix_LookupTable.
  destruct A as [|A0 A']; [unfold len in HN; simpl in HN; lia|].
  cbn [lookup list_lookup mbind option_bind].
  rewrite (Forall_inv HM).
  apply mapM_total. eapply Forall_impl; [exact HM|]. cbn beta.
  intros row Hrow. now apply row_tables_spec.
Qed.

Lemma tab_of_index row g m :
  0 ≤ m < 256 →
  index (tab_of row g) m = Some (uint64 (sumZ (bits_cells row g m 0 8))).
Proof.
  intros Hm. unfold index, tab_of. rewrite decide_True by lia.
  rewrite list_lookup_fmap, lookup_seq_lt by lia. cbn [fmap option_fmap option_map].
  rewrite Nat.add_0_l, Z2Nat.id, uint8_small by lia. reflexivity.
Qed.

(** The group loop over the tables of groups [j, j + n) of a row adds the
    cells bytes [j, j + n) of the message select. *)
Lemma groups_loop_spec row msg n : ∀ j x,
  bytes msg → (j + n ≤ length msg)%nat → 0 ≤ x < 2 ^ 64 →
  groups_loop (tab_of row <$> seq j n) j msg x
  = Some (uint64 (x + sumZ (msg_cells row j (take n (drop j msg))))).
Proof.
  induction n as [|n IH]; intros j x Hbytes Hlen Hx;
    cbn [seq fmap list_fmap groups_loop].
  - rewrite take_0. cbn. now rewrite Z.add_0_r, uint64_small.
  - destruct (lookup_lt_is_Some_2 msg j) as [m Hm]; [lia|].
    rewrite Hm. cbn [mbind option_bind].
    assert (0 ≤ m < 256) as Hrange
      by (exact (proj1 (Forall_lookup _ _) Hbytes j m Hm)).
    rewrite tab_of_index by exact Hrange. cbn [mbind option_bind].
    change (list_fmap nat (list Z) (tab_of row)) with (fmap (M:=list) (tab_of row)).
    rewrite IH by (auto; try lia; apply uint64_range).
    rewrite (drop_S _ _ _ Hm). cbn [take msg_cells].
    rewrite uint64_add_l, sumZ_app.
    set (s1 := sumZ (bits_cells row j m 0 8)). set (s2 := sumZ _).
    replace (x + uint64 s1 + s2) with (uint64 s1 + (x + s2)) by lia.
    rewrite uint64_add_l. f_equal. f_equal. lia.
Qed.

Lemma group_sum_spec row msg :
  bytes msg →
  groups_loop (tab_of row <$> seq 0 (length msg)) 0 msg 0
  = Some (spec_row_sum row msg).
Proof.
  intros Hbytes. rewrite groups_loop_spec by (auto; lia).
  rewrite drop_0, firstn_all, Z.add_0_l.
  unfold spec_row_sum. now rewrite spec_selected_cells.
Qed.

Lemma LookupTable_rows_loop_spec msg rows : bytes msg → ∀ i dst,
  (i + length rows ≤ length dst)%nat →
  LookupTable_rows_loop
    ((fun row => tab_of row <$> seq 0 (length msg)) <$> rows) i msg dst
  = Returned (take i dst ++ ((fun row => spec_row_sum row msg) <$> rows)
                ++ drop (i + length rows) dst).
Proof.
  intros Hbytes.
  induction rows as [|row rows IH]; intros i dst Hdst;
    cbn [LookupTable_rows_loop length fmap list_fmap] in *.
  - now rewrite Nat.add_0_r, app_nil_l, take_drop.
  - rewrite group_sum_spec by done. rewrite decide_True by lia.
    change (list_fmap (list Z) (list (list Z))
              (fun row => list_fmap nat (list Z) (tab_of row) (seq 0 (length msg))) rows)
      with ((fun row => tab_of row <$> seq 0 (length msg)) <$> rows).
    rewrite IH by (rewrite ?length_insert; lia).
    f_equal.
    rewrite (take_S_r _ i (spec_row_sum row msg))
      by (apply list_lookup_insert_eq; lia).
    rewrite take_insert_ge, drop_insert_lt by lia.
    rewrite <- app_assoc. cbn [app].
    now replace (S i + length rows)%nat with (i + S (length rows))%nat by lia.
Qed.

(** ** The two compressors *)

(** C1. For a matrix [A] of [N] rows and [M = compressionFactor*N*64]
    columns and a message of [M/8] bytes, the lookup-table compressor
    derived from [A] by [Matrix.LookupTable] leaves the destination exactly
    as the reference compressor of [A] does: the two calls have the same
    outcome on every destination. When moreover the compression factor is
    positive and the destination has at least [N] words, both return, having
    overwritten the first [N] words. The derivation itself fails only for a
    matrix without rows. *)
Theorem LookupTable_Compress_eq_Matrix_Compress A N cf dst msg :
  dims A N (cf * N * 64) → len msg = cf * N * 64 / 8 → bytes msg →
  match Matrix_LookupTable A with
  | Some At =>
      LookupTable_Compress At dst msg = Matrix_Compress A dst msg
      ∧ (1 ≤ cf → N ≤ len dst →
         ∃ out, len out = N
                ∧ Matrix_Compress A dst msg
                  = Returned (out ++ drop (Z.to_nat N) dst))
  | None => N = 0
  end.
Proof.
  intros Hdims Hmsg Hbytes.
  set (M := cf * N * 64) in *.
  assert (HM8 : M = 8 * (cf * N * 8)) by (unfold M; lia).
  assert (Hdiv : M / 8 = cf * N * 8)
    by (rewrite HM8, Z.mul_comm, Z.div_mul; lia).
  assert (Hmod : M mod 8 = 0)
    by (rewrite HM8, Z.mul_comm; apply Z.mod_mul; lia).
  destruct A as [|A0 A'] eqn:EA; [now destruct Hdims|]. rewrite <- EA in *.
  assert (HN : 1 ≤ N)
    by (destruct Hdims as [<- _]; rewrite EA; unfold len; simpl; lia).
  rewrite (Matrix_LookupTable_spec A N M) by done.
  replace (Z.to_nat (M / 8)) with (length msg) by (unfold len in Hmsg; lia).
  split.
  - unfold LookupTable_Compress, Matrix_Compress.
    assert (Hl0 : A !! 0%nat = Some A0) by now rewrite EA.
    assert (Hl1 : ((fun row => tab_of row <$> seq 0 (length msg)) <$> A) !! 0%nat
                  = Some (tab_of A0 <$> seq 0 (length msg))) by now rewrite EA.
    rewrite Hl0, Hl1.
    assert (HA0 : len A0 = M)
      by (destruct Hdims as [_ HF]; rewrite EA in HF; exact (Forall_inv HF)).
    rewrite HA0, <- Hmsg.
    replace (len (tab_of A0 <$> seq 0 (length msg))) with (len msg)
      by (unfold len; now rewrite length_fmap, length_seq).
    replace (len ((fun row => tab_of row <$> seq 0 (length msg)) <$> A))
      with (len A) by (unfold len; now rewrite length_fmap).
    destruct (index msg (len msg - 1)); [|done].
    destruct (index dst (len A - 1)) eqn:Hdst; [|done].
    assert (len A - 1 < len dst).
    { destruct (decide (0 ≤ len A - 1 < len dst)) as [|Hn]; [lia|].
      apply index_None in Hn. congruence. }
    rewrite LookupTable_rows_loop_spec by (auto; unfold len in *; lia).
    rewrite Matrix_rows_loop_spec; [done| |unfold len in *; lia].
    destruct Hdims as [_ HF]. eapply Forall_impl; [exact HF|]. cbn beta.
    unfold len in *. intros row Hrow. lia.
  - intros Hcf Hdst. exists ((fun row => spec_row_sum row msg) <$> A). split.
    + destruct Hdims as [<- _]. unfold len. now rewrite length_fmap.
    + apply (Matrix_Compress_spec A N M); auto; nia.
Qed.

Lemma LookupTable_Compress_eq_Matrix_Compress_witness :
  let A := [Z.of_nat <$> seq 1 64] in
  let msg := [0x80; 0x01; 0xff; 0; 7; 0x55; 0xaa; 0x10] in
  ∃ At, Matrix_LookupTable A = Some At
        ∧ LookupTable_Compress At [0; 42] msg = Matrix_Compress A [0; 42] msg
        ∧ Matrix_Compress A [0; 42] msg = Returned [746; 42].
Proof.
  intros A msg.
  assert (Hd : dims A 1 (1 * 1 * 64)) by (split; [reflexivity|repeat constructor]).
  assert (Hb : bytes msg) by (repeat constructor; lia).
  pose proof (LookupTable_Compress_eq_Matrix_Compress A 1 1 [0; 42] msg
                Hd eq_refl Hb) as H.
  destruct (Matrix_LookupTable A) as [At|]; [|discriminate].
  exists At. split; [reflexivity|]. split; [exact (proj1 H)|].
  vm_compute. reflexivity.
Defined.

(** C2, as amended. For every matrix [A] with [N >= 1] rows and [M >= 8]
    columns, every message of exactly [M/8] bytes and every destination of
    at least [N] words, [Matrix.Compress] returns and has set [dst[i]], for
    each row [i], to the sum modulo 2^64 of the cells [A[i][8j+b]] such that
    bit [b] (most significant first) of [msg[j]] is set; the words of the
    destination from [N] on are as they were. *)
Theorem Matrix_Compress_subset_sum A N M dst msg :
  dims A N M → 1 ≤ N → 8 ≤ M → len msg = M / 8 → N ≤ len dst →
  ∃ dst',
    Matrix_Compress A dst msg = Returned dst'
    ∧ length dst' = length dst
    ∧ (∀ (i : nat) row, A !! i = Some row →
         dst' !! i = Some (spec_row_sum row msg))
    ∧ (∀ i : nat, N ≤ Z.of_nat i → dst' !! i = dst !! i).
Proof.
  intros Hd HN HM Hmsg Hdst.
  exists (((fun row => spec_row_sum row msg) <$> A) ++ drop (Z.to_nat N) dst).
  pose proof Hd as [HlenA _]. unfold len in *.
  assert (Hsums : length ((fun row => spec_row_sum row msg) <$> A) = Z.to_nat N)
    by (rewrite length_fmap; lia).
  split; [now apply (Matrix_Compress_spec A N M)|]. split; [|split].
  - rewrite length_app, length_drop, Hsums. lia.
  - intros i row Hrow.
    rewrite lookup_app_l by (rewrite Hsums; apply lookup_lt_Some in Hrow; lia).
    now rewrite list_lookup_fmap, Hrow.
  - intros i Hi.
    rewrite lookup_app_r by (rewrite Hsums; lia).
    rewrite Hsums, lookup_drop. f_equal. lia.
Qed.

Lemma Matrix_Compress_subset_sum_witness :
  let A := [[1; 2; 3; 4; 5; 6; 7; 8]; [10; 20; 30; 40; 50; 60; 70; 80]] in
  ∃ dst',
    Matrix_Compress A [0; 0; 9] [0xC1] = Returned dst'
    ∧ dst' !! 0%nat = Some (1 + 2 + 8)
    ∧ dst' !! 1%nat = Some (10 + 20 + 80)
    ∧ dst' !! 2%nat = Some 9.
Proof.
  intros A.
  destruct (Matrix_Compress_subset_sum A 2 8 [0; 0; 9] [0xC1])
    as (dst' & Hret & _ & Hrows & Hrest).
  - split; [reflexivity|repeat constructor].
  - lia.
  - lia.
  - reflexivity.
  - unfold len. simpl. lia.
  - exists dst'. split; [exact Hret|]. split; [|split].
    + exact (Hrows 0%nat _ eq_refl).
    + exact (Hrows 1%nat _ eq_refl).
    + rewrite (Hrest 2%nat) by lia. reflexivity.
Defined.

(** C2 as stated fails on a matrix with fewer than eight columns: with one
    row and no column the message has [0/8 = 0] bytes, the guard
    [msg[len(A[0])/8-1]] indexes [msg[-1]], and the call panics with the
    destination untouched, where the claim has [dst[0]] set to the empty
    sum. *)
Lemma Matrix_Compress_no_column_panics :
  dims [[]] 1 0 ∧ len (@nil Z) = 0 / 8 ∧ 1 ≤ len [5]
  ∧ Matrix_Compress [[]] [5] [] = Panicked [5]
  ∧ ¬ ∃ dst', Matrix_Compress [[]] [5] [] = Returned dst'
              ∧ dst' !! 0%nat = Some (spec_row_sum [] []).
Proof.
  split; [split; [reflexivity|repeat constructor]|].
  split; [reflexivity|]. split; [unfold len; simpl; lia|].
  split; [reflexivity|]. intros (dst' & Hret & _). discriminate.
Qed.

(** C9. Both [Compress] methods reject a destination shorter than the
    declared output length, and a message shorter than the declared input
    length, by failing at once: the outcome is a panic that leaves the
    destination as it was passed. *)
Theorem Compress_rejects_short_buffers (A : Matrix) (At : LookupTable) dst msg :
  (∀ N L, Matrix_OutputLen A = Some N → Matrix_InputLen A = Some L →
          len dst < N ∨ len msg < L →
          Matrix_Compress A dst msg = Panicked dst)
  ∧ (∀ N L, LookupTable_OutputLen At = Some N → LookupTable_InputLen At = Some L →
            len dst < N ∨ len msg < L →
            LookupTable_Compress At dst msg = Panicked dst).
Proof.
  split; intros N L HN HL Hshort.
  - unfold Matrix_OutputLen, Matrix_InputLen, Matrix_Compress in *.
    destruct (A !! 0%nat) as [A0|]; [|done]. simpl in HL.
    injection HN as <-. injection HL as <-.
    destruct Hshort as [Hd|Hm].
    + rewrite (index_None dst) by lia. now destruct (index msg _).
    + now rewrite (index_None msg) by lia.
  - unfold LookupTable_OutputLen, LookupTable_InputLen, LookupTable_Compress in *.
    destruct (At !! 0%nat) as [A0|]; [|done]. simpl in HL.
    injection HN as <-. injection HL as <-.
    destruct Hshort as [Hd|Hm].
    + rewrite (index_None dst) by lia. now destruct (index msg _).
    + now rewrite (index_None msg) by lia.
Qed.

Lemma Compress_rejects_short_buffers_witness :
  let A := [[1; 2; 3; 4; 5; 6; 7; 8]; [10; 20; 30; 40; 50; 60; 70; 80]] in
  Matrix_Compress A [7] [0xC1] = Panicked [7]
  ∧ Matrix_Compress A [7; 7] [] = Panicked [7; 7]
  ∧ ∃ At, Matrix_LookupTable A = Some At
          ∧ LookupTable_Compress At [7] [0xC1] = Panicked [7]
          ∧ LookupTable_Compress At [7; 7] [] = Panicked [7; 7].
Proof.
  intros A. split; [|split].
  - apply (proj1 (Compress_rejects_short_buffers A [] [7] [0xC1]) 2 1);
      [reflexivity|reflexivity|left; unfold len; simpl; lia].
  - apply (proj1 (Compress_rejects_short_buffers A [] [7; 7] []) 2 1);
      [reflexivity|reflexivity|right; unfold len; simpl; lia].
  - destruct (Matrix_LookupTable A) as [At|] eqn:HAt;
      [|vm_compute in HAt; discriminate].
    assert (HN : LookupTable_OutputLen At = Some 2)
      by (vm_compute in HAt; injection HAt as <-; reflexivity).
    assert (HL : LookupTable_InputLen At = Some 1)
      by (vm_compute in HAt; injection HAt as <-; reflexivity).
    exists At. split; [reflexivity|]. split.
    + apply (proj2 (Compress_rejects_short_buffers A At [7] [0xC1]) 2 1);
        [exact HN|exact HL|left; unfold len; simpl; lia].
    + apply (proj2 (Compress_rejects_short_buffers A At [7; 7] []) 2 1);
        [exact HN|exact HL|right; unfold len; simpl; lia].
Defined.

(** ** Building the compression input *)

Lemma length_le_bytes w : length (le_bytes w) = 8%nat.
Proof. reflexivity. Qed.

Lemma length_chain_bytes h : length (chain_bytes h) = (8 * length h)%nat.
Proof.
  induction h as [|w h IH]; [done|].
  cbn [chain_bytes length]. rewrite length_app, length_le_bytes, IH. lia.
Qed.

Lemma PutUint64_spec buf off v :
  (off + 8 ≤ length buf)%nat →
  PutUint64 buf (Z.of_nat off) v
  = Some (take off buf ++ le_bytes v ++ drop (off + 8) buf).
Proof.
  intros H. unfold PutUint64. rewrite slice_Some by (unfold len; lia).
  cbn [mbind option_bind]. now rewrite Nat2Z.id.
Qed.

Lemma put_words_spec h : ∀ buf j,
  (8 * (j + length h) ≤ length buf)%nat →
  put_words buf j h
  = Some (take (8 * j) buf ++ chain_bytes h ++ drop (8 * (j + length h)) buf).
Proof.
  induction h as [|w h IH]; intros buf j Hlen; cbn [put_words length] in *.
  - cbn [chain_bytes]. now rewrite Nat.add_0_r, app_nil_l, take_drop.
  - replace (8 * Z.of_nat j) with (Z.of_nat (8 * j)) by lia.
    rewrite PutUint64_spec by lia. cbn [mbind option_bind].
    rewrite IH by (rewrite !length_app, length_take, (length_le_bytes w), length_drop; lia).
    f_equal.
    replace (8 * S j)%nat with (8 * j + 8)%nat by lia.
    rewrite take_app_ge by (rewrite length_take; lia).
    rewrite length_take, Nat.min_l by lia.
    replace (8 * j + 8 - 8 * j)%nat with 8%nat by lia.
    rewrite (take_app_length' (le_bytes w)) by reflexivity.
    rewrite drop_app_ge by (rewrite length_take; lia).
    rewrite length_take, Nat.min_l by lia.
    rewrite drop_app_ge by (rewrite (length_le_bytes w); lia).
    rewrite (length_le_bytes w), drop_drop.
    cbn [chain_bytes]. rewrite <- !app_assoc. do 4 f_equal. lia.
Qed.

(** ** [blocks] runs the chain over the whole blocks of its data *)

Lemma div_step (b r : nat) :
  (0 < b)%nat → (b ≤ r)%nat → (r / b = S ((r - b) / b))%nat.
Proof.
  intros Hb Hr. replace r with (1 * b + (r - b))%nat at 1 by lia.
  rewrite Nat.div_add_l by lia. lia.
Qed.

Lemma set_h_id d : set_h d (d_h d) (d_calls d) = d.
Proof. now destruct d. Qed.

Lemma copy_slice_all {A} (pre old src : list A) :
  length old = length src →
  (copy_slice (pre ++ old) (length pre) (length pre + length src) src).1
  = pre ++ src.
Proof.
  intros Hlen. unfold copy_slice. cbn [fst].
  replace (length pre + length src - length pre)%nat with (length src) by lia.
  rewrite Nat.min_id, take_app_length, firstn_all.
  rewrite drop_app_ge by lia.
  rewrite drop_ge by lia. now rewrite app_nil_r.
Qed.

(** One turn of the loop hands [chain_input] to the compressor. *)
Lemma blocks_loop_spec data : ∀ fuel d msg (k : nat),
  0 < d_blockSize d → d_size d = 8 * len (d_h d) →
  len msg = d_size d + d_blockSize d →
  (k ≤ length data)%nat →
  ((length data - k) / Z.to_nat (d_blockSize d) < fuel)%nat →
  blocks_loop fuel d data msg (Z.of_nat k)
  = ('(h', ms) ← run_blocks (d_c d) (Z.to_nat (d_blockSize d))
                   ((length data - k) / Z.to_nat (d_blockSize d))
                   (d_h d) (drop k data);
     Some (set_h d h' (d_calls d ++ ms))).
Proof.
  induction fuel as [|fuel IH]; intros d msg k HB Hsize Hmsg Hk Hfuel; [lia|].
  set (b := Z.to_nat (d_blockSize d)) in *.
  assert (Hb : d_blockSize d = Z.of_nat b) by lia.
  cbn [blocks_loop]. unfold len in *.
  destruct (decide (Z.of_nat k ≤ Z.of_nat (length data) - d_blockSize d)) as [Hc|Hc].
  - rewrite (div_step b (length data - k)) by lia. cbn [run_blocks].
    rewrite put_words_spec by lia. cbn [mbind option_bind].
    rewrite take_0, app_nil_l, Nat.add_0_l.
    set (old := drop (8 * length (d_h d)) msg).
    assert (Hold : length old = b) by (unfold old; rewrite length_drop; lia).
    rewrite !slice_Some
      by (unfold len; rewrite ?length_app, ?length_chain_bytes; lia).
    cbn [mbind option_bind].
    replace (Z.of_nat k + d_blockSize d - Z.of_nat k) with (d_blockSize d) by lia.
    rewrite Nat2Z.id. fold b.
    set (src := take b (drop k data)).
    assert (Hsrc : length src = b)
      by (unfold src; rewrite length_take, length_drop; lia).
    replace (Z.to_nat (d_size d)) with (length (chain_bytes (d_h d)))
      by (rewrite length_chain_bytes; lia).
    replace (Z.to_nat (d_size d + d_blockSize d))
      with (length (chain_bytes (d_h d)) + length src)%nat
      by (rewrite length_chain_bytes; lia).
    rewrite copy_slice_all by lia.
    fold (chain_input (d_h d) src). unfold compress_block.
    destruct (Compress (d_c d) (d_h d) (chain_input (d_h d) src))
      as [h1|] eqn:Hcomp; cbn [returned mbind option_bind]; [|done].
    apply Compress_length in Hcomp.
    replace (Z.of_nat k + d_blockSize d) with (Z.of_nat (k + b)) by lia.
    rewrite IH; cbn [set_h d_blockSize d_size d_h d_c d_calls]; fold b.
    + rewrite drop_drop.
      replace (length data - (k + b))%nat with (length data - k - b)%nat by lia.
      destruct (run_blocks _ _ _ _ _) as [[h2 ms]|]; cbn [mbind option_bind]; [|done].
      unfold set_h. cbn. now rewrite <- app_assoc.
    + lia.
    + rewrite Hcomp. lia.
    + unfold chain_input. rewrite length_app, length_chain_bytes. lia.
    + lia.
    + rewrite (div_step b (length data - k)) in Hfuel by lia.
      replace (length data - (k + b))%nat with (length data - k - b)%nat by lia.
      lia.
  - rewrite Nat.div_small by lia. cbn [run_blocks mbind option_bind].
    now rewrite app_nil_r, set_h_id.
Qed.

Lemma blocks_spec d data :
  0 < d_blockSize d → d_size d = 8 * len (d_h d) →
  InputLen (d_c d) = Some (d_size d + d_blockSize d) →
  blocks d data
  = ('(h', ms) ← run_blocks (d_c d) (Z.to_nat (d_blockSize d))
                   (length data / Z.to_nat (d_blockSize d)) (d_h d) data;
     Some (set_h d h' (d_calls d ++ ms))).
Proof.
  intros HB Hsize Hil. unfold blocks. rewrite Hil. cbn [mbind option_bind].
  unfold make. rewrite decide_True by (pose proof (len_nonneg (d_h d)); lia).
  cbn [mbind option_bind].
  change 0 with (Z.of_nat 0) at 2.
  rewrite blocks_loop_spec; auto; rewrite ?Nat.sub_0_r, ?drop_0.
  - done.
  - unfold len. rewrite length_replicate. pose proof (len_nonneg (d_h d)). lia.
  - lia.
  - apply Nat.lt_succ_r, Nat.Div0.div_le_upper_bound. nia.
Qed.

(** ** The chain over a split of the data *)

Section Chain.
Variable c : Compressor.
Variable b : nat.

Lemma run_blocks_prefix n : ∀ h data data',
  take (n * b) data = take (n * b) data' →
  run_blocks c b n h data = run_blocks c b n h data'.
Proof.
  induction n as [|n IH]; intros h data data' Heq; [done|].
  cbn [run_blocks].
  assert (Hb : take b data = take b data').
  { apply (f_equal (take b)) in Heq. rewrite !take_take in Heq.
    now replace (b `min` (S n * b))%nat with b in Heq by lia. }
  assert (Hd : take (n * b) (drop b data) = take (n * b) (drop b data')).
  { rewrite !take_drop_commute.
    replace (b + n * b)%nat with (S n * b)%nat by lia. now rewrite Heq. }
  rewrite Hb. destruct (compress_block c h (take b data')); [|done].
  cbn [mbind option_bind]. now rewrite (IH _ _ _ Hd).
Qed.

Lemma run_blocks_app_l n h data more :
  (n * b ≤ length data)%nat →
  run_blocks c b n h (data ++ more) = run_blocks c b n h data.
Proof. intros H. apply run_blocks_prefix. now rewrite take_app_le. Qed.

Lemma run_blocks_add n1 n2 : ∀ h data,
  run_blocks c b (n1 + n2) h data
  = ('(h1, ms1) ← run_blocks c b n1 h data;
     '(h2, ms2) ← run_blocks c b n2 h1 (drop (n1 * b) data);
     Some (h2, ms1 ++ ms2)).
Proof.
  induction n1 as [|n1 IH]; intros h data.
  - cbn [Nat.add run_blocks mbind option_bind Nat.mul]. rewrite drop_0.
    now destruct (run_blocks c b n2 h data) as [[h2 ms2]|].
  - cbn [Nat.add run_blocks].
    destruct (compress_block c h (take b data)) as [h1|];
      cbn [mbind option_bind]; [|done].
    rewrite IH. rewrite drop_drop.
    replace (b + n1 * b)%nat with (S n1 * b)%nat by lia.
    destruct (run_blocks c b n1 h1 (drop b data)) as [[h2 ms1]|];
      cbn [mbind option_bind]; [|done].
    now destruct (run_blocks c b n2 h2 (drop (S n1 * b) data)) as [[h3 ms2]|].
Qed.

Lemma run_blocks_length n : ∀ h data h' ms,
  run_blocks c b n h data = Some (h', ms) → length h' = length h.
Proof.
  induction n as [|n IH]; intros h data h' ms; cbn [run_blocks].
  - now intros [= <- _].
  - unfold compress_block.
    destruct (Compress c h _) as [h1|] eqn:Hc; cbn [returned mbind option_bind]; [|done].
    destruct (run_blocks c b n h1 (drop b data)) as [[h2 ms']|] eqn:Hr;
      cbn [mbind option_bind]; [|done].
    intros [= <- _]. rewrite (IH _ _ _ _ Hr). exact (Compress_length _ _ _ _ Hc).
Qed.

Lemma run_blocks_count n : ∀ h data h' ms,
  run_blocks c b n h data = Some (h', ms) → length ms = n.
Proof.
  induction n as [|n IH]; intros h data h' ms; cbn [run_blocks].
  - now intros [= _ <-].
  - destruct (compress_block c h (take b data)) as [h1|];
      cbn [mbind option_bind]; [|done].
    destruct (run_blocks c b n h1 (drop b data)) as [[h2 ms']|] eqn:Hr;
      cbn [mbind option_bind]; [|done].
    intros [= _ <-]. cbn [length]. now rewrite (IH _ _ _ _ Hr).
Qed.
End Chain.

(** ** [Write] absorbs its argument into the chain *)

Lemma set_x_id d : set_x d (d_x d) (d_nx d) = d.
Proof. now destruct d. Qed.

Lemma Write_tail_spec d rest :
  (length rest < length (d_x d))%nat → d_nx d = 0 →
  Write_tail d rest
  = set_x d (rest ++ drop (length rest) (d_x d)) (len rest).
Proof.
  intros Hlen Hnx. unfold Write_tail, len.
  destruct rest as [|r rest'] eqn:E.
  - cbn [length app drop]. rewrite decide_False by lia.
    change (Z.of_nat 0) with 0. rewrite <- Hnx. now rewrite set_x_id.
  - rewrite <- E in *. rewrite decide_True by (rewrite E; cbn; lia).
    unfold copy_slice. rewrite Nat.sub_0_r, Nat.min_r by lia.
    now rewrite take_0, firstn_all, app_nil_l, Nat.add_0_l.
Qed.

Lemma quot_blocks (n b : nat) :
  (0 < b)%nat →
  Z.quot (Z.of_nat n) (Z.of_nat b) * Z.of_nat b = Z.of_nat (n / b * b).
Proof.
  intros Hb. rewrite Z.quot_div_nonneg by lia.
  now rewrite <- Nat2Z.inj_div, <- Nat2Z.inj_mul.
Qed.

(** With an empty carry buffer: compress the whole blocks of [p], carry
    the rest. *)
Lemma Write_aligned d p :
  wf d → d_nx d = 0 →
  let b := Z.to_nat (d_blockSize d) in
  let rest := drop (length p / b * b) p in
  ('(d2, p2) ← Write_blocks d p; Some (Write_tail d2 p2))
  = ('(h', ms) ← run_blocks (d_c d) b (length p / b) (d_h d) p;
     Some (set_x (set_h d h' (d_calls d ++ ms))
             (rest ++ drop (length rest) (d_x d)) (len rest))).
Proof.
  intros Hwf Hnx b rest. destruct Hwf as [HB Hsize Hil _ Hx _ _].
  assert (Hb : d_blockSize d = Z.of_nat b) by (unfold b; lia).
  assert (Hb0 : (0 < b)%nat) by lia.
  assert (Hrest : (length rest < b)%nat).
  { unfold rest. rewrite length_drop.
    pose proof (Nat.div_mod_eq (length p) b).
    pose proof (Nat.mod_upper_bound (length p) b). lia. }
  unfold Write_blocks, len in *.
  destruct (decide (d_blockSize d ≤ Z.of_nat (length p))) as [Hge|Hlt].
  - rewrite decide_False by lia.
    rewrite !Hb, !quot_blocks by lia.
    pose proof (Nat.Div0.mul_div_le (length p) b) as Hle.
    rewrite !slice_Some by (unfold len; lia).
    cbn [mbind option_bind].
    rewrite Z.sub_0_r, !Nat2Z.id, drop_0.
    rewrite blocks_spec by auto. fold b.
    rewrite length_take, Nat.min_l by lia.
    rewrite Nat.div_mul by lia.
    rewrite (run_blocks_prefix _ _ _ _ (take (length p / b * b) p) p)
      by (rewrite take_take; f_equal; lia).
    destruct (run_blocks (d_c d) b (length p / b) (d_h d) p) as [[h' ms]|];
      cbn [mbind option_bind]; [|done].
    rewrite take_ge by (rewrite length_drop; lia).
    fold rest. rewrite Write_tail_spec; cbn [set_h d_x d_nx]; auto; lia.
  - rewrite Nat.div_small by lia.
    cbn [run_blocks mbind option_bind].
    rewrite app_nil_r, set_h_id.
    unfold rest in *. rewrite Nat.div_small in * by lia.
    cbn [Nat.mul] in *. rewrite drop_0 in *.
    rewrite Write_tail_spec; auto; lia.
Qed.

Ltac simpl_d :=
  cbn [set_x set_h set_len d_c d_size d_blockSize d_h d_x d_nx d_len d_calls].

(** The state every path of [Write] ends in, and what it looks like. *)
Lemma Write_final d h' calls' rest x0 L :
  wf d → length h' = length (d_h d) → len x0 = d_blockSize d →
  len rest < d_blockSize d → 0 ≤ L < 2 ^ 64 →
  let d' := {| d_c := d_c d; d_size := d_size d; d_blockSize := d_blockSize d;
               d_h := h'; d_x := rest ++ drop (length rest) x0;
               d_nx := len rest; d_len := L; d_calls := calls' |} in
  wf d' ∧ same_config d d' ∧ view_of d' = View h' rest L ∧ d_calls d' = calls'.
Proof.
  intros [HB Hsize Hil Hol Hx Hnx Hlen] Hh Hx0 Hrest HL d'. unfold len in *.
  split; [|split; [|split]].
  - split; cbn; unfold len; rewrite ?Hh; auto; try lia.
    rewrite length_app, length_drop. lia.
  - done.
  - unfold view_of. cbn. f_equal. rewrite Nat2Z.id. apply take_app_length.
  - done.
Qed.

Lemma Write_spec d p :
  wf d →
  match Write d p, absorb (d_c d) (Z.to_nat (d_blockSize d)) (view_of d) p with
  | Some d', Some (v', ms) =>
      wf d' ∧ same_config d d' ∧ view_of d' = v' ∧ d_calls d' = d_calls d ++ ms
  | None, None => True
  | _, _ => False
  end.
Proof.
  intros Hwf. pose proof Hwf as [HB Hsize Hil Hol Hx Hnx Hlen].
  set (b := Z.to_nat (d_blockSize d)).
  set (m := Z.to_nat (d_nx d)).
  assert (Hb : d_blockSize d = Z.of_nat b) by (unfold b; lia).
  assert (Hm : d_nx d = Z.of_nat m) by (unfold m; lia).
  assert (Hxb : length (d_x d) = b) by (unfold len in Hx; lia).
  set (L := uint64 (d_len d + len p)).
  assert (HL : 0 ≤ L < 2 ^ 64) by apply uint64_range.
  assert (Hwf0 : wf (set_len d L)) by (split; cbn; auto).
  unfold Write, absorb, view_of, Write_fill.
  cbn [v_h v_buf v_len d_nx set_len d_x d_blockSize]. fold L m b.
  set (buf := take m (d_x d)).
  assert (Hbuf : length buf = m) by (unfold buf; rewrite length_take; lia).
  destruct (decide (0 < d_nx d)) as [Hpos|Hzero].
  - (* a partial carry buffer *)
    rewrite slice_Some by (unfold len; lia). cbn [mbind option_bind].
    unfold copy_slice. fold buf. rewrite !Hxb.
    destruct (decide (length p < b - m)%nat) as [Hshort|Hfill].
    + (* the buffer does not fill *)
      rewrite Nat.min_r by lia. simpl_d.
      rewrite decide_False by lia. cbn [mbind option_bind].
      rewrite slice_Some by (unfold len; lia). cbn [mbind option_bind].
      rewrite Z.sub_diag, take_0.
      unfold Write_blocks. simpl_d.
      rewrite decide_False by (unfold len; cbn; lia).
      cbn [mbind option_bind]. unfold Write_tail.
      rewrite decide_False by (unfold len; cbn; lia).
      rewrite Nat.div_small by (rewrite length_app; lia).
      cbn [run_blocks mbind option_bind Nat.mul]. rewrite drop_0, app_nil_r.
      rewrite firstn_all.
      pose proof (Write_final d (d_h d) (d_calls d) (buf ++ p) (d_x d) L
                    Hwf eq_refl Hx) as Hfin.
      unfold len in Hfin. rewrite length_app, Hbuf in Hfin.
      rewrite <- app_assoc in Hfin.
      replace (d_nx d + Z.of_nat (length p)) with (Z.of_nat (m + length p)) by lia.
      apply Hfin; lia.
    + (* the buffer fills: one block *)
      rewrite Nat.min_l by lia. simpl_d.
      rewrite decide_True by lia.
      set (x1 := buf ++ take (b - m) p ++ drop (m + (b - m)) (d_x d)).
      assert (Hx1 : x1 = buf ++ take (b - m) p).
      { unfold x1. rewrite (drop_ge (d_x d)) by lia. now rewrite app_nil_r. }
      assert (Hx1len : length x1 = b)
        by (rewrite Hx1, length_app, length_take; lia).
      rewrite blocks_spec by (cbn; auto).
      simpl_d. fold b.
      rewrite Hx1len, Nat.div_same by lia.
      set (p' := drop (b - m) p).
      assert (Hdata : buf ++ p = x1 ++ p').
      { rewrite Hx1, <- app_assoc. unfold p'. now rewrite take_drop. }
      rewrite Hdata.
      replace (length (x1 ++ p') / b)%nat with (1 + length p' / b)%nat
        by (rewrite length_app, Hx1len;
            replace (b + length p')%nat with (1 * b + length p')%nat by lia;
            rewrite Nat.div_add_l by lia; lia).
      rewrite run_blocks_add, (run_blocks_app_l _ _ 1) by lia.
      destruct (run_blocks (d_c d) b 1 (d_h d) x1) as [[h1 ms1]|] eqn:Hr1;
        cbn [mbind option_bind]; [|done].
      rewrite slice_Some by (unfold len; lia). cbn [mbind option_bind].
      unfold len.
      replace (Z.to_nat (Z.of_nat (length p) - Z.of_nat (b - m)))
        with (length p - (b - m))%nat by lia.
      rewrite Nat2Z.id, take_ge by (rewrite length_drop; lia). fold p'.
      set (d1 := set_x (set_h _ _ _) _ 0).
      assert (Hh1 : length h1 = length (d_h d))
        by exact (run_blocks_length _ _ _ _ _ _ _ Hr1).
      assert (Hwf1 : wf d1).
      { split; cbn; unfold len in *; rewrite ?Hh1; auto; lia. }
      pose proof (Write_aligned d1 p' Hwf1 eq_refl) as Hal.
      cbn zeta in Hal. rewrite Hal. clear Hal.
      unfold d1. simpl_d. fold b.
      rewrite Nat.mul_1_l. rewrite (drop_app_length' x1 p' b) by lia.
      destruct (run_blocks (d_c d) b (length p' / b) h1 p') as [[h2 ms2]|] eqn:Hr2;
        cbn [mbind option_bind]; [|done].
      set (rest := drop (length p' / b * b) p').
      assert (Hrest : (length rest < b)%nat).
      { unfold rest. rewrite length_drop.
        pose proof (Nat.div_mod_eq (length p') b).
        pose proof (Nat.mod_upper_bound (length p') b). lia. }
      replace (drop ((1 + length p' / b) * b) (x1 ++ p')) with rest
        by (unfold rest; rewrite drop_app_ge by lia; f_equal; lia).
      assert (Hh2 : length h2 = length (d_h d))
        by (rewrite (run_blocks_length _ _ _ _ _ _ _ Hr2); exact Hh1).
      pose proof (Write_final d h2 ((d_calls d ++ ms1) ++ ms2) rest x1 L Hwf Hh2)
        as Hfin.
      cbn zeta in Hfin. unfold len in Hfin.
      destruct Hfin as (W1 & W2 & W3 & W4); try lia.
      split; [exact W1|]. split; [exact W2|]. split; [exact W3|].
      cbn. now rewrite <- app_assoc.
  - (* an empty carry buffer *)
    cbn [mbind option_bind].
    assert (Hm0 : m = 0%nat) by lia.
    pose proof (Write_aligned (set_len d L) p Hwf0) as Hal.
    cbn zeta in Hal. rewrite Hal by (cbn; lia). clear Hal.
    simpl_d. fold b.
    assert (Hbuf0 : buf = []) by (unfold buf; rewrite Hm0; apply take_0).
    rewrite Hbuf0, app_nil_l.
    destruct (run_blocks (d_c d) b (length p / b) (d_h d) p) as [[h' ms]|] eqn:Hr;
      cbn [mbind option_bind]; [|done].
    set (rest := drop (length p / b * b) p).
    assert (Hrest : (length rest < b)%nat).
    { unfold rest. rewrite length_drop.
      pose proof (Nat.div_mod_eq (length p) b).
      pose proof (Nat.mod_upper_bound (length p) b). lia. }
    apply (Write_final d h' (d_calls d ++ ms) rest (d_x d) L Hwf); auto.
    + exact (run_blocks_length _ _ _ _ _ _ _ Hr).
    + unfold len. lia.
Qed.

(** ** A sequence of writes absorbs the concatenation *)

Lemma absorb_nil c b v :
  (length (v_buf v) < b)%nat → 0 ≤ v_len v < 2 ^ 64 →
  absorb c b v [] = Some (v, []).
Proof.
  intros Hbuf Hlen. unfold absorb. rewrite app_nil_r.
  rewrite Nat.div_small by lia. cbn [run_blocks mbind option_bind Nat.mul].
  rewrite drop_0. unfold len. cbn [length]. change (Z.of_nat 0) with 0.
  rewrite Z.add_0_r, uint64_small by lia. now destruct v.
Qed.

Lemma absorb_app c b v p q :
  (0 < b)%nat →
  absorb c b v (p ++ q)
  = ('(v1, ms1) ← absorb c b v p;
     '(v2, ms2) ← absorb c b v1 q;
     Some (v2, ms1 ++ ms2)).
Proof.
  intros Hb. unfold absorb.
  set (data1 := v_buf v ++ p).
  set (n1 := (length data1 / b)%nat).
  set (rest1 := drop (n1 * b) data1).
  assert (Hn1 : (n1 * b ≤ length data1)%nat)
    by (unfold n1; pose proof (Nat.Div0.mul_div_le (length data1) b); lia).
  assert (Hrest1 : (length rest1 < b)%nat).
  { unfold rest1. rewrite length_drop.
    pose proof (Nat.div_mod_eq (length data1) b).
    pose proof (Nat.mod_upper_bound (length data1) b). fold n1 in H. lia. }
  replace (v_buf v ++ p ++ q) with (data1 ++ q)
    by (unfold data1; now rewrite <- app_assoc).
  set (n2 := (length (rest1 ++ q) / b)%nat).
  assert (Hn : (length (data1 ++ q) / b = n1 + n2)%nat).
  { unfold n2. rewrite !length_app.
    replace (length data1 + length q)%nat
      with (n1 * b + (length rest1 + length q))%nat
      by (unfold rest1; rewrite length_drop; lia).
    now rewrite Nat.div_add_l by lia. }
  rewrite Hn, run_blocks_add, run_blocks_app_l by exact Hn1.
  destruct (run_blocks c b n1 (v_h v) data1) as [[h1 ms1]|];
    cbn [mbind option_bind v_h v_buf v_len]; [|done].
  rewrite (drop_app_le data1 q (n1 * b)) by lia. fold rest1. fold n2.
  destruct (run_blocks c b n2 h1 (rest1 ++ q)) as [[h2 ms2]|];
    cbn [mbind option_bind]; [|done].
  f_equal. f_equal. f_equal.
  - rewrite Nat.mul_add_distr_r, <- drop_drop.
    f_equal. now rewrite (drop_app_le data1 q (n1 * b)) by lia.
  - unfold len. rewrite length_app, uint64_add_l. f_equal. lia.
Qed.

Lemma wf_buf d : wf d → length (v_buf (view_of d)) = Z.to_nat (d_nx d).
Proof.
  intros [_ _ _ _ Hx Hnx _]. unfold view_of, len in *. cbn.
  rewrite length_take. lia.
Qed.

Lemma Writes_spec chunks : ∀ d,
  wf d →
  match Writes d chunks,
        absorb (d_c d) (Z.to_nat (d_blockSize d)) (view_of d) (concat chunks) with
  | Some d', Some (v', ms) =>
      wf d' ∧ same_config d d' ∧ view_of d' = v' ∧ d_calls d' = d_calls d ++ ms
  | None, None => True
  | _, _ => False
  end.
Proof.
  induction chunks as [|p chunks IH]; intros d Hwf; cbn [Writes concat].
  - rewrite absorb_nil.
    + now rewrite app_nil_r.
    + rewrite wf_buf by done. destruct Hwf. lia.
    + now destruct Hwf.
  - rewrite absorb_app by (destruct Hwf; lia).
    pose proof (Write_spec d p Hwf) as Hp.
    destruct (Write d p) as [d1|], (absorb _ _ _ p) as [[v1 ms1]|];
      cbn [mbind option_bind]; try done.
    destruct Hp as (Hwf1 & (Hc & Hs & HB) & <- & Hcalls).
    specialize (IH d1 Hwf1). rewrite Hc, HB in IH.
    destruct (Writes d1 chunks) as [d2|], (absorb _ _ _ (concat chunks)) as [[v2 ms2]|];
      cbn [mbind option_bind]; try done.
    destruct IH as (Hwf2 & (Hc2 & Hs2 & HB2) & <- & Hcalls2).
    split; [done|]. split; [split; [|split]; congruence|]. split; [done|].
    now rewrite Hcalls2, Hcalls, app_assoc.
Qed.

(** ** Construction, reset and copy *)

Lemma fmap_const_replicate {A B} (z : B) (l : list A) :
  (fun _ => z) <$> l = replicate (length l) z.
Proof. induction l as [|a l IH]; [done|]. cbn. now f_equal. Qed.

Lemma New_spec c il ol :
  InputLen c = Some il → OutputLen c = Some ol → 0 ≤ ol → 0 ≤ il - ol * 8 →
  New c = Some {| d_c := c; d_size := ol * 8; d_blockSize := il - ol * 8;
                  d_h := replicate (Z.to_nat ol) 0;
                  d_x := replicate (Z.to_nat (il - ol * 8)) 0;
                  d_nx := 0; d_len := 0; d_calls := [] |}.
Proof.
  intros Hil Hol Hol0 HB. unfold New, make. rewrite Hil, Hol.
  cbn [mbind option_bind]. rewrite !decide_True by lia.
  cbn [mbind option_bind]. unfold Reset. cbn.
  now rewrite fmap_const_replicate, length_replicate.
Qed.

Lemma New_None c il ol :
  InputLen c = Some il → OutputLen c = Some ol → ol < 0 → New c = None.
Proof.
  intros Hil Hol Hneg. unfold New, make. rewrite Hil, Hol.
  cbn [mbind option_bind].
  destruct (decide (0 ≤ il - ol * 8)); cbn [mbind option_bind]; [|done].
  now rewrite decide_False by lia.
Qed.

Lemma New_wf c il ol d :
  InputLen c = Some il → OutputLen c = Some ol → 0 < il - 8 * ol →
  New c = Some d → wf d ∧ d_c d = c ∧ d_blockSize d = il - 8 * ol
                  ∧ d_size d = 8 * ol ∧ view_of d = View (replicate (Z.to_nat ol) 0) [] 0
                  ∧ d_calls d = [].
Proof.
  intros Hil Hol HB Hnew.
  destruct (decide (0 ≤ ol)) as [Hol0|Hneg];
    [|rewrite (New_None c il ol) in Hnew by (auto; lia); discriminate].
  rewrite (New_spec c il ol) in Hnew by (auto; lia).
  injection Hnew as <-. unfold view_of. cbn.
  repeat split; cbn; unfold len; rewrite ?length_replicate; auto; try lia.
  - rewrite Hil. f_equal. lia.
  - rewrite Hol. f_equal. lia.
Qed.

Lemma Reset_wf d : wf d → wf (Reset d).
Proof.
  intros [HB Hsize Hil Hol Hx Hnx Hlen].
  split; cbn; unfold len in *; rewrite ?length_fmap; auto; lia.
Qed.

Lemma copy_slice_fresh {A} (z : A) (s : list A) :
  (copy_slice (replicate (length s) z) 0 (length s) s).1 = s.
Proof.
  unfold copy_slice. cbn [fst].
  rewrite Nat.sub_0_r, Nat.min_id, take_0, firstn_all, Nat.add_0_l.
  rewrite drop_ge by (rewrite length_replicate; lia).
  now rewrite app_nil_r.
Qed.

(** The copy has the contents of the original. *)
Lemma copy_id d : copy d = d.
Proof. unfold copy. rewrite !copy_slice_fresh. now destruct d. Qed.

(** ** What follows depends on the view only *)

Lemma similar_refl d : wf d → similar d d.
Proof. intros H. split; [done|]. split; [done|]. now split. Qed.

Lemma similar_nx d1 d2 : similar d1 d2 → d_nx d1 = d_nx d2.
Proof.
  intros (Hwf1 & Hwf2 & _ & Hv).
  pose proof (wf_buf d1 Hwf1) as H1. pose proof (wf_buf d2 Hwf2) as H2.
  rewrite Hv in H1. destruct Hwf1, Hwf2. lia.
Qed.

Lemma Write_similar d1 d2 p :
  similar d1 d2 → option_similar (Write d1 p) (Write d2 p).
Proof.
  intros (Hwf1 & Hwf2 & (Hc & Hs & HB) & Hv).
  pose proof (Write_spec d1 p Hwf1) as H1.
  pose proof (Write_spec d2 p Hwf2) as H2.
  rewrite Hc, HB, <- Hv in H2.
  destruct (Write d1 p) as [d1'|], (Write d2 p) as [d2'|],
    (absorb (d_c d1) (Z.to_nat (d_blockSize d1)) (view_of d1) p) as [[v ms]|];
    cbn; try done.
  destruct H1 as (W1 & (Hc1 & Hs1 & HB1) & Hv1 & _).
  destruct H2 as (W2 & (Hc2 & Hs2 & HB2) & Hv2 & _).
  split; [done|]. split; [done|].
  split; [split; [|split]; congruence|]. congruence.
Qed.

Lemma padding_similar d1 d2 :
  similar d1 d2 → option_similar (padding d1) (padding d2).
Proof.
  intros Hsim. pose proof Hsim as (Hwf1 & Hwf2 & (Hc & Hs & HB) & Hv).
  assert (Hlen : d_len d2 = d_len d1)
    by (apply (f_equal v_len) in Hv; cbn in Hv; congruence).
  unfold padding. rewrite HB, Hlen.
  destruct (make 0 (uint64 (d_blockSize d1))) as [tmp|]; cbn [mbind option_bind]; [|done].
  destruct (index tmp 0); cbn [mbind option_bind]; [|done].
  destruct (decide (uint64 (d_blockSize d1) = 0)); [done|].
  match goal with |- context [(if ?cnd then ?a else ?b) ≫= _] =>
    destruct (if cnd then a else b) as [pad|]; cbn [mbind option_bind]; [|done] end.
  pose proof (Write_similar d1 d2 pad Hsim) as Hw.
  destruct (Write d1 pad) as [d1'|], (Write d2 pad) as [d2'|];
    cbn [mbind option_bind option_similar] in *; try done.
  assert (Hlen' : d_len d2' = d_len d1').
  { destruct Hw as (_ & _ & _ & Hv'). apply (f_equal v_len) in Hv'. cbn in Hv'. congruence. }
  rewrite Hlen'.
  destruct (PutUint64 _ 0 _) as [tmp'|]; cbn [mbind option_bind]; [|done].
  destruct (slice tmp' 0 8) as [lf|]; cbn [mbind option_bind]; [|done].
  now apply Write_similar.
Qed.

Lemma Sum_similar d1 d2 in_ : similar d1 d2 → Sum d1 in_ = Sum d2 in_.
Proof.
  intros Hsim. unfold Sum, checkSum. rewrite !copy_id.
  pose proof (padding_similar d1 d2 Hsim) as Hp.
  destruct (padding d1) as [d1'|], (padding d2) as [d2'|];
    cbn [mbind option_bind option_similar] in *; try done.
  rewrite (similar_nx _ _ Hp).
  destruct Hp as (_ & _ & (_ & Hs & _) & Hv).
  assert (Hh : d_h d2' = d_h d1')
    by (apply (f_equal v_h) in Hv; cbn in Hv; congruence).
  rewrite Hs, Hh. destruct (decide (d_nx d2' ≠ 0)); [done|].
  destruct (make 0 (d_size d1')) as [digest0|]; cbn [mbind option_bind]; [|done].
  now destruct (put_words digest0 0 (d_h d1')).
Qed.

(** ** Properties of the streaming digest *)

Section PositiveBlockSize.
Context (c : Compressor) (il ol : Z).
Hypothesis c_InputLen : InputLen c = Some il.
Hypothesis c_OutputLen : OutputLen c = Some ol.
Hypothesis c_blockSize : 0 < il - 8 * ol.

(** Two splits of the same message hash alike. *)
Lemma hash_chunks_concat chunks chunks' in_ :
  concat chunks = concat chunks' →
  hash_chunks c chunks in_ = hash_chunks c chunks' in_.
Proof.
  intros Hsame. unfold hash_chunks.
  destruct (New c) as [d|] eqn:Hnew; cbn [mbind option_bind]; [|done].
  destruct (New_wf c il ol d c_InputLen c_OutputLen c_blockSize Hnew) as (Hwf & _).
  pose proof (Writes_spec chunks d Hwf) as H1.
  pose proof (Writes_spec chunks' d Hwf) as H2.
  rewrite <- Hsame in H2.
  destruct (Writes d chunks) as [d1|], (Writes d chunks') as [d2|],
    (absorb _ _ _ (concat chunks)) as [[v ms]|];
    cbn [mbind option_bind]; try done.
  destruct H1 as (W1 & (Hc1 & Hs1 & HB1) & Hv1 & _).
  destruct H2 as (W2 & (Hc2 & Hs2 & HB2) & Hv2 & _).
  apply Sum_similar.
  split; [done|]. split; [done|]. split; [split; [|split]; congruence|]. congruence.
Qed.

(** C3. Over a compressor of positive block size, writing a message chunk
    by chunk and then calling [Sum] gives what writing the whole message in
    one call and then calling [Sum] gives, whatever the split. *)
Theorem hash_chunks_eq_hash_whole chunks in_ :
  hash_chunks c chunks in_ = hash_chunks c [concat chunks] in_.
Proof.
  apply hash_chunks_concat. cbn [concat]. now rewrite app_nil_r.
Qed.

(** C6. Over a compressor of positive block size, once [Write(X)] has
    returned, [Reset] followed by [Write(Y)] and [Sum] gives what a fresh
    digest gives after [Write(Y)] and [Sum]. *)
Theorem Reset_then_hash_eq_fresh X Y in_ d0 d1 :
  New c = Some d0 → Write d0 X = Some d1 →
  (d2 ← Write (Reset d1) Y; Sum d2 in_) = (d2 ← Write d0 Y; Sum d2 in_).
Proof.
  intros Hnew HX.
  destruct (New_wf c il ol d0 c_InputLen c_OutputLen c_blockSize Hnew)
    as (Hwf0 & Hc0 & HB0 & Hs0 & Hv0 & _).
  pose proof (Write_spec d0 X Hwf0) as HW. rewrite HX in HW.
  destruct (absorb _ _ _ X) as [[v ms]|]; [|done].
  destruct HW as (Hwf1 & (Hc1 & Hs1 & HB1) & _ & _).
  assert (Hsim : similar (Reset d1) d0).
  { split; [now apply Reset_wf|]. split; [done|].
    split; [split; [|split]; cbn; congruence|].
    rewrite Hv0. unfold view_of. cbn. rewrite take_0, fmap_const_replicate.
    do 2 f_equal. destruct Hwf1 as [_ _ _ Hol1 _ _ _].
    rewrite Hc1, Hc0, c_OutputLen in Hol1. injection Hol1 as ->. unfold len. lia. }
  pose proof (Write_similar _ _ Y Hsim) as HY.
  destruct (Write (Reset d1) Y) as [d2|], (Write d0 Y) as [d2'|];
    cbn [mbind option_bind option_similar] in *; try done.
  now apply Sum_similar.
Qed.

(** The invariant holds in every state a caller can reach. *)
Lemma reachable_wf d : reachable c d → wf d ∧ d_blockSize d = il - 8 * ol.
Proof.
  intros Hreach.
  induction Hreach as [d Hnew|d _ [IHwf IHB]|d p d' _ [IHwf IHB] Hw].
  - destruct (New_wf c il ol d c_InputLen c_OutputLen c_blockSize Hnew)
      as (Hwf & _ & HBd & _). done.
  - split; [now apply Reset_wf|exact IHB].
  - pose proof (Write_spec d p IHwf) as HW. rewrite Hw in HW.
    destruct (absorb _ _ _ p) as [[v ms]|]; [|done].
    destruct HW as (Hwf' & (_ & _ & HB') & _). split; [done|congruence].
Qed.

(** C10. Over a compressor of positive block size [B], the count of carried
    bytes stays in [0, B) after [New], after [Reset] and after every [Write]
    that returns. *)
Theorem carried_count_below_blockSize d :
  reachable c d → 0 ≤ d_nx d < il - 8 * ol.
Proof.
  intros Hreach.
  destruct (reachable_wf d Hreach) as [[_ _ _ _ _ Hnx _] HBd]. lia.
Qed.

End PositiveBlockSize.

Lemma New_A_1x128 : New (Matrix_Compressor A_1x128) = Some d_fresh.
Proof. reflexivity. Qed.

Lemma Write_nine : Write d_fresh [1; 2; 3; 4; 5; 6; 7; 8; 9] = Some d_nine.
Proof. reflexivity. Qed.

Lemma hash_chunks_eq_hash_whole_witness :
  let chunks := [[1; 2; 3; 4; 5; 6; 7; 8; 9; 10; 11]; []; [12; 13; 14; 15; 16; 17; 18; 19; 20]] in
  hash_chunks (Matrix_Compressor A_1x128) chunks [9]
  = hash_chunks (Matrix_Compressor A_1x128) [concat chunks] [9]
  ∧ hash_chunks (Matrix_Compressor A_1x128) chunks [9]
    = Some [9; 190; 0; 0; 0; 0; 0; 0; 0].
Proof.
  intros chunks. split.
  - apply (hash_chunks_eq_hash_whole _ 16 1); [reflexivity|reflexivity|lia].
  - vm_compute. reflexivity.
Defined.

Lemma Reset_then_hash_eq_fresh_witness :
  (d2 ← Write (Reset d_nine) [4; 5]; Sum d2 [])
  = (d2 ← Write d_fresh [4; 5]; Sum d2 [])
  ∧ (d2 ← Write (Reset d_nine) [4; 5]; Sum d2 []) = Some [103; 0; 0; 0; 0; 0; 0; 0].
Proof.
  split.
  - apply (Reset_then_hash_eq_fresh (Matrix_Compressor A_1x128) 16 1
             eq_refl eq_refl ltac:(lia) [1; 2; 3; 4; 5; 6; 7; 8; 9]);
      [exact New_A_1x128|exact Write_nine].
  - vm_compute. reflexivity.
Defined.

Lemma carried_count_below_blockSize_witness :
  reachable (Matrix_Compressor A_1x128) d_nine ∧ 0 ≤ d_nx d_nine < 16 - 8 * 1.
Proof.
  assert (Hr : reachable (Matrix_Compressor A_1x128) d_nine).
  { eapply reach_Write; [apply reach_New; exact New_A_1x128|exact Write_nine]. }
  split; [exact Hr|].
  apply (carried_count_below_blockSize (Matrix_Compressor A_1x128) 16 1);
    [reflexivity|reflexivity|lia|exact Hr].
Defined.

(** ** Counting bytes *)

Lemma run_blocks_returns c b il ol n : ∀ h data,
  returns_on c il ol → il = 8 * ol + Z.of_nat b →
  len h = ol → (n * b ≤ length data)%nat →
  ∃ h' ms, run_blocks c b n h data = Some (h', ms).
Proof.
  induction n as [|n IH]; intros h data Hret Hil Hh Hdata; cbn [run_blocks].
  - now exists h, [].
  - unfold compress_block.
    destruct (Hret h (chain_input h (take b data))) as [h1 Hc]; [done| |].
    { unfold chain_input, len in *.
      rewrite length_app, length_chain_bytes, length_take. lia. }
    rewrite Hc. cbn [returned mbind option_bind].
    destruct (IH h1 (drop b data)) as (h2 & ms & Hr); auto.
    + unfold len in *. rewrite (Compress_length _ _ _ _ Hc). lia.
    + rewrite length_drop. lia.
    + rewrite Hr. cbn [mbind option_bind]. eauto.
Qed.

(** What one [Write] does to the counters. *)
Lemma Write_counts d p d' :
  wf d → Write d p = Some d' →
  wf d' ∧ same_config d d'
  ∧ d_nx d' = (d_nx d + len p) mod d_blockSize d
  ∧ d_len d' = uint64 (d_len d + len p).
Proof.
  intros Hwf HW. pose proof (Write_spec d p Hwf) as HS. rewrite HW in HS.
  unfold absorb in HS.
  destruct (run_blocks _ _ _ _ _) as [[h' ms]|]; cbn [mbind option_bind] in HS; [|done].
  destruct HS as (Hwf' & Hcfg & Hv & _).
  split; [done|]. split; [done|].
  pose proof (wf_buf d Hwf) as Hbuf. pose proof (wf_buf d' Hwf') as Hbuf'.
  rewrite Hv in Hbuf'. cbn [v_buf] in Hbuf'.
  destruct Hwf as [HB _ _ _ _ Hnx _], Hwf' as [_ _ _ _ _ Hnx' _].
  set (b := Z.to_nat (d_blockSize d)) in *.
  set (data := v_buf (view_of d) ++ p) in *.
  split.
  - rewrite length_drop in Hbuf'.
    pose proof (Nat.div_mod_eq (length data) b) as Hdm.
    assert (Hmod : Z.to_nat (d_nx d') = (length data mod b)%nat) by lia.
    assert (Hdata : Z.of_nat (length data) = d_nx d + len p)
      by (unfold data, len; rewrite length_app; lia).
    rewrite <- Hdata.
    replace (d_blockSize d) with (Z.of_nat b) by (unfold b; lia).
    rewrite <- Nat2Z.inj_mod. lia.
  - apply (f_equal v_len) in Hv. exact Hv.
Qed.

Lemma Write_returns d p il ol :
  wf d → returns_on (d_c d) il ol →
  InputLen (d_c d) = Some il → OutputLen (d_c d) = Some ol →
  ∃ d', Write d p = Some d'.
Proof.
  intros Hwf Hret Hil Hol. pose proof (Write_spec d p Hwf) as HS.
  unfold absorb in HS.
  destruct Hwf as [HB Hsize Hil' Hol' _ _ _].
  rewrite Hil in Hil'. rewrite Hol in Hol'.
  injection Hil' as ->. injection Hol' as ->.
  set (b := Z.to_nat (d_blockSize d)) in *.
  set (data := v_buf (view_of d) ++ p) in *.
  destruct (run_blocks_returns (d_c d) b (d_size d + d_blockSize d) (len (d_h d))
              (length data / b) (d_h d) data) as (h' & ms & Hr); auto.
  - unfold b. lia.
  - pose proof (Nat.Div0.mul_div_le (length data) b). lia.
  - cbn [v_h view_of] in HS. rewrite Hr in HS. cbn [mbind option_bind] in HS.
    destruct (Write d p) as [d'|]; [eauto|done].
Qed.

(** ** Padding *)

(** For a block of at least eight bytes the padding is two writes: the
    marker and zeros, then the bit count of everything written so far. *)
Lemma padding_unfold d :
  wf d → 8 ≤ d_blockSize d < 2 ^ 64 →
  0 < pad_len d ≤ d_blockSize d
  ∧ (d_len d mod d_blockSize d + pad_len d) mod d_blockSize d = d_blockSize d - 8
  ∧ padding d
    = (d1 ← Write d (take (Z.to_nat (pad_len d)) (pad_buffer (d_blockSize d)));
       Write d1 (le_bytes (uint64 (Z.shiftl (d_len d1) 3)))).
Proof.
  intros Hwf HB8.
  set (B := d_blockSize d) in *.
  pose proof (Z.mod_pos_bound (d_len d) B ltac:(lia)) as Hr.
  assert (Hpl : 0 < pad_len d ≤ B)
    by (unfold pad_len; fold B; case_decide; lia).
  split; [exact Hpl|]. split.
  - unfold pad_len. fold B. case_decide.
    + replace (d_len d mod B + (B - 8 - d_len d mod B)) with (B - 8) by lia.
      apply Z.mod_small. lia.
    + replace (d_len d mod B + (B + (B - 8) - d_len d mod B))
        with (B - 8 + 1 * B) by lia.
      rewrite Z.mod_add by lia. apply Z.mod_small. lia.
  - unfold padding. fold B. rewrite (uint64_small B) by lia.
    rewrite (uint64_small (B - 8)) by lia.
    unfold make. rewrite decide_True by lia. cbn [mbind option_bind].
    destruct (index_Some (replicate (Z.to_nat B) 0) 0) as [z0 ->];
      [unfold len; rewrite length_replicate; lia|].
    cbn [mbind option_bind]. rewrite decide_False by lia.
    fold (pad_buffer B).
    assert (Hlenbuf : length (pad_buffer B) = Z.to_nat B)
      by (unfold pad_buffer; now rewrite length_insert, length_replicate).
    assert (Hpad : (if decide (d_len d mod B < B - 8)
                    then slice (pad_buffer B) 0 (uint64 (B - 8 - d_len d mod B))
                    else slice (pad_buffer B) 0 (uint64 (B + (B - 8) - d_len d mod B)))
                   = Some (take (Z.to_nat (pad_len d)) (pad_buffer B))).
    { unfold pad_len. fold B. case_decide.
      - rewrite uint64_small by lia. rewrite slice_Some by (unfold len; lia).
        now rewrite Z.sub_0_r, drop_0.
      - rewrite uint64_small by lia. rewrite slice_Some by (unfold len; lia).
        now rewrite Z.sub_0_r, drop_0. }
    rewrite Hpad. cbn [mbind option_bind].
    destruct (Write d _) as [d1|]; cbn [mbind option_bind]; [|done].
    pose proof (PutUint64_spec (pad_buffer B) 0 (uint64 (Z.shiftl (d_len d1) 3)))
      as HP.
    change (Z.of_nat 0) with 0 in HP. rewrite HP by lia. clear HP.
    cbn [mbind option_bind]. rewrite take_0, app_nil_l.
    rewrite slice_Some; [|lia|lia|].
    + rewrite Z.sub_0_r, drop_0. change (Z.to_nat 8) with (length (le_bytes 0)).
      now rewrite take_app_length' by reflexivity.
    + unfold len. rewrite length_app, length_le_bytes, length_drop. lia.
Qed.

(** The two writes leave the carry buffer empty. *)
Lemma padding_spec d :
  wf d → 8 ≤ d_blockSize d < 2 ^ 64 → d_len d mod d_blockSize d = d_nx d →
  (∀ d', padding d = Some d' → d_nx d' = 0 ∧ wf d' ∧ same_config d d')
  ∧ (∀ il ol, returns_on (d_c d) il ol →
       InputLen (d_c d) = Some il → OutputLen (d_c d) = Some ol →
       ∃ d', padding d = Some d').
Proof.
  intros Hwf HB8 Hcount.
  destruct (padding_unfold d Hwf HB8) as (Hpl & Hmod & ->).
  set (pad := take (Z.to_nat (pad_len d)) (pad_buffer (d_blockSize d))).
  assert (Hlenpad : len pad = pad_len d).
  { unfold pad, len, pad_buffer.
    rewrite length_take, length_insert, length_replicate. lia. }
  assert (Hstep : ∀ d1, Write d pad = Some d1 →
            wf d1 ∧ same_config d d1 ∧ d_nx d1 = d_blockSize d - 8).
  { intros d1 H1. destruct (Write_counts d pad d1 Hwf H1) as (W1 & C1 & N1 & _).
    split; [done|]. split; [done|]. now rewrite N1, Hlenpad, <- Hcount. }
  split.
  - intros d' Hd'.
    destruct (Write d pad) as [d1|] eqn:H1; cbn [mbind option_bind] in Hd'; [|done].
    destruct (Hstep d1 eq_refl) as (W1 & (Hc1 & Hs1 & HB1) & N1).
    destruct (Write_counts d1 _ d' W1 Hd') as (W2 & (Hc2 & Hs2 & HB2) & N2 & _).
    split; [|split; [exact W2|split; [|split]; congruence]].
    rewrite N2, N1, HB1. unfold len. rewrite length_le_bytes.
    replace (d_blockSize d - 8 + Z.of_nat 8) with (d_blockSize d) by lia.
    apply Z.mod_same. lia.
  - intros il ol Hret Hil Hol.
    destruct (Write_returns d pad il ol Hwf Hret Hil Hol) as [d1 H1].
    rewrite H1. cbn [mbind option_bind].
    destruct (Hstep d1 H1) as (W1 & (Hc1 & _ & _) & _).
    apply (Write_returns d1 _ il ol W1); now rewrite Hc1.
Qed.

(** After any writes on a fresh digest the byte counter is the number of
    bytes written modulo 2^64 and the carry buffer holds that number modulo
    the block size. *)
Lemma Writes_counts_mod c il ol chunks d0 d :
  InputLen c = Some il → OutputLen c = Some ol → 0 < il - 8 * ol →
  New c = Some d0 → Writes d0 chunks = Some d →
  wf d ∧ d_c d = c ∧ d_blockSize d = il - 8 * ol
  ∧ d_len d = uint64 (len (concat chunks))
  ∧ d_nx d = len (concat chunks) mod (il - 8 * ol).
Proof.
  intros Hil Hol HB Hnew HW.
  destruct (New_wf c il ol d0 Hil Hol HB Hnew) as (Hwf0 & Hc0 & HB0 & _ & Hv0 & _).
  pose proof (Writes_spec chunks d0 Hwf0) as HS. rewrite HW, Hv0 in HS.
  unfold absorb in HS. cbn [v_h v_buf v_len app] in HS.
  destruct (run_blocks _ _ _ _ _) as [[h' ms]|]; cbn [mbind option_bind] in HS; [|done].
  destruct HS as (Hwf & (Hc & _ & HBd) & Hv & _).
  split; [done|]. split; [congruence|]. split; [congruence|].
  pose proof (wf_buf d Hwf) as Hbuf. rewrite Hv in Hbuf. cbn [v_buf] in Hbuf.
  apply (f_equal v_len) in Hv. cbn [v_len view_of] in Hv.
  rewrite Z.add_0_l in Hv.
  split; [done|].
  destruct Hwf as [_ _ _ _ _ Hnx _]. rewrite HB0 in *.
  set (b := Z.to_nat (il - 8 * ol)) in *.
  rewrite length_drop in Hbuf.
  pose proof (Nat.div_mod_eq (length (concat chunks)) b).
  unfold len. replace (il - 8 * ol) with (Z.of_nat b) by (unfold b; lia).
  rewrite <- Nat2Z.inj_mod. lia.
Qed.

(** When fewer than 2^64 bytes were written, the byte counter agrees with
    the carry buffer modulo the block size. *)
Lemma Writes_counts c il ol chunks d0 d :
  InputLen c = Some il → OutputLen c = Some ol → 0 < il - 8 * ol →
  New c = Some d0 → Writes d0 chunks = Some d → len (concat chunks) < 2 ^ 64 →
  wf d ∧ d_c d = c ∧ d_blockSize d = il - 8 * ol
  ∧ d_len d = len (concat chunks)
  ∧ d_nx d = len (concat chunks) mod (il - 8 * ol).
Proof.
  intros Hil Hol HB Hnew HW Htotal.
  destruct (Writes_counts_mod c il ol chunks d0 d Hil Hol HB Hnew HW)
    as (Hwf & Hc & HBd & Hlen & Hnx).
  rewrite uint64_small in Hlen
    by (pose proof (len_nonneg (concat chunks)); lia).
  done.
Qed.

Lemma Writes_returns chunks il ol : ∀ d,
  wf d → returns_on (d_c d) il ol →
  InputLen (d_c d) = Some il → OutputLen (d_c d) = Some ol →
  ∃ d', Writes d chunks = Some d'.
Proof.
  induction chunks as [|p chunks IH]; intros d Hwf Hret Hil Hol; cbn [Writes].
  - eauto.
  - destruct (Write_returns d p il ol Hwf Hret Hil Hol) as [d1 H1].
    rewrite H1. cbn [mbind option_bind].
    destruct (Write_counts d p d1 Hwf H1) as (Hwf1 & (Hc1 & _ & _) & _).
    apply IH; [done| | |]; now rewrite Hc1.
Qed.

(** C4, as amended. Over a compressor whose block size [B] is at least 8
    (and fits a Go int), after [New] and any sequence of [Write] calls that
    returned and wrote fewer than 2^64 bytes in total, the padding of
    [checkSum] on the copy made by [Sum] ends, whenever it returns, with
    [nx = 0]: the test [d.nx != 0] cannot fire. It does return when the
    compressor returns on buffers of the lengths it declares. *)
Theorem padding_leaves_carry_buffer_empty c il ol chunks d0 d :
  InputLen c = Some il → OutputLen c = Some ol →
  8 ≤ il - 8 * ol < 2 ^ 63 →
  New c = Some d0 → Writes d0 chunks = Some d → len (concat chunks) < 2 ^ 64 →
  (∀ d', padding (copy d) = Some d' → d_nx d' = 0)
  ∧ (returns_on c il ol → ∃ d', padding (copy d) = Some d' ∧ d_nx d' = 0).
Proof.
  intros Hil Hol HB Hnew HW Htotal.
  destruct (Writes_counts c il ol chunks d0 d Hil Hol ltac:(lia) Hnew HW Htotal)
    as (Hwf & Hc & HBd & Hlen & Hnx).
  rewrite copy_id.
  destruct (padding_spec d Hwf) as [Hzero Hret].
  - rewrite HBd. lia.
  - now rewrite Hlen, HBd.
  - split; [intros d' Hd'; now apply Hzero|]. intros Hreturns.
    destruct (Hret il ol) as [d' Hd']; rewrite ?Hc; auto.
    exists d'. split; [exact Hd'|]. now apply Hzero.
Qed.

(** A rectangular matrix with a row and eight columns returns on buffers of
    the declared lengths. *)
Lemma Matrix_returns_on A N M :
  dims A N M → 1 ≤ N → 8 ≤ M → returns_on (Matrix_Compressor A) (M / 8) N.
Proof.
  intros Hd HN HM h msg Hh Hmsg. cbn [Compress Matrix_Compressor].
  rewrite (Matrix_Compress_spec A N M) by (auto; lia). eauto.
Qed.

Lemma padding_leaves_carry_buffer_empty_witness :
  ∃ d', padding (copy d_nine) = Some d' ∧ d_nx d' = 0.
Proof.
  destruct (padding_leaves_carry_buffer_empty (Matrix_Compressor A_1x128) 16 1
              [[1; 2; 3; 4; 5; 6; 7; 8; 9]] d_fresh d_nine)
    as [Hzero Hret];
    [reflexivity|reflexivity|lia|exact New_A_1x128|reflexivity
    |unfold len; simpl; lia|].
  apply Hret.
  apply (Matrix_returns_on A_1x128 1 128);
    [split; [reflexivity|repeat constructor]|lia|lia].
Defined.

(** Over [A_1x72] the block size is 1 and the compressor returns on every
    well-sized call, yet on the fresh digest [P = B - 8] wraps around, the
    slice [tmp[0:P]] is out of range and the padding panics: no state with
    [nx = 0] follows it, and [Sum] has no result. *)
Lemma padding_panics_at_block_of_one :
  let c := Matrix_Compressor A_1x72 in
  InputLen c = Some 9 ∧ OutputLen c = Some 1 ∧ 0 < 9 - 8 * 1
  ∧ returns_on c 9 1
  ∧ ∃ d0, New c = Some d0 ∧ Writes d0 [] = Some d0
          ∧ padding (copy d0) = None ∧ Sum d0 [] = None.
Proof.
  intros c. split; [reflexivity|]. split; [reflexivity|]. split; [lia|]. split.
  - apply (Matrix_returns_on A_1x72 1 72);
      [split; [reflexivity|repeat constructor]|lia|lia].
  - eexists. split; [reflexivity|]. split; [reflexivity|].
    split; reflexivity.
Qed.

(** ** The byte counter wraps *)

(** The byte counter [d.len] is a [uint64]. Once 2^64 bytes have been
    written it is back at 0 while the carry buffer holds [2^64 mod B] bytes,
    and for a block size that does not divide 2^64 the two no longer agree:
    over [Zero_1x256], of block size 24, the buffer holds 16 bytes, the
    padding computed from [d.len = 0] adds 16 and then 8 bytes, and ends
    with [nx = 16]: the test [d.nx != 0] fires. *)
Lemma padding_after_wrap (k : nat) :
  Z.of_nat k = 2 ^ 62 →
  let c := Matrix_Compressor Zero_1x256 in
  let chunks := replicate 4 (replicate k 0) in
  len (concat chunks) = 2 ^ 64
  ∧ ∃ d0 d d',
      New c = Some d0 ∧ Writes d0 chunks = Some d
      ∧ d_len d = 0 ∧ d_nx d = 16
      ∧ padding (copy d) = Some d' ∧ d_nx d' = 16
      ∧ Sum d [] = None.
Proof.
  intros Hk c chunks.
  assert (Hil : InputLen c = Some 32) by reflexivity.
  assert (Hol : OutputLen c = Some 1) by reflexivity.
  assert (Hret : returns_on c 32 1).
  { apply (Matrix_returns_on Zero_1x256 1 256);
      [split; [reflexivity|repeat constructor]|lia|lia]. }
  assert (Htotal : len (concat chunks) = 2 ^ 64).
  { unfold chunks. cbn [replicate concat]. unfold len.
    rewrite !length_app, !length_replicate. cbn [length]. lia. }
  split; [exact Htotal|]. clearbody chunks.
  destruct (New c) as [d0|] eqn:Hnew; [|discriminate].
  destruct (New_wf c 32 1 d0 Hil Hol ltac:(lia) Hnew) as (Hwf0 & Hc0 & _).
  destruct (Writes_returns chunks 32 1 d0 Hwf0) as [d HW]; rewrite ?Hc0; auto.
  destruct (Writes_counts_mod c 32 1 chunks d0 d Hil Hol ltac:(lia) Hnew HW)
    as (Hwf & Hc & HB & Hlen & Hnx).
  rewrite Htotal in Hlen, Hnx.
  change (uint64 (2 ^ 64)) with 0 in Hlen.
  change (2 ^ 64 mod (32 - 8 * 1)) with 16 in Hnx.
  change (32 - 8 * 1) with 24 in HB.
  destruct (padding_unfold d Hwf ltac:(rewrite HB; lia)) as (_ & _ & Hpad).
  assert (Hpl : pad_len d = 16) by (unfold pad_len; rewrite Hlen, HB; reflexivity).
  rewrite Hpl, HB in Hpad.
  set (pad := take (Z.to_nat 16) (pad_buffer 24)) in Hpad.
  destruct (Write_returns d pad 32 1 Hwf) as [d1 H1]; rewrite ?Hc; auto.
  destruct (Write_counts d pad d1 Hwf H1) as (Hwf1 & (Hc1 & _ & HB1) & Hnx1 & _).
  rewrite Hnx, HB in Hnx1. change ((16 + len pad) mod 24) with 8 in Hnx1.
  rewrite H1 in Hpad. cbn [mbind option_bind] in Hpad.
  set (lf := le_bytes _) in Hpad.
  destruct (Write_returns d1 lf 32 1 Hwf1) as [d2 H2]; rewrite ?Hc1, ?Hc; auto.
  destruct (Write_counts d1 lf d2 Hwf1 H2) as (_ & _ & Hnx2 & _).
  rewrite Hnx1, HB1, HB in Hnx2. change ((8 + len lf) mod 24) with 16 in Hnx2.
  rewrite H2 in Hpad.
  exists d0, d, d2. rewrite copy_id.
  split; [reflexivity|]. split; [exact HW|]. split; [exact Hlen|].
  split; [exact Hnx|]. split; [exact Hpad|]. split; [exact Hnx2|].
  unfold Sum, checkSum. rewrite copy_id, Hpad. cbn [mbind option_bind].
  now rewrite decide_True by lia.
Qed.

Lemma padding_after_counter_wraps :
  let c := Matrix_Compressor Zero_1x256 in
  let chunks := replicate 4 (replicate (Z.to_nat (2 ^ 62)) 0) in
  len (concat chunks) = 2 ^ 64
  ∧ ∃ d0 d d',
      New c = Some d0 ∧ Writes d0 chunks = Some d
      ∧ d_len d = 0 ∧ d_nx d = 16
      ∧ padding (copy d) = Some d' ∧ d_nx d' = 16
      ∧ Sum d [] = None.
Proof.
  apply padding_after_wrap. apply Z2Nat.id. apply Z.pow_nonneg. lia.
Qed.

(** C4 as stated fails in two ways.
    - For a positive block size below 8 the padding panics before it has
      written anything: over [A_1x72], of block size 1, the fresh digest has
      no state after padding and [Sum] has no result.
    - For a block size that does not divide 2^64, once the byte counter has
      wrapped the padding completes with a carry buffer that is not empty:
      over [Zero_1x256], of block size 24, after 2^64 bytes it ends with
      [nx = 16], and [Sum] panics on [d.nx != 0]. *)
Lemma padding_does_not_always_empty_carry_buffer :
  (let c := Matrix_Compressor A_1x72 in
   InputLen c = Some 9 ∧ OutputLen c = Some 1 ∧ 0 < 9 - 8 * 1
   ∧ returns_on c 9 1
   ∧ ∃ d0, New c = Some d0 ∧ Writes d0 [] = Some d0
           ∧ padding (copy d0) = None ∧ Sum d0 [] = None)
  ∧ (let c := Matrix_Compressor Zero_1x256 in
     let chunks := replicate 4 (replicate (Z.to_nat (2 ^ 62)) 0) in
     InputLen c = Some 32 ∧ OutputLen c = Some 1 ∧ 0 < 32 - 8 * 1
     ∧ len (concat chunks) = 2 ^ 64
     ∧ ∃ d0 d d',
         New c = Some d0 ∧ Writes d0 chunks = Some d
         ∧ d_len d = 0 ∧ d_nx d = 16
         ∧ padding (copy d) = Some d' ∧ d_nx d' = 16
         ∧ Sum d [] = None).
Proof.
  split; [exact padding_panics_at_block_of_one|].
  intros c chunks. split; [reflexivity|]. split; [reflexivity|]. split; [lia|].
  exact padding_after_counter_wraps.
Qed.

(** ** The empty message *)

Lemma put_words_digest h :
  put_words (replicate (8 * length h) 0) 0 h = Some (chain_bytes h).
Proof.
  rewrite put_words_spec by (rewrite length_replicate; lia).
  rewrite take_0, app_nil_l, Nat.add_0_l.
  rewrite drop_ge by (rewrite length_replicate; lia).
  now rewrite app_nil_r.
Qed.

(** [Sum] returns a digest of [d.size] bytes when the padding is in step
    with the carry buffer and the compressor returns. *)
Lemma Sum_returns d in_ il ol :
  wf d → 8 ≤ d_blockSize d < 2 ^ 64 → d_len d mod d_blockSize d = d_nx d →
  returns_on (d_c d) il ol →
  InputLen (d_c d) = Some il → OutputLen (d_c d) = Some ol →
  ∃ out, Sum d in_ = Some (in_ ++ out) ∧ len out = d_size d.
Proof.
  intros Hwf HB Hcount Hret Hil Hol.
  destruct (padding_spec d Hwf HB Hcount) as [Hzero Hreturns].
  destruct (Hreturns il ol Hret Hil Hol) as [d' Hd'].
  destruct (Hzero d' Hd') as (Hnx & Hwf' & (_ & Hs & _)).
  exists (chain_bytes (d_h d')).
  unfold Sum, checkSum. rewrite copy_id, Hd'. cbn [mbind option_bind].
  rewrite decide_False by lia.
  destruct Hwf' as [_ Hsize _ _ _ _ _]. unfold make, len in *.
  rewrite decide_True by lia. cbn [mbind option_bind].
  replace (Z.to_nat (d_size d')) with (8 * length (d_h d'))%nat by lia.
  rewrite put_words_digest. cbn [mbind option_bind].
  split; [reflexivity|]. rewrite length_chain_bytes. lia.
Qed.

(** Hashing returns a digest of [8 * OutputLen()] bytes, for a block of at
    least eight bytes, a compressor that returns and fewer than 2^64
    bytes. *)
Lemma hash_chunks_returns c il ol chunks in_ :
  InputLen c = Some il → OutputLen c = Some ol → 0 ≤ ol →
  8 ≤ il - 8 * ol < 2 ^ 63 → returns_on c il ol →
  len (concat chunks) < 2 ^ 64 →
  ∃ out, hash_chunks c chunks in_ = Some (in_ ++ out) ∧ len out = 8 * ol.
Proof.
  intros Hil Hol Hol0 HB Hret Htotal. unfold hash_chunks.
  pose proof (New_spec c il ol Hil Hol Hol0 ltac:(lia)) as Hnew.
  rewrite Hnew. cbn [mbind option_bind].
  destruct (New_wf c il ol _ Hil Hol ltac:(lia) Hnew) as (Hwf0 & Hc0 & _).
  destruct (Writes_returns chunks il ol _ Hwf0) as [d HW]; rewrite ?Hc0; auto.
  rewrite HW. cbn [mbind option_bind].
  destruct (Writes_counts c il ol chunks _ d Hil Hol ltac:(lia) Hnew HW Htotal)
    as (Hwf & Hc & HBd & Hlen & Hnx).
  destruct (Sum_returns d in_ il ol Hwf) as (out & Hsum & Hout);
    rewrite ?HBd, ?Hc, ?Hlen; auto; [lia|].
  exists out. split; [exact Hsum|].
  pose proof (Writes_spec chunks _ Hwf0) as HS. rewrite HW in HS.
  destruct (absorb _ _ _ _) as [[v ms]|]; [|done].
  destruct HS as (_ & (_ & Hs & _) & _). rewrite Hout, Hs. cbn. lia.
Qed.

(** Hashing the empty message over a compressor of 64 input bytes and 4
    output words that returns on well-sized calls: a single compression, of
    the zero chaining value followed by the marker, 23 zeros and the length
    field of the code, which is the bit count of the 24 bytes written. *)
Lemma empty_message_run c :
  InputLen c = Some 64 → OutputLen c = Some 4 → returns_on c 64 4 →
  let msg := replicate 32 0 ++ empty_pad ++ le_bytes 192 in
  ∃ d0 d' out,
    New c = Some d0 ∧ d_calls d0 = []
    ∧ Compress c (replicate 4 0) msg = Returned out
    ∧ checkSum (copy d0) = Some (d', chain_bytes out)
    ∧ d_calls d' = [msg]
    ∧ Sum d0 [] = Some (chain_bytes out).
Proof.
  intros Hil Hol Hret msg.
  destruct (Hret (replicate 4 0) msg) as [out Hout]; [reflexivity|reflexivity|].
  pose proof (Compress_length c _ _ _ Hout) as Hlen_out. cbn in Hlen_out.
  pose proof (New_spec c 64 4 Hil Hol ltac:(lia) ltac:(lia)) as Hnew.
  cbn in Hnew.
  match type of Hnew with _ = Some ?d => set (d0 := d) in * end.
  destruct (New_wf c 64 4 d0 Hil Hol ltac:(lia) Hnew) as (Hwf0 & _).
  exists d0.
  (* the marker and the zeros: nothing to compress yet *)
  destruct (padding_unfold d0 Hwf0 ltac:(cbn; lia)) as (_ & _ & Hpad).
  change (take (Z.to_nat (pad_len d0)) (pad_buffer (d_blockSize d0)))
    with empty_pad in Hpad.
  pose proof (Write_spec d0 empty_pad Hwf0) as H1.
  change (absorb (d_c d0) (Z.to_nat (d_blockSize d0)) (view_of d0) empty_pad)
    with (Some (View (replicate 4 0) empty_pad 24, @nil (list Z))) in H1.
  destruct (Write d0 empty_pad) as [d1|]; [|done].
  destruct H1 as (Hwf1 & (Hc1 & Hs1 & HB1) & Hv1 & Hcalls1).
  cbn [mbind option_bind] in Hpad.
  assert (Hlen1 : d_len d1 = 24) by (apply (f_equal v_len) in Hv1; exact Hv1).
  rewrite Hlen1 in Hpad. change (uint64 (Z.shiftl 24 3)) with 192 in Hpad.
  (* the length field: one block *)
  pose proof (Write_spec d1 (le_bytes 192) Hwf1) as H2.
  rewrite Hc1, HB1, Hv1 in H2. unfold absorb in H2.
  cbn [v_h v_buf v_len d_c d_blockSize d0] in H2.
  change (length (empty_pad ++ le_bytes 192) / Z.to_nat (64 - 4 * 8))%nat
    with 1%nat in H2.
  cbn [run_blocks] in H2. unfold compress_block in H2.
  change (chain_input (replicate 4 0)
            (take (Z.to_nat (64 - 4 * 8)) (empty_pad ++ le_bytes 192)))
    with msg in H2.
  rewrite Hout in H2. cbn [returned mbind option_bind] in H2.
  destruct (Write d1 (le_bytes 192)) as [d2|]; [|done].
  destruct H2 as (Hwf2 & (Hc2 & Hs2 & HB2) & Hv2 & Hcalls2).
  exists d2, out.
  assert (Hnx2 : d_nx d2 = 0).
  { assert (Hb : length (v_buf (view_of d2)) = 0%nat) by now rewrite Hv2.
    rewrite wf_buf in Hb by done. destruct Hwf2. lia. }
  assert (Hh2 : d_h d2 = out) by (apply (f_equal v_h) in Hv2; exact Hv2).
  assert (Hcs : checkSum (copy d0) = Some (d2, chain_bytes out)).
  { unfold checkSum. rewrite copy_id, Hpad. cbn [mbind option_bind].
    rewrite decide_False by lia. rewrite Hs2, Hs1, Hh2.
    cbn [d_size d0]. unfold make. rewrite decide_True by lia.
    cbn [mbind option_bind].
    replace (Z.to_nat (4 * 8)) with (8 * length out)%nat by lia.
    now rewrite put_words_digest. }
  split; [exact Hnew|]. split; [reflexivity|]. split; [exact Hout|].
  split; [exact Hcs|]. split.
  - rewrite Hcalls2, Hcalls1. reflexivity.
  - unfold Sum. rewrite Hcs. reflexivity.
Qed.

Lemma Matrix_Compressor_4x512 A :
  dims A 4 (2 * 4 * 64) →
  InputLen (Matrix_Compressor A) = Some 64
  ∧ OutputLen (Matrix_Compressor A) = Some 4
  ∧ returns_on (Matrix_Compressor A) 64 4.
Proof.
  intros Hd. pose proof Hd as [HN HM]. cbn [InputLen OutputLen Matrix_Compressor].
  unfold Matrix_InputLen, Matrix_OutputLen.
  destruct A as [|A0 A']; [discriminate|]. cbn [lookup list_lookup mbind option_bind].
  rewrite (Forall_inv HM), HN.
  split; [reflexivity|]. split; [reflexivity|].
  apply (Matrix_returns_on _ 4 (2 * 4 * 64)); [exact Hd|lia|lia].
Qed.

(** C7, as amended. With [N = 4] rows and compression factor 2 (64 input
    bytes, a chaining value of 32 bytes, a block of 32 bytes), hashing the
    empty message makes exactly one call of [Compress]: on the zero chaining
    value followed by the block made of the byte 0x80, 23 zero bytes and the
    eight bytes of the length field. The digest returned is the output of
    that call, each word as eight little-endian bytes. *)
Theorem empty_message_one_compression A :
  dims A 4 (2 * 4 * 64) →
  ∃ d0 d' out lenfield,
    New (Matrix_Compressor A) = Some d0 ∧ d_calls d0 = []
    ∧ len lenfield = 8
    ∧ Matrix_Compress A (replicate 4 0)
        (replicate 32 0 ++ [0x80] ++ replicate 23 0 ++ lenfield) = Returned out
    ∧ checkSum (copy d0) = Some (d', chain_bytes out)
    ∧ d_calls d' = [replicate 32 0 ++ [0x80] ++ replicate 23 0 ++ lenfield]
    ∧ Sum d0 [] = Some (chain_bytes out).
Proof.
  intros Hd. destruct (Matrix_Compressor_4x512 A Hd) as (Hil & Hol & Hret).
  destruct (empty_message_run (Matrix_Compressor A) Hil Hol Hret)
    as (d0 & d' & out & Hnew & Hc0 & Hout & Hcs & Hcalls & Hsum).
  exists d0, d', out, (le_bytes 192).
  split; [exact Hnew|]. split; [exact Hc0|]. split; [reflexivity|].
  split; [exact Hout|]. split; [exact Hcs|]. split; [exact Hcalls|exact Hsum].
Qed.

Lemma dims_A_4x512 : dims A_4x512 4 (2 * 4 * 64).
Proof. split; [reflexivity|repeat constructor]. Qed.

Lemma empty_message_one_compression_witness :
  ∃ d0 d' out lenfield,
    New (Matrix_Compressor A_4x512) = Some d0 ∧ d_calls d0 = []
    ∧ len lenfield = 8
    ∧ Matrix_Compress A_4x512 (replicate 4 0)
        (replicate 32 0 ++ [0x80] ++ replicate 23 0 ++ lenfield) = Returned out
    ∧ checkSum (copy d0) = Some (d', chain_bytes out)
    ∧ d_calls d' = [replicate 32 0 ++ [0x80] ++ replicate 23 0 ++ lenfield]
    ∧ Sum d0 [] = Some (chain_bytes out).
Proof. exact (empty_message_one_compression A_4x512 dims_A_4x512). Defined.

(** C7 as stated fails. With compression factor 1 the matrix has 256
    columns: 32 input bytes, all taken by the chaining value, so the block
    size is 0, [tmp[0] = 0x80] indexes an empty buffer and [Sum] panics
    before any compression. With compression factor 2 the single
    compression input does not end with the encoding of 0: the code reads
    [d.len] after the first padding write, so the length field holds
    [8 * 24 = 192]. *)
Lemma empty_message_factor_one_panics :
  dims A_4x256 4 (1 * 4 * 64)
  ∧ (∃ d0, New (Matrix_Compressor A_4x256) = Some d0
           ∧ d_blockSize d0 = 0 ∧ Sum d0 [] = None)
  ∧ (∃ d0 d' hash, New (Matrix_Compressor A_4x512) = Some d0
                   ∧ checkSum (copy d0) = Some (d', hash)
                   ∧ d_calls d' = [replicate 32 0 ++ empty_pad ++ le_bytes 192]
                   ∧ le_bytes 192 ≠ le_bytes 0).
Proof.
  split; [split; [reflexivity|repeat constructor]|]. split.
  - eexists. split; [reflexivity|]. split; reflexivity.
  - destruct (Matrix_Compressor_4x512 A_4x512 dims_A_4x512) as (Hil & Hol & Hret).
    destruct (empty_message_run (Matrix_Compressor A_4x512) Hil Hol Hret)
      as (d0 & d' & out & Hnew & _ & _ & Hcs & Hcalls & _).
    exists d0, d', (chain_bytes out).
    split; [exact Hnew|]. split; [exact Hcs|]. split; [exact Hcalls|discriminate].
Qed.

(** ** [Write] keeps the compressor and the geometry *)

Lemma blocks_loop_config data : ∀ fuel d msg i d',
  blocks_loop fuel d data msg i = Some d' → same_config d d'.
Proof.
  induction fuel as [|fuel IH]; intros d msg i d'; cbn [blocks_loop]; [done|].
  case_decide; [|intros [= <-]; done].
  destruct (put_words msg 0 (d_h d)) as [msg1|]; cbn [mbind option_bind]; [|done].
  destruct (slice msg1 _ _); cbn [mbind option_bind]; [|done].
  destruct (slice data _ _) as [src|]; cbn [mbind option_bind]; [|done].
  destruct (returned _) as [h'|]; cbn [mbind option_bind]; [|done].
  intros Hrec. apply IH in Hrec. exact Hrec.
Qed.

Lemma blocks_config d data d' : blocks d data = Some d' → same_config d d'.
Proof.
  unfold blocks. destruct (InputLen (d_c d)) as [il|]; cbn [mbind option_bind]; [|done].
  destruct (make 0 il) as [msg|]; cbn [mbind option_bind]; [|done].
  apply blocks_loop_config.
Qed.

Lemma Write_config d p d' : Write d p = Some d' → same_config d d'.
Proof.
  unfold Write.
  assert (Hfill : ∀ d0 d1 p1, Write_fill d0 p = Some (d1, p1) → same_config d0 d1).
  { intros d0 d1 p1. unfold Write_fill. case_decide; [|intros [= <- _]; done].
    destruct (slice (d_x d0) _ _); cbn [mbind option_bind]; [|done].
    destruct (copy_slice _ _ _ _) as [x' n].
    case_decide.
    - destruct (blocks _ _) as [db|] eqn:Hb; cbn [mbind option_bind]; [|done].
      destruct (slice p _ _); cbn [mbind option_bind]; [|done].
      intros [= <- _]. apply blocks_config in Hb. exact Hb.
    - cbn [mbind option_bind].
      destruct (slice p _ _); cbn [mbind option_bind]; [|done].
      intros [= <- _]. done. }
  assert (Hblocks : ∀ d1 p1 d2 p2, Write_blocks d1 p1 = Some (d2, p2) → same_config d1 d2).
  { intros d1 p1 d2 p2. unfold Write_blocks. case_decide; [|intros [= <- _]; done].
    case_decide; [done|].
    destruct (slice p1 0 _) as [data|]; cbn [mbind option_bind]; [|done].
    destruct (blocks d1 data) as [db|] eqn:Hb; cbn [mbind option_bind]; [|done].
    destruct (slice p1 _ _); cbn [mbind option_bind]; [|done].
    intros [= <- _]. now apply blocks_config in Hb. }
  assert (Htail : ∀ d2 p2, same_config d2 (Write_tail d2 p2)).
  { intros d2 p2. unfold Write_tail. case_decide; [|done].
    now destruct (copy_slice _ _ _ _). }
  destruct (Write_fill _ p) as [[d1 p1]|] eqn:H1; cbn [mbind option_bind]; [|done].
  destruct (Write_blocks d1 p1) as [[d2 p2]|] eqn:H2; cbn [mbind option_bind]; [|done].
  intros [= <-].
  apply Hfill in H1. apply Hblocks in H2. pose proof (Htail d2 p2) as H3.
  destruct H1 as (? & ? & ?), H2 as (? & ? & ?), H3 as (? & ? & ?).
  cbn [set_len d_c d_size d_blockSize] in *.
  split; [|split]; congruence.
Qed.

(** ** [Sum] works on a copy *)

Lemma fresh_lookup {V} (m : gmap nat V) i v :
  m !! i = Some v → fresh (dom m) ≠ i.
Proof.
  intros Hi Heq. pose proof (is_fresh (dom m)) as Hf.
  rewrite Heq in Hf. apply Hf, elem_of_dom. eauto.
Qed.

Lemma load_struct σ p d :
  load σ p = Some d →
  ∃ s, structs σ !! p = Some s
       ∧ words σ !! s_h s = Some (d_h d) ∧ octets σ !! s_x s = Some (d_x d)
       ∧ d_c d = s_c s ∧ d_size d = s_size s ∧ d_blockSize d = s_blockSize s
       ∧ d_nx d = s_nx s ∧ d_len d = s_len s ∧ d_calls d = s_calls s.
Proof.
  unfold load. destruct (structs σ !! p) as [s|]; cbn [mbind option_bind]; [|done].
  destruct (words σ !! s_h s) as [h|] eqn:Eh; cbn [mbind option_bind]; [|done].
  destruct (octets σ !! s_x s) as [x|] eqn:Ex; cbn [mbind option_bind]; [|done].
  intros [= <-]. exists s. cbn. repeat split; done.
Qed.

(** Writing a digest of the same configuration through a pointer and
    loading it again gives that digest. *)
Lemma load_write_back σ p d d' :
  load σ p = Some d → same_config d d' →
  ∃ σ', write_back σ p d' = Some σ' ∧ load σ' p = Some d'.
Proof.
  intros Hload (Hc & Hs & HB).
  destruct (load_struct σ p d Hload) as (s & Hs0 & _ & _ & Hc0 & Hsz0 & HB0 & _).
  unfold write_back. rewrite Hs0. cbn [mbind option_bind]. eexists. split; [reflexivity|].
  unfold load. cbn [structs words octets].
  rewrite lookup_insert_eq. cbn [mbind option_bind s_h s_x].
  rewrite !lookup_insert_eq. cbn [mbind option_bind].
  f_equal. destruct d'. cbn in *. f_equal; congruence.
Qed.

(** What [Sum] does on the store: the result is the one of [Sum] on the
    digest the pointer denotes, and the store changes at three addresses
    that were not in use. *)
Lemma Sum_ptr_spec σ p in_ d :
  load σ p = Some d →
  match Sum_ptr σ p in_ with
  | Some (out, σ') =>
      Sum d in_ = Some out
      ∧ (∀ q s, structs σ !! q = Some s → structs σ' !! q = Some s)
      ∧ (∀ a h, words σ !! a = Some h → words σ' !! a = Some h)
      ∧ (∀ a x, octets σ !! a = Some x → octets σ' !! a = Some x)
  | None => Sum d in_ = None
  end.
Proof.
  intros Hload.
  destruct (load_struct σ p d Hload) as (s & Hs & Hh & Hx & Hc & Hsz & HB & Hnx & Hlen & Hcalls).
  unfold Sum_ptr, copy_ptr. rewrite Hs, Hload. cbn [mbind option_bind].
  set (ah := fresh (dom (words σ))). set (ax := fresh (dom (octets σ))).
  set (p' := fresh (dom (structs σ))).
  unfold checkSum_ptr, load at 1. cbn [structs words octets].
  rewrite lookup_insert_eq. cbn [mbind option_bind s_h s_x].
  rewrite !lookup_insert_eq. cbn [mbind option_bind].
  cbn [s_c s_size s_blockSize s_nx s_len s_calls].
  match goal with |- context [checkSum ?d0] =>
    replace d0 with (copy d)
      by (unfold copy; cbn [d_c d_size d_blockSize d_nx d_len d_calls];
          f_equal; congruence) end.
  unfold Sum.
  destruct (checkSum (copy d)) as [[d' hash]|]; cbn [mbind option_bind]; [|done].
  unfold write_back. cbn [structs words octets].
  rewrite lookup_insert_eq. cbn [mbind option_bind s_h s_x].
  split; [done|]. cbn [structs words octets]. split; [|split].
  - intros q sq Hq. rewrite lookup_insert_ne by (eapply fresh_lookup; eauto).
    now rewrite lookup_insert_ne by (eapply fresh_lookup; eauto).
  - intros a h Ha. rewrite lookup_insert_ne by (eapply fresh_lookup; eauto).
    now rewrite lookup_insert_ne by (eapply fresh_lookup; eauto).
  - intros a x Ha. rewrite lookup_insert_ne by (eapply fresh_lookup; eauto).
    now rewrite lookup_insert_ne by (eapply fresh_lookup; eauto).
Qed.

Lemma load_preserved σ σ' p d :
  load σ p = Some d →
  (∀ q s, structs σ !! q = Some s → structs σ' !! q = Some s) →
  (∀ a h, words σ !! a = Some h → words σ' !! a = Some h) →
  (∀ a x, octets σ !! a = Some x → octets σ' !! a = Some x) →
  load σ' p = Some d.
Proof.
  intros Hload Hst Hw Ho.
  destruct (load_struct σ p d Hload) as (s & Hs & Hh & Hx & _).
  pose proof Hload as Hl. unfold load in Hl |- *.
  rewrite Hs in Hl. rewrite (Hst _ _ Hs). cbn [mbind option_bind] in *.
  rewrite Hh in Hl. rewrite (Hw _ _ Hh). cbn [mbind option_bind] in *.
  rewrite Hx in Hl. rewrite (Ho _ _ Hx). exact Hl.
Qed.

Lemma Writes_snoc chunks y : ∀ d,
  Writes d (chunks ++ [y]) = (d' ← Writes d chunks; Write d' y).
Proof.
  induction chunks as [|p chunks IH]; intros d; cbn [Writes app].
  - cbn [mbind option_bind]. now destruct (Write d y).
  - destruct (Write d p) as [d1|]; cbn [mbind option_bind]; [|done]. apply IH.
Qed.

Lemma Write_then_Sum_ptr σ p d y in_ :
  load σ p = Some d →
  (σ1 ← Write_ptr σ p y; '(out1, _) ← Sum_ptr σ1 p in_; Some out1)
  = (d1 ← Write d y; Sum d1 in_).
Proof.
  intros Hload. unfold Write_ptr. rewrite Hload. cbn [mbind option_bind].
  destruct (Write d y) as [d1|] eqn:HW; cbn [mbind option_bind]; [|done].
  destruct (load_write_back σ p d d1 Hload (Write_config _ _ _ HW))
    as (σ1 & -> & Hload1).
  cbn [mbind option_bind].
  pose proof (Sum_ptr_spec σ1 p in_ d1 Hload1) as HS.
  destruct (Sum_ptr σ1 p in_) as [[out1 σ2]|]; cbn [mbind option_bind].
  - now destruct HS as [-> _].
  - now rewrite HS.
Qed.

(** C5. [Sum] leaves the digest it is called on as it was: its struct and
    the two arrays the struct points to are unchanged in the store, so the
    pointer denotes the same digest as before. Hence a second [Sum] returns
    the same bytes, and a [Write] followed by a [Sum] returns what they
    return without the first [Sum], which for a digest built by [New] and
    [Write] calls over a compressor of positive block size is the hash of
    the longer message. *)
Theorem Sum_leaves_digest_unchanged σ p in_ out σ' d :
  load σ p = Some d → Sum_ptr σ p in_ = Some (out, σ') →
  (∃ s, structs σ !! p = Some s ∧ structs σ' !! p = Some s
        ∧ words σ' !! s_h s = words σ !! s_h s
        ∧ octets σ' !! s_x s = octets σ !! s_x s)
  ∧ load σ' p = Some d
  ∧ (∃ σ'', Sum_ptr σ' p in_ = Some (out, σ''))
  ∧ (∀ y, (σ1 ← Write_ptr σ' p y; '(out1, _) ← Sum_ptr σ1 p in_; Some out1)
          = (d1 ← Write d y; Sum d1 in_))
  ∧ (∀ c il ol chunks d0 y,
       InputLen c = Some il → OutputLen c = Some ol → 0 < il - 8 * ol →
       New c = Some d0 → Writes d0 chunks = Some d →
       (σ1 ← Write_ptr σ' p y; '(out1, _) ← Sum_ptr σ1 p in_; Some out1)
       = hash_chunks c [concat chunks ++ y] in_).
Proof.
  intros Hload HSum.
  pose proof (Sum_ptr_spec σ p in_ d Hload) as HS. rewrite HSum in HS.
  destruct HS as (Hout & Hst & Hw & Ho).
  destruct (load_struct σ p d Hload) as (s & Hs & Hh & Hx & _).
  assert (Hload' : load σ' p = Some d) by (eapply load_preserved; eauto).
  split; [|split; [exact Hload'|split; [|split]]].
  - exists s. split; [exact Hs|]. split; [now apply Hst|].
    split; [now rewrite Hh, (Hw _ _ Hh)|now rewrite Hx, (Ho _ _ Hx)].
  - pose proof (Sum_ptr_spec σ' p in_ d Hload') as HS'.
    destruct (Sum_ptr σ' p in_) as [[out' σ'']|].
    + destruct HS' as [Hout' _]. rewrite Hout in Hout'. injection Hout' as <-. eauto.
    + congruence.
  - intros y. now apply Write_then_Sum_ptr.
  - intros c il ol chunks d0 y Hil Hol HB Hnew HW.
    rewrite (Write_then_Sum_ptr σ' p d y in_ Hload').
    rewrite <- (hash_chunks_concat c il ol Hil Hol HB (chunks ++ [y]))
      by (rewrite concat_app; cbn; now rewrite !app_nil_r).
    unfold hash_chunks. rewrite Hnew. cbn [mbind option_bind].
    now rewrite Writes_snoc, HW.
Qed.

Lemma load_store_nine : load store_nine 0 = Some d_nine.
Proof. reflexivity. Qed.

Lemma Sum_leaves_digest_unchanged_witness :
  ∃ out σ',
    Sum_ptr store_nine 0 [] = Some (out, σ')
    ∧ out = [96; 0; 0; 0; 0; 0; 0; 0]
    ∧ load σ' 0 = Some d_nine
    ∧ (∃ σ'', Sum_ptr σ' 0 [] = Some (out, σ''))
    ∧ (σ1 ← Write_ptr σ' 0 [10; 11]; '(out1, _) ← Sum_ptr σ1 0 []; Some out1)
      = hash_chunks (Matrix_Compressor A_1x128)
          [[1; 2; 3; 4; 5; 6; 7; 8; 9; 10; 11]] [].
Proof.
  pose proof (Sum_ptr_spec store_nine 0 [] d_nine load_store_nine) as HS.
  assert (Hval : Sum d_nine [] = Some [96; 0; 0; 0; 0; 0; 0; 0])
    by (vm_compute; reflexivity).
  destruct (Sum_ptr store_nine 0 []) as [[out σ']|] eqn:HSum; [|congruence].
  destruct (Sum_leaves_digest_unchanged store_nine 0 [] out σ' d_nine load_store_nine HSum)
    as (_ & Hload' & Htwice & _ & Hlonger).
  exists out, σ'. split; [reflexivity|]. split.
  { destruct HS as [Hout _]. congruence. }
  split; [exact Hload'|]. split; [exact Htwice|].
  apply (Hlonger (Matrix_Compressor A_1x128) 16 1 [[1; 2; 3; 4; 5; 6; 7; 8; 9]] d_fresh);
    [reflexivity|reflexivity|lia|exact New_A_1x128|reflexivity].
Defined.

(** ** Matrix generation *)

Lemma copy_slice_full {A} (dst src : list A) :
  length src = length dst → (copy_slice dst 0 (length dst) src).1 = src.
Proof.
  intros Hlen. unfold copy_slice. cbn [fst].
  rewrite Nat.sub_0_r, Hlen, Nat.min_id, take_0, Nat.add_0_l, app_nil_l.
  rewrite <- Hlen, firstn_all, Hlen, drop_all. apply app_nil_r.
Qed.

(** Over a reader that fills the buffer or fails, a row of [n] cells is the
    next [8n] bytes decoded in groups of eight; the call panics when fewer
    are left. *)
Lemma RandomMatrix_row_full n : ∀ s w,
  length w = 8%nat →
  if decide (8 * n ≤ length s)%nat
  then ∃ w', length w' = 8%nat
             ∧ RandomMatrix_row full_reader s w n
               = Some (spec_cells s n, w', drop (8 * n) s)
  else RandomMatrix_row full_reader s w n = None.
Proof.
  induction n as [|n IH]; intros s w Hw.
  - rewrite decide_True by lia. exists w. now rewrite drop_0.
  - cbn [RandomMatrix_row spec_cells Read full_reader]. rewrite Hw.
    destruct (decide (8 ≤ length s)%nat) as [H8|H8].
    + assert (Hw' : (copy_slice w 0 8 (take 8 s)).1 = take 8 s).
      { pose proof (copy_slice_full w (take 8 s)) as Hc. rewrite Hw in Hc.
        apply Hc. rewrite length_take. lia. }
      rewrite Hw'. clear Hw'.
      specialize (IH (drop 8 s) (take 8 s)
                    ltac:(rewrite length_take; lia)).
      rewrite length_drop in IH.
      destruct (decide (8 * S n ≤ length s)%nat) as [Hn|Hn].
      * rewrite decide_True in IH by lia.
        destruct IH as (w'' & Hw'' & ->). cbn [mbind option_bind].
        exists w''. split; [exact Hw''|].
        rewrite drop_drop. do 3 f_equal. lia.
      * rewrite decide_False in IH by lia. now rewrite IH.
    + rewrite decide_False by lia. reflexivity.
Qed.

Lemma RandomMatrix_rows_full (M : nat) n : ∀ s w,
  length w = 8%nat →
  if decide (8 * M * n ≤ length s)%nat
  then ∃ w', length w' = 8%nat
             ∧ RandomMatrix_rows full_reader s w (Z.of_nat M) n
               = Some (spec_matrix s M n, w', drop (8 * M * n) s)
  else M ≠ 0%nat ∧ RandomMatrix_rows full_reader s w (Z.of_nat M) n = None.
Proof.
  induction n as [|n IH]; intros s w Hw.
  - rewrite decide_True by lia. exists w. rewrite Nat.mul_0_r. now rewrite drop_0.
  - cbn [RandomMatrix_rows spec_matrix].
    assert (Hmk : make 0 (Z.of_nat M) = Some (replicate M 0))
      by (unfold make; rewrite decide_True by lia; now rewrite Nat2Z.id).
    rewrite Hmk. cbn [mbind option_bind]. rewrite length_replicate.
    pose proof (RandomMatrix_row_full M s w Hw) as Hrow.
    destruct (decide (8 * M ≤ length s)%nat) as [HM|HM].
    + destruct Hrow as (w1 & Hw1 & ->). cbn [mbind option_bind].
      specialize (IH (drop (8 * M) s) w1 Hw1). rewrite length_drop in IH.
      destruct (decide (8 * M * S n ≤ length s)%nat) as [Hn|Hn].
      * rewrite decide_True in IH by lia.
        destruct IH as (w2 & Hw2 & ->). cbn [mbind option_bind].
        exists w2. split; [exact Hw2|]. rewrite drop_drop. do 3 f_equal. lia.
      * rewrite decide_False in IH by lia. destruct IH as [HM0 ->].
        split; [exact HM0|reflexivity].
    + rewrite decide_False by nia. rewrite Hrow. split; [lia|reflexivity].
Qed.

(** Over such a reader [RandomMatrix] is what the specification describes:
    [N] rows of [M = compressionFactor*N*64] cells, each decoded from the
    next eight bytes, and a panic when the reader has fewer than [8*N*M]
    bytes. *)
Lemma RandomMatrix_full (N cf : nat) s :
  let M := (cf * N * 64)%nat in
  if decide (8 * M * N ≤ length s)%nat
  then RandomMatrix full_reader s (Z.of_nat N) (Z.of_nat cf)
       = Some (spec_matrix s M N, drop (8 * M * N) s)
  else RandomMatrix full_reader s (Z.of_nat N) (Z.of_nat cf) = None.
Proof.
  intros M. unfold RandomMatrix.
  assert (Hmk : make (@nil Z) (Z.of_nat N) = Some (replicate N []))
    by (unfold make; rewrite decide_True by lia; now rewrite Nat2Z.id).
  rewrite Hmk. cbn [mbind option_bind]. rewrite length_replicate.
  change (make 0 8) with (Some (replicate 8 0)). cbn [mbind option_bind].
  replace (Z.of_nat cf * Z.of_nat N * 64) with (Z.of_nat M) by (unfold M; lia).
  pose proof (RandomMatrix_rows_full M N s (replicate 8 0) eq_refl) as H.
  destruct (decide (8 * M * N ≤ length s)%nat).
  - now destruct H as (w' & _ & ->).
  - now destruct H as [_ ->].
Qed.

Example RandomMatrix_full_ex :
  let s := (fun k : nat => Z.of_nat (k mod 251)) <$> seq 1 600 in
  RandomMatrix full_reader s 1 1 = Some (spec_matrix s 64 1, drop 512 s).
Proof. vm_compute. reflexivity. Qed.

Example RandomMatrix_exhausted_ex :
  RandomMatrix full_reader ((fun k : nat => Z.of_nat (k mod 251)) <$> seq 1 500) 1 1
  = None.
Proof. vm_compute. reflexivity. Qed.

(** C8: the code at a source that returns short reads. [RandomMatrix] drops
    the count returned by [Read] and tests the error alone, so a read that
    stores fewer than eight bytes is taken as a full one.
    - A [bytes.Reader] holding 507 bytes, five fewer than the 512 a 1 by 64
      matrix takes, serves 63 full reads and then a last read of three bytes
      with a nil error: [RandomMatrix] does not panic and returns a matrix
      whose last cell is those three bytes followed by bytes 3 to 7 of the
      cell before. On a source that fills the buffer or fails it panics
      there.
    - Over a reader that hands out one byte per call every cell is one fresh
      byte followed by the seven zeros the buffer held: the cells are the
      bytes themselves, all below 256, and not the decoding of eight bytes
      of the source. *)
Theorem RandomMatrix_short_reads :
  let s := (fun k : nat => Z.of_nat (k mod 251)) <$> seq 1 507 in
  (∃ A, RandomMatrix bytes_reader s 1 1 = Some (A, [])
        ∧ A ≠ spec_matrix s 64 1
        ∧ A !! 0%nat ≫= (.!! 63%nat)
          = Some (le_uint64 (drop 504 s ++ take 5 (drop 499 s))))
  ∧ RandomMatrix full_reader s 1 1 = None
  ∧ RandomMatrix one_byte_reader s 1 1 = Some ([take 64 s], drop 64 s)
  ∧ [take 64 s] ≠ spec_matrix s 64 1
  ∧ Forall (Forall (fun cell => 0 ≤ cell < 256)) [take 64 s].
Proof.
  intros s. split; [|split; [|split; [|split]]].
  - eexists. split; [vm_compute; reflexivity|]. split.
    + vm_compute. discriminate.
    + vm_compute. reflexivity.
  - vm_compute. reflexivity.
  - vm_compute. reflexivity.
  - vm_compute. discriminate.
  - vm_compute. repeat constructor; discriminate.
Qed.

(** * Further properties of the code *)

(** ** [sumBits] *)

Lemma sumBits_loop_some as_ b n : ∀ i x,
  (i + n ≤ 8)%nat → 0 ≤ x < 2 ^ 64 →
  (∀ k, (i ≤ k < i + n)%nat → spec_bit b k = true → (k < length as_)%nat) →
  sumBits_loop as_ b i n x = Some (uint64 (x + sumZ (bits_cells as_ 0 b i n))).
Proof.
  induction n as [|n IH]; intros i x Hi Hx Hin; cbn [sumBits_loop bits_cells].
  - cbn. now rewrite Z.add_0_r, uint64_small.
  - rewrite bit_selected_spec by lia.
    destruct (spec_bit b i) eqn:Eb.
    + change (8 * 0 + i)%nat with i.
      rewrite (list_lookup_lookup_total_lt as_ i) by (apply Hin; [lia|done]).
      cbn [mbind option_bind].
      rewrite IH
        by first [lia|apply uint64_range|intros; apply Hin; [lia|done]].
      rewrite uint64_add_l, sumZ_app. cbn [sumZ foldr]. f_equal. f_equal. lia.
    + rewrite app_nil_l. apply IH; [lia|lia|]. intros; apply Hin; [lia|done].
Qed.

Lemma sumBits_loop_none as_ b n : ∀ i x k,
  (i + n ≤ 8)%nat → (i ≤ k < i + n)%nat → spec_bit b k = true →
  (length as_ ≤ k)%nat →
  sumBits_loop as_ b i n x = None.
Proof.
  induction n as [|n IH]; intros i x k Hi Hk Hb Hlen; [lia|].
  cbn [sumBits_loop]. rewrite bit_selected_spec by lia.
  destruct (decide (k = i)) as [->|Hne].
  - rewrite Hb. now rewrite (lookup_ge_None_2 as_ i) by lia.
  - destruct (spec_bit b i).
    + destruct (as_ !! i); cbn [mbind option_bind]; [|done].
      apply (IH _ _ k); auto; lia.
    + apply (IH _ _ k); auto; lia.
Qed.

Lemma spec_bit_0 i : spec_bit 0 i = false.
Proof. unfold spec_bit. apply Z.bits_0. Qed.

Lemma bits_cells_0 row j n : ∀ b, bits_cells row j 0 b n = [].
Proof.
  induction n as [|n IH]; intros b; cbn [bits_cells]; [done|].
  now rewrite spec_bit_0, IH.
Qed.

(** X1. [sumBits(as, b)] is the sum modulo 2^64 of the words [as[i]] for the
    bit positions [i] in 0..8, most significant first, that are set in [b].
    It indexes [as] at those positions only: it returns when each of them
    lies inside [as] and panics when one does not, so on [b = 0] it returns
    0 for every slice, the empty one included. *)
Theorem sumBits_selected_sum as_ b :
  ((∀ i, (i < 8)%nat → spec_bit b i = true → (i < length as_)%nat) →
   sumBits as_ b = Some (uint64 (sumZ (bits_cells as_ 0 b 0 8))))
  ∧ (∀ i, (i < 8)%nat → spec_bit b i = true → (length as_ ≤ i)%nat →
          sumBits as_ b = None)
  ∧ sumBits as_ 0 = Some 0.
Proof.
  unfold sumBits. split; [|split].
  - intros Hin. rewrite sumBits_loop_some; [now rewrite Z.add_0_l|lia|lia|].
    intros k Hk. apply Hin. lia.
  - intros i Hi Hb Hlen. apply (sumBits_loop_none _ _ _ _ _ i); auto; lia.
  - rewrite sumBits_loop_some; [now rewrite bits_cells_0|lia|lia|].
    intros k _ Hk. now rewrite spec_bit_0 in Hk.
Qed.

Lemma sumBits_selected_sum_witness :
  sumBits [1; 2; 4; 8; 16; 32; 64; 128] 0xA1 = Some (1 + 4 + 128)
  ∧ sumBits [1; 2; 4] 0xA0 = Some (1 + 4)
  ∧ sumBits [1; 2; 4] 0xA1 = None
  ∧ sumBits [] 0 = Some 0.
Proof.
  split; [|split; [|split]].
  - apply (proj1 (sumBits_selected_sum [1; 2; 4; 8; 16; 32; 64; 128] 0xA1)).
    intros i Hi _. simpl. lia.
  - apply (proj1 (sumBits_selected_sum [1; 2; 4] 0xA0)).
    intros i Hi. do 3 (destruct i as [|i]; [simpl; lia|]).
    do 5 (destruct i as [|i]; [discriminate|]). lia.
  - apply (proj1 (proj2 (sumBits_selected_sum [1; 2; 4] 0xA1)) 7%nat);
      [lia|reflexivity|simpl; lia].
  - apply (proj2 (proj2 (sumBits_selected_sum [] 0))).
Defined.

(** ** [Matrix.LookupTable] *)

(** A row of tables is built only for a column count that is a multiple of
    eight, and then has one table per group of eight columns. *)
Lemma row_tables_Some row M tabs :
  0 ≤ M → row_tables row M = Some tabs →
  M mod 8 = 0 ∧ length tabs = Z.to_nat (M / 8) ∧ M ≤ len row.
Proof.
  intros HM0 Hrow. unfold row_tables in Hrow. apply mapM_Some_1 in Hrow.
  pose proof (Forall2_length _ _ _ Hrow) as Hlen. rewrite length_seq in Hlen.
  pose proof (Z.div_mod M 8 ltac:(lia)) as Hdm.
  pose proof (Z.mod_pos_bound M 8 ltac:(lia)) as Hr.
  assert (Hgroup : ∀ g : nat, (g < Z.to_nat ((M + 7) / 8))%nat →
            Z.of_nat g < M / 8 ∧ 8 * Z.of_nat g + 8 ≤ len row).
  { intros g Hg.
    destruct (Forall2_lookup_l _ _ _ g g Hrow) as (tab & _ & Htab);
      [now apply lookup_seq_lt|].
    cbn beta zeta in Htab.
    destruct (slice row (8 * Z.of_nat g) (8 * Z.of_nat g + 8)) as [as_|] eqn:Hs;
      cbn [mbind option_bind] in Htab; [|done].
    destruct (decide (8 * Z.of_nat g / 8 < M / 8)) as [Hlt|]; [|done].
    rewrite Z.mul_comm, Z.div_mul in Hlt by lia. split; [exact Hlt|].
    unfold slice in Hs. destruct (decide _) as [Hb|]; [lia|done]. }
  assert (Hmod : M mod 8 = 0).
  { destruct (decide (M mod 8 = 0)) as [|Hne]; [done|].
    assert (Hup : (M + 7) / 8 = M / 8 + 1)
      by (symmetry; apply Z.div_unique with (r := M mod 8 - 1); lia).
    pose proof (Z.div_pos M 8 ltac:(lia) ltac:(lia)).
    destruct (Hgroup (Z.to_nat (M / 8))); lia. }
  assert (Hup : (M + 7) / 8 = M / 8)
    by (symmetry; apply Z.div_unique with (r := 7); lia).
  split; [exact Hmod|]. split; [lia|].
  destruct (decide (M = 0)) as [->|Hne]; [apply len_nonneg|].
  pose proof (Z.div_pos M 8 ltac:(lia) ltac:(lia)).
  destruct (Hgroup (Z.to_nat (M / 8 - 1))); lia.
Qed.

(** [Matrix.LookupTable] returns only on a matrix with a row whose column
    count is a multiple of eight, giving one row of tables per matrix
    row. *)
Lemma Matrix_LookupTable_Some A At :
  Matrix_LookupTable A = Some At →
  ∃ A0 tabs0, A !! 0%nat = Some A0 ∧ At !! 0%nat = Some tabs0
    ∧ len A0 mod 8 = 0 ∧ len tabs0 = len A0 / 8 ∧ length At = length A.
Proof.
  unfold Matrix_LookupTable. intros HAt.
  destruct A as [|A0 A']; [done|]. cbn [lookup list_lookup mbind option_bind] in HAt.
  apply mapM_Some_1 in HAt. pose proof (Forall2_length _ _ _ HAt) as Hlen.
  destruct At as [|tabs0 At']; [done|].
  apply Forall2_cons_1 in HAt as [Hrow _].
  destruct (row_tables_Some A0 (len A0) tabs0 (len_nonneg _) Hrow) as (Hmod & Hl & _).
  exists A0, tabs0. split; [done|]. split; [done|]. split; [done|].
  split; [|done]. unfold len in *.
  pose proof (Z.div_pos (Z.of_nat (length A0)) 8 ltac:(lia) ltac:(lia)). lia.
Qed.

Lemma Matrix_LookupTable_Some_dims A N M At :
  dims A N M → Matrix_LookupTable A = Some At → 1 ≤ N ∧ M mod 8 = 0.
Proof.
  intros [<- HF] HAt.
  destruct (Matrix_LookupTable_Some A At HAt) as (A0 & tabs0 & HA0 & _ & Hmod & _).
  rewrite <- (proj1 (Forall_lookup _ _) HF 0%nat A0 HA0).
  split; [|exact Hmod]. apply lookup_lt_Some in HA0. unfold len. lia.
Qed.

(** X2. On a rectangular matrix [Matrix.LookupTable] returns exactly when the
    matrix has a row and its column count is a multiple of eight: on a
    matrix without rows [A[0]] panics, and on a column count that leaves a
    last group of fewer than eight columns the slice [A[i][j:j+8]] or the
    index [At[i][j/8]] is out of range. *)
Theorem Matrix_LookupTable_returns_iff A N M :
  dims A N M → (is_Some (Matrix_LookupTable A) ↔ 1 ≤ N ∧ M mod 8 = 0).
Proof.
  intros Hd. split.
  - intros [At HAt]. exact (Matrix_LookupTable_Some_dims A N M At Hd HAt).
  - intros [HN Hmod]. rewrite (Matrix_LookupTable_spec A N M) by done. eauto.
Qed.

Lemma Matrix_LookupTable_returns_iff_witness :
  is_Some (Matrix_LookupTable [Z.of_nat <$> seq 1 16])
  ∧ ¬ is_Some (Matrix_LookupTable [Z.of_nat <$> seq 1 12])
  ∧ ¬ is_Some (Matrix_LookupTable []).
Proof.
  assert (H16 : dims [Z.of_nat <$> seq 1 16] 1 16)
    by (split; [reflexivity|repeat constructor]).
  assert (H12 : dims [Z.of_nat <$> seq 1 12] 1 12)
    by (split; [reflexivity|repeat constructor]).
  assert (H0 : dims [] 0 0) by (split; [reflexivity|constructor]).
  split; [|split].
  - apply (proj2 (Matrix_LookupTable_returns_iff _ 1 16 H16)).
    split; [lia|reflexivity].
  - intros H. apply (proj1 (Matrix_LookupTable_returns_iff _ 1 12 H12)) in H.
    destruct H as [_ H]. discriminate H.
  - intros H. apply (proj1 (Matrix_LookupTable_returns_iff _ 0 0 H0)) in H. lia.
Defined.

(** X3. The table [Matrix.LookupTable] returns for an [N] by [M] matrix has
    the dimensions [[N][M/8][256]], and its entry [At[i][g][b]] is the sum
    modulo 2^64 of the cells [A[i][8g+k]] for the bit positions [k], most
    significant first, set in the byte [b]: the value of [sumBits] on the
    eight cells of group [g]. *)
Theorem Matrix_LookupTable_entries A N M At :
  dims A N M → Matrix_LookupTable A = Some At →
  len At = N
  ∧ ∀ (i : nat) row, A !! i = Some row →
      ∃ tabs, At !! i = Some tabs ∧ len tabs = M / 8
        ∧ ∀ g : nat, Z.of_nat g < M / 8 →
            ∃ tab, tabs !! g = Some tab ∧ len tab = 256
              ∧ ∀ b : nat, (b < 256)%nat →
                  tab !! b = Some (uint64 (sumZ (bits_cells row g (Z.of_nat b) 0 8)))
                  ∧ sumBits (take 8 (drop (8 * g) row)) (Z.of_nat b) = tab !! b.
Proof.
  intros Hd HAt.
  destruct (Matrix_LookupTable_Some_dims A N M At Hd HAt) as [HN Hmod].
  rewrite (Matrix_LookupTable_spec A N M Hd HN Hmod) in HAt. injection HAt as <-.
  destruct Hd as [HlenA HF]. unfold len in *.
  split; [now rewrite length_fmap|].
  intros i row Hrow. rewrite list_lookup_fmap, Hrow. cbn [fmap option_fmap option_map].
  eexists. split; [reflexivity|].
  pose proof (proj1 (Forall_lookup _ _) HF i row Hrow) as Hlenrow. cbn beta in Hlenrow.
  pose proof (Z.div_pos M 8 ltac:(lia) ltac:(lia)) as Hq.
  pose proof (Z.div_mod M 8 ltac:(lia)) as Hdm.
  split; [rewrite length_fmap, length_seq; lia|].
  intros g Hg. rewrite list_lookup_fmap, lookup_seq_lt by lia.
  cbn [fmap option_fmap option_map]. eexists. split; [reflexivity|].
  split; [unfold tab_of; now rewrite length_fmap, length_seq|].
  intros b Hb. unfold tab_of at 1 2.
  rewrite list_lookup_fmap, lookup_seq_lt by lia.
  cbn [fmap option_fmap option_map]. rewrite Nat.add_0_l, uint8_small by lia.
  split; [reflexivity|]. apply sumBits_slice. lia.
Qed.

Lemma Matrix_LookupTable_entries_witness :
  let A := [[1; 2; 3; 4; 5; 6; 7; 8]; [10; 20; 30; 40; 50; 60; 70; 80]] in
  ∃ At, Matrix_LookupTable A = Some At ∧ len At = 2
    ∧ ∃ tabs tab, At !! 1%nat = Some tabs ∧ len tabs = 1
        ∧ tabs !! 0%nat = Some tab ∧ len tab = 256
        ∧ tab !! 193%nat = Some (10 + 20 + 80).
Proof.
  intros A.
  assert (Hd : dims A 2 8) by (split; [reflexivity|repeat constructor]).
  destruct (Matrix_LookupTable A) as [At|] eqn:HAt;
    [|vm_compute in HAt; discriminate].
  destruct (Matrix_LookupTable_entries A 2 8 At Hd HAt) as [Hlen Hrows].
  destruct (Hrows 1%nat _ eq_refl) as (tabs & Htabs & Hlt & Hgroups).
  destruct (Hgroups 0%nat ltac:(reflexivity)) as (tab & Htab & Hltab & Hb).
  exists At. split; [reflexivity|]. split; [exact Hlen|].
  exists tabs, tab. split; [exact Htabs|]. split; [exact Hlt|].
  split; [exact Htab|]. split; [exact Hltab|].
  exact (proj1 (Hb 193%nat ltac:(lia))).
Defined.

(** X4. The table derived from a matrix declares the lengths the matrix
    declares: [InputLen] and [OutputLen] of [A.LookupTable()] are those of
    [A], the number of columns over eight and the number of rows. *)
Theorem LookupTable_lens_eq_Matrix_lens A At :
  Matrix_LookupTable A = Some At →
  LookupTable_InputLen At = Matrix_InputLen A
  ∧ LookupTable_OutputLen At = Matrix_OutputLen A
  ∧ ∃ A0, A !! 0%nat = Some A0
          ∧ InputLen (LookupTable_Compressor At) = Some (len A0 / 8)
          ∧ OutputLen (LookupTable_Compressor At) = Some (len A).
Proof.
  intros HAt.
  destruct (Matrix_LookupTable_Some A At HAt)
    as (A0 & tabs0 & HA0 & Htabs0 & _ & Hlen0 & Hlen).
  assert (Hil : LookupTable_InputLen At = Some (len A0 / 8)).
  { unfold LookupTable_InputLen. rewrite Htabs0. cbn [mbind option_bind].
    now rewrite Hlen0. }
  assert (Hol : LookupTable_OutputLen At = Some (len A)).
  { unfold LookupTable_OutputLen, len. now rewrite Hlen. }
  split; [|split].
  - unfold Matrix_InputLen. now rewrite HA0.
  - exact Hol.
  - exists A0. split; [exact HA0|]. now split.
Qed.

Lemma LookupTable_lens_eq_Matrix_lens_witness :
  ∃ At, Matrix_LookupTable A_1x128 = Some At
        ∧ LookupTable_InputLen At = Some 16
        ∧ LookupTable_OutputLen At = Some 1.
Proof.
  destruct (Matrix_LookupTable A_1x128) as [At|] eqn:HAt;
    [|vm_compute in HAt; discriminate].
  destruct (LookupTable_lens_eq_Matrix_lens A_1x128 At HAt) as (Hil & Hol & _).
  exists At. split; [reflexivity|]. split; [exact Hil|exact Hol].
Defined.

(** ** [LookupTable.Compress] on any table *)

Lemma groups_loop_cells msg tabs : ∀ j x,
  bytes msg → (j + length tabs ≤ length msg)%nat →
  Forall (fun tab => len tab = 256) tabs → 0 ≤ x < 2 ^ 64 →
  groups_loop tabs j msg x
  = Some (uint64 (x + sumZ (imap (fun k tab => tab !!! Z.to_nat (msg !!! (j + k)%nat))
                              tabs))).
Proof.
  induction tabs as [|tab tabs IH]; intros j x Hbytes Hlen Htabs Hx;
    cbn [groups_loop length] in *.
  - cbn. now rewrite Z.add_0_r, uint64_small.
  - destruct (lookup_lt_is_Some_2 msg j) as [m Hm]; [lia|].
    rewrite Hm. cbn [mbind option_bind].
    assert (0 ≤ m < 256) as Hrange
      by (exact (proj1 (Forall_lookup _ _) Hbytes j m Hm)).
    apply Forall_cons in Htabs as [Htab Htabs].
    destruct (index_Some tab m) as [a Ha]; [lia|].
    rewrite Ha. cbn [mbind option_bind].
    rewrite IH by (auto; try lia; apply uint64_range).
    rewrite imap_cons. cbn [sumZ foldr]. fold (sumZ).
    rewrite (imap_ext _ ((fun k tab0 => tab0 !!! Z.to_nat (msg !!! (j + k)%nat)) ∘ S))
      by (intros k tab0 _; cbn; do 3 f_equal; lia).
    rewrite uint64_add_l. f_equal. f_equal.
    rewrite Nat.add_0_r, (list_lookup_total_correct _ _ _ Hm).
    unfold index in Ha. rewrite decide_True in Ha by lia.
    rewrite (list_lookup_total_correct _ _ _ Ha).
    set (s := foldr Z.add 0 _). change (sumZ ?l) with (foldr Z.add 0 l). lia.
Qed.

Lemma LookupTable_rows_loop_cells msg rows : bytes msg → ∀ i dst,
  Forall (fun tabs => (length tabs ≤ length msg)%nat
                      ∧ Forall (fun tab => len tab = 256) tabs) rows →
  (i + length rows ≤ length dst)%nat →
  LookupTable_rows_loop rows i msg dst
  = Returned (take i dst ++ ((fun tabs => uint64 (sumZ (table_cells tabs msg))) <$> rows)
                ++ drop (i + length rows) dst).
Proof.
  intros Hbytes.
  induction rows as [|tabs rows IH]; intros i dst Hrows Hdst;
    cbn [LookupTable_rows_loop length fmap list_fmap] in *.
  - now rewrite Nat.add_0_r, app_nil_l, take_drop.
  - apply Forall_cons in Hrows as [[Hlen Htabs] Hrows].
    rewrite groups_loop_cells by (auto; lia).
    rewrite Z.add_0_l. fold (table_cells tabs msg).
    rewrite decide_True by lia.
    rewrite IH by (rewrite ?length_insert; auto; lia).
    f_equal.
    rewrite (take_S_r _ i (uint64 (sumZ (table_cells tabs msg))))
      by (apply list_lookup_insert_eq; lia).
    rewrite take_insert_ge, drop_insert_lt by lia.
    rewrite <- app_assoc. cbn [app].
    now replace (S i + length rows)%nat with (i + S (length rows))%nat by lia.
Qed.

(** X5. On any table of [N >= 1] rows of [L >= 1] groups of 256 words, a
    message of at least [L] bytes and a destination of at least [N] words,
    [LookupTable.Compress] returns and has set [dst[i]], for each row [i],
    to the sum modulo 2^64 of the words [At[i][j][msg[j]]] over the groups
    [j] of the row; the words of the destination from [N] on are as they
    were. *)
Theorem LookupTable_Compress_table_sum At N L dst msg :
  len At = N → 1 ≤ N → 1 ≤ L →
  Forall (fun tabs => len tabs = L ∧ Forall (fun tab => len tab = 256) tabs) At →
  L ≤ len msg → bytes msg → N ≤ len dst →
  ∃ dst',
    LookupTable_Compress At dst msg = Returned dst'
    ∧ length dst' = length dst
    ∧ (∀ (i : nat) tabs, At !! i = Some tabs →
         dst' !! i = Some (uint64 (sumZ (table_cells tabs msg))))
    ∧ (∀ i : nat, N ≤ Z.of_nat i → dst' !! i = dst !! i).
Proof.
  intros HN HN1 HL Hrect Hmsg Hbytes Hdst. unfold len in *.
  set (sums := (fun tabs => uint64 (sumZ (table_cells tabs msg))) <$> At).
  assert (Hsums : length sums = Z.to_nat N)
    by (unfold sums; rewrite length_fmap; lia).
  exists (sums ++ drop (Z.to_nat N) dst).
  split; [|split; [|split]].
  - unfold LookupTable_Compress.
    destruct (lookup_lt_is_Some_2 At 0) as [tabs0 Hl0]; [lia|].
    rewrite Hl0.
    pose proof (proj1 (Forall_lookup _ _) Hrect 0%nat tabs0 Hl0) as [Hlen0 _].
    destruct (index_Some msg (len tabs0 - 1)) as [m0 ->]; [unfold len; lia|].
    destruct (index_Some dst (len At - 1)) as [w0 ->]; [unfold len; lia|].
    rewrite LookupTable_rows_loop_cells; [|done| |lia].
    + unfold sums. rewrite take_0, app_nil_l, Nat.add_0_l. do 3 f_equal. lia.
    + eapply Forall_impl; [exact Hrect|]. cbn beta. intros tabs [Hl Ht].
      split; [lia|exact Ht].
  - rewrite length_app, length_drop, Hsums. lia.
  - intros i tabs Htabs.
    rewrite lookup_app_l by (rewrite Hsums; apply lookup_lt_Some in Htabs; lia).
    unfold sums. now rewrite list_lookup_fmap, Htabs.
  - intros i Hi.
    rewrite lookup_app_r by (rewrite Hsums; lia).
    rewrite Hsums, lookup_drop. f_equal. lia.
Qed.

Lemma LookupTable_Compress_table_sum_witness :
  let tab (k : Z) := (fun b : nat => k * Z.of_nat b) <$> seq 0 256 in
  let At := [[tab 1; tab 1000]; [tab 3; tab 5]] in
  ∃ dst',
    LookupTable_Compress At [0; 0; 9] [2; 7; 99] = Returned dst'
    ∧ dst' !! 0%nat = Some (2 + 7000)
    ∧ dst' !! 1%nat = Some (6 + 35)
    ∧ dst' !! 2%nat = Some 9.
Proof.
  intros tab At.
  destruct (LookupTable_Compress_table_sum At 2 2 [0; 0; 9] [2; 7; 99])
    as (dst' & Hret & _ & Hrows & Hrest).
  - reflexivity.
  - lia.
  - lia.
  - repeat constructor.
  - unfold len. simpl. lia.
  - repeat constructor; lia.
  - unfold len. simpl. lia.
  - exists dst'. split; [exact Hret|]. split; [|split].
    + exact (Hrows 0%nat _ eq_refl).
    + exact (Hrows 1%nat _ eq_refl).
    + rewrite (Hrest 2%nat) by lia. reflexivity.
Defined.

(** ** A message longer than the declared input *)

Lemma groups_loop_app tabs msg extra : ∀ j x,
  (j + length tabs ≤ length msg)%nat →
  groups_loop tabs j (msg ++ extra) x = groups_loop tabs j msg x.
Proof.
  induction tabs as [|tab tabs IH]; intros j x Hlen; cbn [groups_loop length] in *;
    [done|].
  rewrite lookup_app_l by lia.
  destruct (msg !! j) as [m|]; cbn [mbind option_bind]; [|done].
  destruct (index tab m); cbn [mbind option_bind]; [|done].
  apply IH. lia.
Qed.

Lemma LookupTable_rows_loop_app rows msg extra : ∀ i dst,
  Forall (fun tabs => (length tabs ≤ length msg)%nat) rows →
  LookupTable_rows_loop rows i (msg ++ extra) dst
  = LookupTable_rows_loop rows i msg dst.
Proof.
  induction rows as [|tabs rows IH]; intros i dst Hrows;
    cbn [LookupTable_rows_loop]; [done|].
  apply Forall_cons in Hrows as [Hlen Hrows].
  rewrite groups_loop_app by lia.
  destruct (groups_loop tabs 0 msg 0); [|done].
  destruct (decide (i < length dst)%nat); [|done]. now apply IH.
Qed.

Lemma bit_selected_0 b : bit_selected 0 b = false.
Proof. unfold bit_selected. now rewrite Z.shiftl_0_l. Qed.

Lemma bits_loop_0 row j n : ∀ b x, bits_loop row j 0 b n x = Some x.
Proof.
  induction n as [|n IH]; intros b x; cbn [bits_loop]; [done|].
  now rewrite bit_selected_0.
Qed.

Lemma bytes_loop_zeros row extra : ∀ j x,
  Forall (fun m => m = 0) extra → bytes_loop row j extra x = Some x.
Proof.
  induction extra as [|m extra IH]; intros j x Hz; cbn [bytes_loop]; [done|].
  apply Forall_cons in Hz as [-> Hz]. rewrite bits_loop_0.
  cbn [mbind option_bind]. now apply IH.
Qed.

Lemma bytes_loop_app row msg extra : ∀ j x,
  bytes_loop row j (msg ++ extra) x
  = (x' ← bytes_loop row j msg x; bytes_loop row (j + length msg) extra x').
Proof.
  induction msg as [|m msg IH]; intros j x; cbn [bytes_loop app length].
  - cbn [mbind option_bind]. now rewrite Nat.add_0_r.
  - destruct (bits_loop row j m 0 8 x) as [x1|]; cbn [mbind option_bind]; [|done].
    rewrite IH. now replace (S j + length msg)%nat with (j + S (length msg))%nat by lia.
Qed.

(** A set bit of a byte whose cells lie beyond the row stops the loop. *)
Lemma bits_loop_none row j m n : ∀ b x k,
  (b + n ≤ 8)%nat → (b ≤ k < b + n)%nat → spec_bit m k = true →
  (length row ≤ 8 * j)%nat →
  bits_loop row j m b n x = None.
Proof.
  induction n as [|n IH]; intros b x k Hb Hk Hbit Hrow; [lia|].
  cbn [bits_loop]. rewrite bit_selected_spec by lia.
  destruct (decide (k = b)) as [->|Hne].
  - rewrite Hbit. now rewrite (lookup_ge_None_2 row) by lia.
  - destruct (spec_bit m b).
    + rewrite (lookup_ge_None_2 row) by lia. reflexivity.
    + apply (IH _ _ k); auto; lia.
Qed.

(** A byte other than zero has a set bit. *)
Lemma byte_has_bit m : 0 < m < 256 → ∃ k : nat, (k < 8)%nat ∧ spec_bit m k = true.
Proof.
  intros Hm.
  assert (Hlog : 0 ≤ Z.log2 m < 8).
  { split; [apply Z.log2_nonneg|]. apply Z.log2_lt_pow2; lia. }
  exists (Z.to_nat (7 - Z.log2 m)). split; [lia|].
  unfold spec_bit. rewrite Z2Nat.id by lia.
  replace (7 - (7 - Z.log2 m)) with (Z.log2 m) by lia.
  apply Z.bit_log2. lia.
Qed.

Lemma bytes_loop_beyond row extra : ∀ j x,
  bytes extra → ¬ Forall (fun m => m = 0) extra → (length row ≤ 8 * j)%nat →
  bytes_loop row j extra x = None.
Proof.
  induction extra as [|m extra IH]; intros j x Hbytes Hnz Hrow.
  - destruct Hnz. constructor.
  - cbn [bytes_loop]. apply Forall_cons in Hbytes as [Hm Hbytes].
    destruct (decide (m = 0)) as [->|Hne].
    + rewrite bits_loop_0. cbn [mbind option_bind].
      apply IH; [done| |lia]. intros Hz. apply Hnz. now constructor.
    + destruct (byte_has_bit m ltac:(lia)) as (k & Hk & Hbit).
      now rewrite (bits_loop_none row j m 8 0 x k) by (auto; lia).
Qed.

Lemma Matrix_rows_loop_zeros rows msg extra : ∀ i dst,
  Forall (fun m => m = 0) extra →
  Matrix_rows_loop rows i (msg ++ extra) dst = Matrix_rows_loop rows i msg dst.
Proof.
  induction rows as [|row rows IH]; intros i dst Hz; cbn [Matrix_rows_loop]; [done|].
  rewrite bytes_loop_app.
  destruct (bytes_loop row 0 msg 0) as [x|]; cbn [mbind option_bind]; [|done].
  rewrite bytes_loop_zeros by done.
  destruct (decide (i < length dst)%nat); [|done]. now apply IH.
Qed.

(** X6. Past the declared input length the two compressors part: on a
    message of [M/8] bytes followed by further bytes, [LookupTable.Compress]
    over the table of an [N] by [M] matrix does what it does on the first
    [M/8] bytes alone, whereas [Matrix.Compress] ranges over the whole
    message: it does what it does on the first [M/8] bytes when the further
    bytes are all zero, and panics, with the destination untouched, as soon
    as one of them is not, on the index [A[0][8j+b]] of its first set
    bit. *)
Theorem Compress_beyond_InputLen A N M At dst msg extra :
  dims A N M → 8 ≤ M → Matrix_LookupTable A = Some At →
  len msg = M / 8 → bytes extra →
  LookupTable_Compress At dst (msg ++ extra) = LookupTable_Compress At dst msg
  ∧ (Forall (fun m => m = 0) extra →
     Matrix_Compress A dst (msg ++ extra) = Matrix_Compress A dst msg)
  ∧ (¬ Forall (fun m => m = 0) extra →
     Matrix_Compress A dst (msg ++ extra) = Panicked dst).
Proof.
  intros Hd HM8 HAt Hmsg Hextra.
  destruct (Matrix_LookupTable_Some_dims A N M At Hd HAt) as [HN Hmod].
  pose proof (Z.div_mod M 8 ltac:(lia)) as Hdm.
  assert (Hq : 1 ≤ M / 8) by (apply Z.div_le_lower_bound; lia).
  rewrite (Matrix_LookupTable_spec A N M Hd HN Hmod) in HAt. injection HAt as <-.
  destruct Hd as [HlenA HF]. unfold len in *.
  destruct (lookup_lt_is_Some_2 A 0) as [A0 HA0]; [lia|].
  pose proof (proj1 (Forall_lookup _ _) HF 0%nat A0 HA0) as HlenA0. cbn beta in HlenA0.
  assert (Hidx : ∀ extra', ∃ m0, index (msg ++ extra') (M / 8 - 1) = Some m0).
  { intros extra'. apply index_Some. unfold len. rewrite length_app. lia. }
  split; [|split].
  - unfold LookupTable_Compress.
    rewrite list_lookup_fmap, HA0. cbn [fmap option_fmap option_map].
    unfold len. rewrite length_fmap, length_seq, Z2Nat.id by lia.
    destruct (Hidx extra) as [m0 ->].
    destruct (Hidx []) as [m1 Hm1]. rewrite app_nil_r in Hm1. rewrite Hm1.
    destruct (index dst _); [|done].
    apply LookupTable_rows_loop_app.
    apply Forall_fmap, Forall_forall. intros row _. cbn.
    rewrite length_fmap, length_seq. lia.
  - intros Hz. unfold Matrix_Compress. rewrite HA0. unfold len. rewrite HlenA0.
    destruct (Hidx extra) as [m0 ->].
    destruct (Hidx []) as [m1 Hm1]. rewrite app_nil_r in Hm1. rewrite Hm1.
    destruct (index dst _); [|done]. now apply Matrix_rows_loop_zeros.
  - intros Hnz. unfold Matrix_Compress. rewrite HA0.
    destruct (index (msg ++ extra) _); [|done]. destruct (index dst _); [|done].
    destruct A as [|A0' A']; [done|]. injection HA0 as ->.
    cbn [Matrix_rows_loop]. rewrite bytes_loop_app.
    rewrite bytes_loop_spec by lia. cbn [mbind option_bind].
    now rewrite bytes_loop_beyond by (auto; lia).
Qed.

Lemma Compress_beyond_InputLen_witness :
  let A := [[1; 2; 3; 4; 5; 6; 7; 8]; [10; 20; 30; 40; 50; 60; 70; 80]] in
  ∃ At, Matrix_LookupTable A = Some At
    ∧ LookupTable_Compress At [0; 0] [0xC1; 0; 4] = Returned [11; 110]
    ∧ Matrix_Compress A [0; 0] [0xC1; 0; 0] = Returned [11; 110]
    ∧ Matrix_Compress A [0; 0] [0xC1; 0; 4] = Panicked [0; 0].
Proof.
  intros A.
  assert (Hd : dims A 2 8) by (split; [reflexivity|repeat constructor]).
  destruct (Matrix_LookupTable A) as [At|] eqn:HAt;
    [|vm_compute in HAt; discriminate].
  assert (Hval : LookupTable_Compress At [0; 0] [0xC1] = Returned [11; 110])
    by (vm_compute in HAt; injection HAt as <-; vm_compute; reflexivity).
  exists At. split; [reflexivity|]. split; [|split].
  - destruct (Compress_beyond_InputLen A 2 8 At [0; 0] [0xC1] [0; 4] Hd
                ltac:(lia) HAt eq_refl ltac:(repeat constructor; lia)) as (H & _ & _).
    cbn [app] in H. now rewrite H.
  - destruct (Compress_beyond_InputLen A 2 8 At [0; 0] [0xC1] [0; 0] Hd
                ltac:(lia) HAt eq_refl ltac:(repeat constructor; lia)) as (_ & H & _).
    cbn [app] in H. rewrite H by (repeat constructor). reflexivity.
  - destruct (Compress_beyond_InputLen A 2 8 At [0; 0] [0xC1] [0; 4] Hd
                ltac:(lia) HAt eq_refl ltac:(repeat constructor; lia)) as (_ & _ & H).
    apply H. intros Hz. apply Forall_cons in Hz as [_ Hz].
    apply Forall_cons in Hz as [Hz _]. discriminate Hz.
Defined.

(** ** Messages with no bit or a single bit set *)

Lemma msg_cells_zeros row n : ∀ j, msg_cells row j (replicate n 0) = [].
Proof.
  induction n as [|n IH]; intros j; cbn [replicate msg_cells]; [done|].
  now rewrite bits_cells_0, IH.
Qed.

Lemma msg_cells_app row m1 m2 : ∀ j,
  msg_cells row j (m1 ++ m2) = msg_cells row j m1 ++ msg_cells row (j + length m1) m2.
Proof.
  induction m1 as [|m m1 IH]; intros j; cbn [msg_cells app length].
  - now rewrite Nat.add_0_r.
  - rewrite IH, <- app_assoc.
    now replace (S j + length m1)%nat with (j + S (length m1))%nat by lia.
Qed.

Lemma bits_cells_one_bit row j (b : nat) :
  (b < 8)%nat → bits_cells row j (2 ^ (7 - Z.of_nat b)) 0 8 = [row !!! (8 * j + b)%nat].
Proof.
  intros Hb.
  do 8 (destruct b as [|b]; [reflexivity|]). lia.
Qed.

(** X7. [Matrix.Compress] maps the all-zero message to zero words, and a
    message whose only set bit is bit [b], most significant first, of byte
    [j] to column [8j+b] of the matrix: [dst[i] = A[i][8j+b]] for each
    row [i]. *)
Theorem Matrix_Compress_one_bit A N M dst (j b : nat) :
  dims A N M → 1 ≤ N → 8 * Z.of_nat j + 8 ≤ M → (b < 8)%nat → N ≤ len dst →
  Forall (Forall (fun a => 0 ≤ a < 2 ^ 64)) A →
  Matrix_Compress A dst (replicate (Z.to_nat (M / 8)) 0)
  = Returned (replicate (Z.to_nat N) 0 ++ drop (Z.to_nat N) dst)
  ∧ Matrix_Compress A dst (<[j := 2 ^ (7 - Z.of_nat b)]> (replicate (Z.to_nat (M / 8)) 0))
    = Returned (((fun row => row !!! (8 * j + b)%nat) <$> A) ++ drop (Z.to_nat N) dst).
Proof.
  intros Hd HN Hj Hb Hdst Hcells.
  assert (Hq : Z.of_nat j + 1 ≤ M / 8) by (apply Z.div_le_lower_bound; lia).
  split.
  - rewrite (Matrix_Compress_spec A N M)
      by (auto; try lia; unfold len; rewrite length_replicate; lia).
    do 2 f_equal. destruct Hd as [HlenA _]. unfold len in HlenA.
    replace (Z.to_nat N) with (length A) by lia.
    rewrite <- fmap_const_replicate. apply list_fmap_ext. intros i row _.
    unfold spec_row_sum. now rewrite spec_selected_cells, msg_cells_zeros.
  - rewrite (Matrix_Compress_spec A N M)
      by (auto; try lia; unfold len; rewrite length_insert, length_replicate; lia).
    do 2 f_equal. apply list_fmap_ext. intros i row Hrow.
    unfold spec_row_sum. rewrite spec_selected_cells.
    rewrite insert_replicate_lt by lia.
    rewrite msg_cells_app, msg_cells_zeros, app_nil_l, length_replicate.
    cbn [msg_cells]. rewrite msg_cells_zeros, app_nil_r, Nat.add_0_l.
    rewrite bits_cells_one_bit by done. cbn [foldr]. rewrite Z.add_0_r.
    apply uint64_small.
    pose proof (proj1 (Forall_lookup _ _) Hcells i row Hrow) as Hr.
    destruct Hd as [_ HF].
    pose proof (proj1 (Forall_lookup _ _) HF i row Hrow) as Hlen. cbn beta in Hlen.
    destruct (lookup_lt_is_Some_2 row (8 * j + b)) as [a Ha]; [unfold len in Hlen; lia|].
    rewrite (list_lookup_total_correct _ _ _ Ha).
    exact (proj1 (Forall_lookup _ _) Hr _ a Ha).
Qed.

Lemma Matrix_Compress_one_bit_witness :
  let A := [[1; 2; 3; 4; 5; 6; 7; 8; 9; 10; 11; 12; 13; 14; 15; 16];
            [10; 20; 30; 40; 50; 60; 70; 80; 90; 100; 110; 120; 130; 140; 150; 160]] in
  Matrix_Compress A [5; 5; 5] [0; 0] = Returned [0; 0; 5]
  ∧ Matrix_Compress A [5; 5; 5] [0; 0x20] = Returned [11; 110; 5].
Proof.
  intros A.
  exact (Matrix_Compress_one_bit A 2 16 [5; 5; 5] 1 2
           ltac:(split; [reflexivity|repeat constructor])
           ltac:(lia) ltac:(lia) ltac:(lia) ltac:(unfold len; simpl; lia)
           ltac:(repeat constructor; lia)).
Defined.

(** ** Construction *)

(** X8. [New] over a matrix returns exactly when the matrix has a row and
    its input length [len(A[0])/8] is at least the [8*len(A)] bytes of the
    chaining value; on a matrix without rows [InputLen] panics at [A[0]],
    and on a shorter input [make] is called with a negative length. The
    digest it returns has [Size() = 8*len(A)], [BlockSize() =
    len(A[0])/8 - 8*len(A)], a zero chaining value of [len(A)] words, a carry
    buffer of [BlockSize()] bytes and both counts at zero. *)
Theorem New_Matrix A :
  match A with
  | [] => New (Matrix_Compressor A) = None
  | A0 :: _ =>
      if decide (8 * len A ≤ len A0 / 8)
      then ∃ d, New (Matrix_Compressor A) = Some d
                ∧ Size d = 8 * len A ∧ BlockSize d = len A0 / 8 - 8 * len A
                ∧ d_h d = replicate (length A) 0 ∧ len (d_x d) = BlockSize d
                ∧ d_nx d = 0 ∧ d_len d = 0
      else New (Matrix_Compressor A) = None
  end.
Proof.
  destruct A as [|A0 A'] eqn:EA; [reflexivity|]. rewrite <- EA.
  assert (Hil : InputLen (Matrix_Compressor A) = Some (len A0 / 8))
    by now rewrite EA.
  assert (Hol : OutputLen (Matrix_Compressor A) = Some (len A)) by reflexivity.
  pose proof (len_nonneg A) as HlenA.
  destruct (decide (8 * len A ≤ len A0 / 8)) as [HB|HB].
  - eexists. split; [apply (New_spec _ _ _ Hil Hol); lia|].
    unfold Size, BlockSize, len in *. cbn [d_size d_blockSize d_h d_x d_nx d_len].
    rewrite length_replicate, Nat2Z.id.
    set (q := Z.of_nat (length A0) / 8) in *.
    repeat split; try reflexivity; lia.
  - unfold New. rewrite Hol, Hil. cbn [mbind option_bind]. unfold make.
    set (q := len A0 / 8) in *.
    destruct (decide (0 ≤ q - len A * 8)); [lia|done].
Qed.

(** ** The block size over the life of a digest *)

Lemma New_fields c il ol d :
  InputLen c = Some il → OutputLen c = Some ol → New c = Some d →
  d_c d = c ∧ d_size d = 8 * ol ∧ d_blockSize d = il - 8 * ol
  ∧ d_nx d = 0 ∧ 0 ≤ d_blockSize d.
Proof.
  intros Hil Hol Hnew. unfold New, make in Hnew. rewrite Hol, Hil in Hnew.
  cbn [mbind option_bind] in Hnew.
  destruct (decide (0 ≤ il - ol * 8)); cbn [mbind option_bind] in Hnew; [|done].
  destruct (decide (0 ≤ ol)); cbn [mbind option_bind] in Hnew; [|done].
  injection Hnew as <-. cbn. repeat split; lia.
Qed.

(** X9. [Size()] and [BlockSize()] are fixed when the digest is made and no
    [Write] or [Reset] changes them, nor the compressor: in every state a
    caller can reach they are [8*OutputLen()] and
    [InputLen() - 8*OutputLen()]. *)
Theorem Size_BlockSize_constant c il ol d :
  InputLen c = Some il → OutputLen c = Some ol → reachable c d →
  d_c d = c ∧ Size d = 8 * ol ∧ BlockSize d = il - 8 * ol.
Proof.
  intros Hil Hol Hreach. unfold Size, BlockSize.
  induction Hreach as [d Hnew|d _ IH|d p d' _ IH Hw].
  - destruct (New_fields c il ol d Hil Hol Hnew) as (Hc & Hs & HB & _). done.
  - exact IH.
  - destruct (Write_config d p d' Hw) as (Hc & Hs & HB).
    destruct IH as (IHc & IHs & IHB). repeat split; congruence.
Qed.

Lemma Size_BlockSize_constant_witness :
  reachable (Matrix_Compressor A_1x128) d_nine
  ∧ Size d_nine = 8 * 1 ∧ BlockSize d_nine = 16 - 8 * 1.
Proof.
  assert (Hr : reachable (Matrix_Compressor A_1x128) d_nine).
  { eapply reach_Write; [apply reach_New; exact New_A_1x128|exact Write_nine]. }
  split; [exact Hr|].
  exact (proj2 (Size_BlockSize_constant (Matrix_Compressor A_1x128) 16 1 d_nine
                  eq_refl eq_refl Hr)).
Defined.

(** ** A block size of zero *)

Lemma Write_zero_blockSize d p :
  d_nx d = 0 → d_blockSize d = 0 → Write d p = None.
Proof.
  intros Hnx HB. unfold Write, Write_fill.
  cbn [d_nx set_len]. rewrite decide_False by lia. cbn [mbind option_bind].
  unfold Write_blocks. cbn [d_blockSize set_len].
  rewrite decide_True by (pose proof (len_nonneg p); lia).
  now rewrite decide_True by done.
Qed.

Lemma Sum_zero_blockSize d in_ : d_blockSize d = 0 → Sum d in_ = None.
Proof.
  intros HB. unfold Sum, checkSum, padding. rewrite copy_id, HB. reflexivity.
Qed.

Lemma reachable_zero_blockSize c d :
  reachable c d → d_blockSize d = 0 → d_nx d = 0.
Proof.
  intros Hreach.
  induction Hreach as [d Hnew|d _ IH|d p d' _ IH Hw]; intros HB.
  - unfold New in Hnew.
    destruct (OutputLen c) as [ol|]; cbn [mbind option_bind] in Hnew; [|done].
    destruct (InputLen c) as [il|]; cbn [mbind option_bind] in Hnew; [|done].
    destruct (make 0 (il - ol * 8)); cbn [mbind option_bind] in Hnew; [|done].
    destruct (make 0 ol); cbn [mbind option_bind] in Hnew; [|done].
    now injection Hnew as <-.
  - reflexivity.
  - destruct (Write_config d p d' Hw) as (_ & _ & HB').
    rewrite Write_zero_blockSize in Hw by (try apply IH; congruence). done.
Qed.

(** X10. A compressor whose input is no longer than its chaining value
    ([InputLen() = 8*OutputLen()], as for a matrix made with compression
    factor 1) gives a digest [New] accepts but nothing can be hashed with:
    the block size is 0, every [Write], of the empty slice too, panics on
    the division [len(p) / d.blockSize], and [Sum] panics on [tmp[0]]. *)
Theorem zero_blockSize_unusable c d :
  reachable c d → BlockSize d = 0 →
  (∀ p, Write d p = None) ∧ (∀ in_, Sum d in_ = None).
Proof.
  unfold BlockSize. intros Hreach HB. split.
  - intros p. apply Write_zero_blockSize; [|exact HB].
    now apply (reachable_zero_blockSize c).
  - intros in_. now apply Sum_zero_blockSize.
Qed.

Lemma zero_blockSize_unusable_witness :
  ∃ d, New (Matrix_Compressor [Z.of_nat <$> seq 1 64]) = Some d ∧ BlockSize d = 0
       ∧ Write d [] = None ∧ Write d [1; 2; 3] = None ∧ Sum d [] = None.
Proof.
  pose proof (New_spec (Matrix_Compressor [Z.of_nat <$> seq 1 64]) 8 1
                eq_refl eq_refl ltac:(lia) ltac:(lia)) as Hnew.
  destruct (zero_blockSize_unusable _ _ (reach_New _ _ Hnew) eq_refl) as [HW HS].
  eexists. split; [exact Hnew|]. split; [reflexivity|].
  split; [apply HW|]. split; [apply HW|apply HS].
Defined.

(** ** The empty write *)

Lemma Write_nil d : wf d → Write d [] = Some d.
Proof.
  intros [HB Hsize Hil Hol Hx Hnx Hlen]. unfold Write.
  change (len (@nil Z)) with 0. rewrite Z.add_0_r, uint64_small by lia.
  replace (set_len d (d_len d)) with d by now destruct d.
  assert (Hfill : Write_fill d [] = Some (d, [])).
  { unfold Write_fill. destruct (decide (0 < d_nx d)); [|done].
    rewrite slice_Some by lia. cbn [mbind option_bind].
    unfold copy_slice. cbn [length]. rewrite Nat.min_0_r, Nat.add_0_r, take_0.
    change (Z.of_nat 0) with 0.
    cbn [app]. rewrite take_drop, Z.add_0_r, set_x_id.
    rewrite decide_False by lia. reflexivity. }
  rewrite Hfill. cbn [mbind option_bind].
  unfold Write_blocks. change (len (@nil Z)) with 0.
  rewrite decide_False by lia. cbn [mbind option_bind].
  unfold Write_tail. now rewrite decide_False by (change (len (@nil Z)) with 0; lia).
Qed.

(** X11. On a digest of positive block size a [Write] of the empty slice
    returns and changes nothing: no field of the digest, not the carry
    buffer, and no compression is called. *)
Theorem Write_empty_is_noop c il ol d :
  InputLen c = Some il → OutputLen c = Some ol → 0 < il - 8 * ol →
  reachable c d → Write d [] = Some d.
Proof.
  intros Hil Hol HB Hreach. apply Write_nil.
  exact (proj1 (reachable_wf c il ol Hil Hol HB d Hreach)).
Qed.

Lemma Write_empty_is_noop_witness : Write d_nine [] = Some d_nine.
Proof.
  apply (Write_empty_is_noop (Matrix_Compressor A_1x128) 16 1);
    [reflexivity|reflexivity|lia|].
  eapply reach_Write; [apply reach_New; exact New_A_1x128|exact Write_nine].
Defined.

(** ** Counting the compressions *)

Lemma run_blocks_inputs c b n : ∀ h data h' ms,
  (n * b ≤ length data)%nat → run_blocks c b n h data = Some (h', ms) →
  Forall (fun m => length m = (8 * length h + b)%nat) ms.
Proof.
  induction n as [|n IH]; intros h data h' ms Hdata Hrun; cbn [run_blocks] in Hrun.
  - injection Hrun as <- <-. constructor.
  - unfold compress_block in Hrun.
    destruct (Compress c h _) as [h1|] eqn:Hc; cbn [returned mbind option_bind] in Hrun;
      [|done].
    destruct (run_blocks c b n h1 (drop b data)) as [[h2 ms']|] eqn:Hr;
      cbn [mbind option_bind] in Hrun; [|done].
    injection Hrun as <- <-. constructor.
    + unfold chain_input. rewrite length_app, length_chain_bytes, length_take. lia.
    + rewrite <- (Compress_length _ _ _ _ Hc).
      apply (IH h1 (drop b data) h2); [rewrite length_drop; lia|exact Hr].
Qed.

(** X12. After [New] and any sequence of [Write] calls that returned, of
    [n] bytes in total, over a compressor of positive block size [B]: the
    compressor has been called [n / B] times, each time on [InputLen()]
    bytes; the carry buffer holds the last [n mod B] bytes written, which
    no compression has seen yet; and the byte counter is [n] modulo
    2^64. *)
Theorem Writes_compression_calls c il ol chunks d0 d :
  InputLen c = Some il → OutputLen c = Some ol → 0 < il - 8 * ol →
  New c = Some d0 → Writes d0 chunks = Some d →
  len (d_calls d) = len (concat chunks) / (il - 8 * ol)
  ∧ Forall (fun m => len m = il) (d_calls d)
  ∧ d_nx d = len (concat chunks) mod (il - 8 * ol)
  ∧ take (Z.to_nat (d_nx d)) (d_x d)
    = drop (Z.to_nat (len (concat chunks) / (il - 8 * ol) * (il - 8 * ol)))
        (concat chunks)
  ∧ d_len d = len (concat chunks) mod 2 ^ 64.
Proof.
  intros Hil Hol HB Hnew HW.
  destruct (Writes_counts_mod c il ol chunks d0 d Hil Hol HB Hnew HW)
    as (_ & _ & _ & Hlen & Hnx).
  destruct (New_wf c il ol d0 Hil Hol HB Hnew)
    as (Hwf0 & Hc0 & HB0 & _ & Hv0 & Hcalls0).
  pose proof (Writes_spec chunks d0 Hwf0) as HS.
  rewrite HW, Hv0, Hc0, HB0, Hcalls0 in HS.
  unfold absorb in HS. cbn [v_h v_buf v_len app] in HS.
  set (b := Z.to_nat (il - 8 * ol)) in *.
  set (m := concat chunks) in *.
  destruct (run_blocks c b (length m / b) (replicate (Z.to_nat ol) 0) m)
    as [[h' ms]|] eqn:Hrun; cbn [mbind option_bind] in HS; [|done].
  destruct HS as (Hwf & _ & Hv & Hcalls).
  assert (Hol0 : 0 ≤ ol).
  { destruct Hwf0 as [_ _ _ Hol' _ _ _]. rewrite Hc0, Hol in Hol'.
    injection Hol' as ->. apply len_nonneg. }
  assert (Hdiv : Z.of_nat (length m / b) = len m / (il - 8 * ol)).
  { unfold len. rewrite Nat2Z.inj_div. f_equal. unfold b. lia. }
  assert (Hfit : (length m / b * b ≤ length m)%nat)
    by (rewrite Nat.mul_comm; apply Nat.Div0.mul_div_le).
  split; [|split; [|split; [exact Hnx|split; [|exact Hlen]]]].
  - rewrite Hcalls. unfold len at 1.
    now rewrite (run_blocks_count c b _ _ _ _ _ Hrun).
  - rewrite Hcalls.
    eapply Forall_impl; [exact (run_blocks_inputs c b _ _ _ _ _ Hfit Hrun)|].
    cbn beta. intros msg Hmsg. unfold len. rewrite Hmsg, length_replicate.
    unfold b. lia.
  - apply (f_equal v_buf) in Hv. cbn [v_buf view_of] in Hv. rewrite Hv.
    f_equal. rewrite <- Hdiv. unfold b. lia.
Qed.

Lemma Writes_compression_calls_witness :
  d_calls d_nine = [[0; 0; 0; 0; 0; 0; 0; 0; 1; 2; 3; 4; 5; 6; 7; 8]]
  ∧ len (d_calls d_nine) = 9 / 8
  ∧ d_nx d_nine = 9 mod 8
  ∧ take (Z.to_nat (d_nx d_nine)) (d_x d_nine) = [9].
Proof.
  destruct (Writes_compression_calls (Matrix_Compressor A_1x128) 16 1
              [[1; 2; 3; 4; 5; 6; 7; 8; 9]] d_fresh d_nine
              eq_refl eq_refl ltac:(lia) New_A_1x128 eq_refl)
    as (Hcount & _ & Hnx & Hbuf & _).
  split; [reflexivity|]. split; [exact Hcount|]. split; [exact Hnx|exact Hbuf].
Defined.

(** ** The result of [Sum] *)

Lemma padding_wf d d' : wf d → padding d = Some d' → wf d' ∧ same_config d d'.
Proof.
  intros Hwf Hpad. unfold padding in Hpad.
  destruct (make 0 _) as [tmp|]; cbn [mbind option_bind] in Hpad; [|done].
  destruct (index tmp 0); cbn [mbind option_bind] in Hpad; [|done].
  destruct (decide (uint64 (d_blockSize d) = 0)); [done|].
  match type of Hpad with context [(if ?cnd then ?a else ?b) ≫= _] =>
    destruct (if cnd then a else b) as [pad|]; cbn [mbind option_bind] in Hpad; [|done]
  end.
  destruct (Write d pad) as [d1|] eqn:H1; cbn [mbind option_bind] in Hpad; [|done].
  destruct (PutUint64 _ 0 _) as [tmp'|]; cbn [mbind option_bind] in Hpad; [|done].
  destruct (slice tmp' 0 8) as [lf|]; cbn [mbind option_bind] in Hpad; [|done].
  destruct (Write_counts d pad d1 Hwf H1) as (Hwf1 & (Hc1 & Hs1 & HB1) & _).
  destruct (Write_counts d1 lf d' Hwf1 Hpad) as (Hwf' & (Hc' & Hs' & HB') & _).
  split; [exact Hwf'|]. split; [|split]; congruence.
Qed.

Lemma reachable_blockSize c il ol d :
  InputLen c = Some il → OutputLen c = Some ol → reachable c d →
  d_blockSize d = il - 8 * ol ∧ d_size d = 8 * ol ∧ 0 ≤ il - 8 * ol.
Proof.
  intros Hil Hol Hreach.
  induction Hreach as [d Hnew|d _ IH|d p d' _ IH Hw].
  - destruct (New_fields c il ol d Hil Hol Hnew) as (_ & Hs & HB & _ & H0). lia.
  - exact IH.
  - destruct (Write_config d p d' Hw) as (_ & Hs & HB). lia.
Qed.

(** X13. Whenever [Sum(in)] returns on a digest a caller can reach, the
    result is [in] followed by exactly [Size()] bytes, and these bytes are
    what [Sum(nil)] returns: the argument is a prefix the digest is
    appended to and has no part in it. *)
Theorem Sum_appends_Size_bytes c il ol d in_ out :
  InputLen c = Some il → OutputLen c = Some ol → reachable c d →
  Sum d in_ = Some out →
  ∃ h, out = in_ ++ h ∧ len h = Size d ∧ Sum d [] = Some h.
Proof.
  intros Hil Hol Hreach HSum.
  destruct (reachable_blockSize c il ol d Hil Hol Hreach) as (HB & _ & HB0).
  destruct (decide (il - 8 * ol = 0)) as [Hz|Hnz].
  { rewrite Sum_zero_blockSize in HSum by lia. discriminate. }
  destruct (reachable_wf c il ol Hil Hol ltac:(lia) d Hreach) as [Hwf _].
  unfold Sum, checkSum in *. rewrite copy_id in *.
  destruct (padding d) as [d'|] eqn:Hpad; cbn [mbind option_bind] in *; [|done].
  destruct (padding_wf d d' Hwf Hpad) as ([_ Hsize _ _ _ _ _] & (_ & Hs & _)).
  destruct (decide (d_nx d' ≠ 0)); [done|].
  unfold make in *. unfold len in Hsize.
  rewrite decide_True in * by lia. cbn [mbind option_bind] in *.
  replace (Z.to_nat (d_size d')) with (8 * length (d_h d'))%nat in * by lia.
  rewrite put_words_digest in *. cbn [mbind option_bind] in *.
  injection HSum as <-. exists (chain_bytes (d_h d')).
  split; [reflexivity|]. split; [|reflexivity].
  unfold Size, len. rewrite length_chain_bytes. lia.
Qed.

Lemma Sum_appends_Size_bytes_witness :
  ∃ h, Sum d_nine [7; 7] = Some ([7; 7] ++ h) ∧ len h = 8 ∧ Sum d_nine [] = Some h.
Proof.
  assert (Hr : reachable (Matrix_Compressor A_1x128) d_nine).
  { eapply reach_Write; [apply reach_New; exact New_A_1x128|exact Write_nine]. }
  assert (Hval : Sum d_nine [7; 7] = Some [7; 7; 96; 0; 0; 0; 0; 0; 0; 0])
    by (vm_compute; reflexivity).
  destruct (Sum_appends_Size_bytes (Matrix_Compressor A_1x128) 16 1 d_nine [7; 7] _
              eq_refl eq_refl Hr Hval) as (h & Hout & Hlen & Hnil).
  exists h. split; [now rewrite Hval, Hout|]. split; [exact Hlen|exact Hnil].
Defined.

(** X14. Hashing with a matrix never panics once the geometry is right: for
    an [N] by [M] matrix with a row and a block size [M/8 - 8N] of at least
    eight bytes, [New], any sequence of [Write] calls of fewer than 2^64
    bytes in total and [Sum(in)] all return, and the result is [in]
    followed by [8N] bytes. *)
Theorem Matrix_hash_returns A N M chunks in_ :
  dims A N M → 1 ≤ N → 8 ≤ M / 8 - 8 * N < 2 ^ 63 →
  len (concat chunks) < 2 ^ 64 →
  ∃ out, hash_chunks (Matrix_Compressor A) chunks in_ = Some (in_ ++ out)
         ∧ len out = 8 * N.
Proof.
  intros Hd HN HB Htotal. pose proof Hd as [HlenA HF].
  destruct (lookup_lt_is_Some_2 A 0) as [A0 HA0]; [unfold len in HlenA; lia|].
  pose proof (proj1 (Forall_lookup _ _) HF 0%nat A0 HA0) as HlenA0. cbn beta in HlenA0.
  assert (HM : 8 ≤ M).
  { destruct (decide (8 ≤ M)) as [|Hsmall]; [done|].
    rewrite Z.div_small in HB by (pose proof (len_nonneg A0); lia). lia. }
  apply (hash_chunks_returns (Matrix_Compressor A) (M / 8) N); auto; try lia.
  - cbn [InputLen Matrix_Compressor]. unfold Matrix_InputLen.
    rewrite HA0. cbn [mbind option_bind]. now rewrite HlenA0.
  - cbn [OutputLen Matrix_Compressor]. unfold Matrix_OutputLen. now rewrite HlenA.
  - now apply Matrix_returns_on.
Qed.

Lemma Matrix_hash_returns_witness :
  ∃ out, hash_chunks (Matrix_Compressor A_1x128) [[1; 2; 3]; [4; 5; 6; 7; 8; 9]] [7; 7]
         = Some ([7; 7] ++ out)
         ∧ len out = 8 * 1.
Proof.
  apply (Matrix_hash_returns A_1x128 1 128);
    [split; [reflexivity|repeat constructor]|lia| |unfold len; simpl; lia].
  change (128 / 8) with 16. lia.
Defined.

(** ** The digest as a chain over the padded message *)

Lemma pad_buffer_take (B k : Z) :
  1 ≤ k ≤ B →
  take (Z.to_nat k) (pad_buffer B) = 0x80 :: replicate (Z.to_nat (k - 1)) 0.
Proof.
  intros Hk. unfold pad_buffer.
  rewrite insert_replicate_lt by lia. cbn [replicate app].
  replace (Z.to_nat k) with (S (Z.to_nat (k - 1))) by lia. cbn [take].
  f_equal. rewrite take_replicate. f_equal. lia.
Qed.

Lemma absorb_run c b ol m :
  (v ← absorb c b (View (replicate (Z.to_nat ol) 0) [] 0) m; Some (v_h v.1))
  = ('(h, _) ← run_blocks c b (length m / b) (replicate (Z.to_nat ol) 0) m; Some h).
Proof.
  unfold absorb. cbn [v_h v_buf v_len app].
  now destruct (run_blocks _ _ _ _ _) as [[h ms]|].
Qed.

Lemma uint64_shiftl_3 x : uint64 (Z.shiftl (uint64 x) 3) = uint64 (8 * x).
Proof.
  rewrite Z.shiftl_mul_pow2 by lia. unfold uint64.
  rewrite Z.mul_comm. change (2 ^ 3) with 8. apply Z.mul_mod_idemp_r. lia.
Qed.

Lemma md_padded_length B n :
  8 ≤ B → 0 ≤ n →
  1 ≤ md_pad_len B n ≤ B ∧ (n + md_pad_len B n + 8) mod B = 0.
Proof.
  intros HB Hn. unfold md_pad_len. cbn zeta.
  pose proof (Z.mod_pos_bound n B ltac:(lia)) as Hr.
  pose proof (Z.div_mod n B ltac:(lia)) as Hdm.
  set (q := n / B) in *. set (r := n mod B) in *.
  destruct (decide (r < B - 8)).
  - split; [lia|].
    replace (n + (B - 8 - r) + 8) with ((q + 1) * B) by lia. apply Z.mod_mul. lia.
  - split; [lia|].
    replace (n + (B + (B - 8) - r) + 8) with ((q + 2) * B) by lia. apply Z.mod_mul. lia.
Qed.

(** X15. The digest is the Merkle-Damgard chain over the padded message.
    Over a compressor of block size [B >= 8], for a message of [n < 2^64]
    bytes handed over in any chunks, [Sum(in)] returns [in] followed by the
    little-endian bytes of the chaining value reached from the zero value by
    compressing, block by block, the message followed by the marker
    [0x80], zeros up to [B - 8] bytes modulo [B], and the eight
    little-endian bytes of the bit count of the message, the marker and the
    zeros together; the padded message is a whole number of blocks. A panic
    of the compressor on one side is a panic on the other. *)
Theorem hash_is_chain_over_padded_message c il ol chunks in_ :
  InputLen c = Some il → OutputLen c = Some ol → 0 ≤ ol →
  8 ≤ il - 8 * ol < 2 ^ 63 → len (concat chunks) < 2 ^ 64 →
  hash_chunks c chunks in_
  = (h ← md_chain c (il - 8 * ol) ol (concat chunks); Some (in_ ++ chain_bytes h))
  ∧ len (concat chunks ++ md_padding (il - 8 * ol) (len (concat chunks)))
      mod (il - 8 * ol) = 0.
Proof.
  intros Hil Hol Hol0 HB Htotal.
  set (B := il - 8 * ol) in *. set (m := concat chunks) in *.
  pose proof (len_nonneg m) as Hn.
  destruct (md_padded_length B (len m) ltac:(lia) Hn) as [Hk Hwhole].
  set (k := md_pad_len B (len m)) in *.
  set (pad := 0x80 :: replicate (Z.to_nat (k - 1)) 0).
  set (lf := le_bytes (uint64 (8 * (len m + k)))).
  assert (Hpadlen : len pad = k)
    by (unfold pad, len; cbn [length]; rewrite length_replicate; lia).
  assert (Hpadding : md_padding B (len m) = pad ++ lf) by reflexivity.
  assert (Hl : len (m ++ pad ++ lf) = len m + k + 8).
  { rewrite <- Hpadlen. unfold len. rewrite !length_app. unfold lf.
    rewrite length_le_bytes. lia. }
  rewrite Hpadding, Hl. split; [|exact Hwhole].
  unfold md_chain. rewrite Hpadding.
  rewrite <- absorb_run.
  rewrite !absorb_app by lia.
  unfold hash_chunks.
  pose proof (New_spec c il ol Hil Hol Hol0 ltac:(fold B; lia)) as Hnew.
  rewrite Hnew. cbn [mbind option_bind].
  match type of Hnew with _ = Some ?d => set (d0 := d) in * end.
  destruct (New_wf c il ol d0 Hil Hol ltac:(fold B; lia) Hnew)
    as (Hwf0 & Hc0 & HB0 & _ & Hv0 & _).
  fold B in HB0.
  pose proof (Writes_spec chunks d0 Hwf0) as HS. fold m in HS.
  rewrite Hv0, Hc0, HB0 in HS.
  destruct (Writes d0 chunks) as [d|] eqn:HW,
    (absorb c (Z.to_nat B) (View (replicate (Z.to_nat ol) 0) [] 0) m) as [[v1 ms1]|];
    cbn [mbind option_bind]; try done.
  destruct HS as (Hwf & (Hc & Hs & HBd) & Hv & _).
  cbn [d_c d_size d_blockSize d0] in Hc, Hs, HBd.
  replace (il - ol * 8) with B in HBd by (unfold B; lia).
  destruct (Writes_counts c il ol chunks d0 d Hil Hol ltac:(fold B; lia) Hnew HW Htotal)
    as (_ & _ & _ & Hlen & Hnx).
  fold m in Hlen, Hnx. fold B in Hnx.
  assert (HB8 : 8 ≤ d_blockSize d < 2 ^ 64) by lia.
  destruct (padding_unfold d Hwf HB8) as (_ & _ & Hpad).
  assert (Hpl : pad_len d = k) by (unfold pad_len, k, md_pad_len; now rewrite HBd, Hlen).
  rewrite Hpl, HBd, pad_buffer_take in Hpad by lia. fold pad in Hpad.
  destruct (padding_spec d Hwf HB8 ltac:(now rewrite Hlen, HBd)) as [Hzero _].
  unfold Sum, checkSum. rewrite copy_id, Hpad, absorb_app by lia.
  pose proof (Write_spec d pad Hwf) as H1. rewrite Hc, HBd, Hv in H1.
  pose proof (Write_counts d pad) as Hcount1.
  destruct (Write d pad) as [d1|], (absorb c (Z.to_nat B) v1 pad) as [[v2 ms2]|];
    cbn [mbind option_bind] in *; try done.
  destruct H1 as (Hwf1 & (Hc1 & Hs1 & HB1) & Hv1 & _).
  destruct (Hcount1 d1 Hwf eq_refl) as (_ & _ & _ & Hlen1).
  rewrite Hlen, Hpadlen in Hlen1.
  assert (Hlf : le_bytes (uint64 (Z.shiftl (d_len d1) 3)) = lf)
    by (unfold lf; now rewrite Hlen1, uint64_shiftl_3).
  rewrite Hlf in *.
  pose proof (Write_spec d1 lf Hwf1) as H2. rewrite Hc1, Hc, HB1, HBd, Hv1 in H2.
  destruct (Write d1 lf) as [d2|] eqn:HW2, (absorb c (Z.to_nat B) v2 lf) as [[v3 ms3]|];
    cbn [mbind option_bind] in *; try done.
  destruct H2 as (Hwf2 & (Hc2 & Hs2 & HB2) & Hv2 & _).
  destruct (Hzero d2 Hpad) as (Hnx2 & _ & _).
  rewrite decide_False by lia.
  destruct Hwf2 as [_ Hsize2 _ _ _ _ _]. unfold make, len in *.
  rewrite decide_True by lia. cbn [mbind option_bind].
  replace (Z.to_nat (d_size d2)) with (8 * length (d_h d2))%nat by lia.
  rewrite put_words_digest. cbn [mbind option_bind].
  now rewrite <- Hv2.
Qed.


Lemma hash_is_chain_over_padded_message_witness :
  let c := Matrix_Compressor A_1x128 in
  md_padding 8 9 = [0x80; 0; 0; 0; 0; 0; 0] ++ [0x80; 0; 0; 0; 0; 0; 0; 0]
  ∧ hash_chunks c [[1; 2; 3]; [4; 5; 6; 7; 8; 9]] [7]
    = (h ← md_chain c 8 1 [1; 2; 3; 4; 5; 6; 7; 8; 9]; Some ([7] ++ chain_bytes h))
  ∧ hash_chunks c [[1; 2; 3]; [4; 5; 6; 7; 8; 9]] [7]
    = Some [7; 96; 0; 0; 0; 0; 0; 0; 0].
Proof.
  intros c. split; [reflexivity|]. split.
  - exact (proj1 (hash_is_chain_over_padded_message c 16 1
                    [[1; 2; 3]; [4; 5; 6; 7; 8; 9]] [7]
                    eq_refl eq_refl ltac:(lia) ltac:(lia)
                    ltac:(unfold len; simpl; lia))).
  - vm_compute. reflexivity.
Defined.

(** ** Two compressors that agree *)

Lemma bytes_le_bytes w : bytes (le_bytes w).
Proof.
  unfold bytes, le_bytes. apply Forall_fmap, Forall_forall. intros k _. cbn.
  unfold uint8. apply Z.mod_pos_bound. lia.
Qed.

Lemma bytes_chain_bytes h : bytes (chain_bytes h).
Proof.
  induction h as [|w h IH]; cbn [chain_bytes]; [constructor|].
  apply Forall_app_2; [apply bytes_le_bytes|exact IH].
Qed.

Lemma bytes_slice s lo hi s' : slice s lo hi = Some s' → bytes s → bytes s'.
Proof.
  unfold slice. destruct (decide _); [|done]. intros [= <-] Hs.
  now apply Forall_take, Forall_drop.
Qed.

Lemma bytes_PutUint64 buf off v buf' :
  PutUint64 buf off v = Some buf' → bytes buf → bytes buf'.
Proof.
  unfold PutUint64. destruct (slice buf off (off + 8)); cbn [mbind option_bind]; [|done].
  intros Heq Hb. apply (inj Some) in Heq. subst buf'.
  apply Forall_app_2; [now apply Forall_take|].
  apply Forall_app_2; [apply bytes_le_bytes|now apply Forall_drop].
Qed.

Section TwoCompressors.
Context (c1 c2 : Compressor) (il ol : Z).
Hypothesis c1_InputLen : InputLen c1 = Some il.
Hypothesis c2_InputLen : InputLen c2 = Some il.
Hypothesis c1_OutputLen : OutputLen c1 = Some ol.
Hypothesis c2_OutputLen : OutputLen c2 = Some ol.
Hypothesis agree : ∀ h msg,
  len h = ol → len msg = il → bytes msg → Compress c1 h msg = Compress c2 h msg.

Lemma run_blocks_agree b n : ∀ h data,
  len h = ol → il = 8 * ol + Z.of_nat b → (n * b ≤ length data)%nat → bytes data →
  run_blocks c1 b n h data = run_blocks c2 b n h data.
Proof.
  induction n as [|n IH]; intros h data Hh Hb Hdata Hbytes; cbn [run_blocks]; [done|].
  unfold compress_block. rewrite agree; [|done| |].
  - destruct (Compress c2 h _) as [h1|] eqn:Hc; cbn [returned mbind option_bind]; [|done].
    rewrite IH; [done| |done| |].
    + unfold len in *. now rewrite (Compress_length _ _ _ _ Hc).
    + rewrite length_drop. lia.
    + now apply Forall_drop.
  - unfold chain_input, len in *.
    rewrite length_app, length_chain_bytes, length_take. lia.
  - apply Forall_app_2; [apply bytes_chain_bytes|now apply Forall_take].
Qed.

Lemma absorb_agree b v p :
  len (v_h v) = ol → il = 8 * ol + Z.of_nat b → bytes (v_buf v) → bytes p →
  absorb c1 b v p = absorb c2 b v p.
Proof.
  intros Hh Hb Hbuf Hp. unfold absorb.
  rewrite run_blocks_agree; [done|done|done| |].
  - rewrite Nat.mul_comm. apply Nat.Div0.mul_div_le.
  - now apply Forall_app_2.
Qed.

Lemma Write_twins d1 d2 p :
  twins c1 c2 d1 d2 → bytes p → option_twins c1 c2 (Write d1 p) (Write d2 p).
Proof.
  intros (Hwf1 & Hwf2 & Hc1 & Hc2 & Hs & HB & Hv & Hbuf) Hp.
  pose proof (Write_spec d1 p Hwf1) as H1.
  pose proof (Write_spec d2 p Hwf2) as H2.
  rewrite Hc1 in H1. rewrite Hc2, <- HB, <- Hv in H2.
  assert (Hol1 : len (v_h (view_of d1)) = ol).
  { destruct Hwf1 as [_ _ _ Hol' _ _ _]. rewrite Hc1, c1_OutputLen in Hol'.
    now injection Hol' as ->. }
  assert (Hgeo : il = 8 * ol + Z.of_nat (Z.to_nat (d_blockSize d1))).
  { destruct Hwf1 as [HB1 Hsize Hil' Hol' _ _ _]. rewrite Hc1, c1_InputLen in Hil'.
    injection Hil' as ->. cbn [v_h view_of] in Hol1. lia. }
  rewrite <- (absorb_agree _ _ p Hol1 Hgeo Hbuf Hp) in H2.
  unfold absorb in H1, H2.
  destruct (run_blocks c1 _ _ _ _) as [[h' ms]|]; cbn [mbind option_bind] in H1, H2.
  - destruct (Write d1 p) as [d1'|], (Write d2 p) as [d2'|]; try done.
    destruct H1 as (W1 & (Hc1' & Hs1 & HB1) & Hv1 & _).
    destruct H2 as (W2 & (Hc2' & Hs2 & HB2) & Hv2 & _).
    cbn [option_twins]. unfold twins.
    split; [done|]. split; [done|]. split; [congruence|]. split; [congruence|].
    split; [congruence|]. split; [congruence|]. split; [congruence|].
    rewrite Hv1. cbn [v_buf]. apply Forall_drop. now apply Forall_app_2.
  - now destruct (Write d1 p), (Write d2 p).
Qed.

Lemma padding_twins d1 d2 :
  twins c1 c2 d1 d2 → option_twins c1 c2 (padding d1) (padding d2).
Proof.
  intros Htw. pose proof Htw as (Hwf1 & Hwf2 & Hc1 & Hc2 & Hs & HB & Hv & Hbuf).
  assert (Hlen : d_len d2 = d_len d1)
    by (apply (f_equal v_len) in Hv; cbn in Hv; congruence).
  unfold padding. rewrite <- HB, Hlen.
  destruct (make 0 (uint64 (d_blockSize d1))) as [tmp|] eqn:Hmk;
    cbn [mbind option_bind]; [|done].
  destruct (index tmp 0); cbn [mbind option_bind]; [|done].
  destruct (decide (uint64 (d_blockSize d1) = 0)); [done|].
  assert (Htmp : bytes (<[0%nat := 0x80]> tmp)).
  { unfold make in Hmk. destruct (decide _); [|done]. injection Hmk as <-.
    apply Forall_insert; [|lia]. apply Forall_replicate. lia. }
  match goal with |- context [(if ?cnd then ?a else ?b) ≫= _] =>
    destruct (if cnd then a else b) as [pad|] eqn:Hpad; cbn [mbind option_bind]; [|done]
  end.
  assert (Hbpad : bytes pad).
  { destruct (decide _); exact (bytes_slice _ _ _ _ Hpad Htmp). }
  pose proof (Write_twins d1 d2 pad Htw Hbpad) as Hw.
  destruct (Write d1 pad) as [d1'|], (Write d2 pad) as [d2'|];
    cbn [mbind option_bind option_twins] in *; try done.
  assert (Hlen' : d_len d2' = d_len d1').
  { destruct Hw as (_ & _ & _ & _ & _ & _ & Hv' & _).
    apply (f_equal v_len) in Hv'. cbn in Hv'. congruence. }
  rewrite Hlen'.
  destruct (PutUint64 _ 0 _) as [tmp'|] eqn:Hput; cbn [mbind option_bind]; [|done].
  destruct (slice tmp' 0 8) as [lf|] eqn:Hlf; cbn [mbind option_bind]; [|done].
  apply Write_twins; [done|].
  exact (bytes_slice _ _ _ _ Hlf (bytes_PutUint64 _ _ _ _ Hput Htmp)).
Qed.

Lemma Sum_twins d1 d2 in_ : twins c1 c2 d1 d2 → Sum d1 in_ = Sum d2 in_.
Proof.
  intros Htw. unfold Sum, checkSum. rewrite !copy_id.
  pose proof (padding_twins d1 d2 Htw) as Hp.
  destruct (padding d1) as [d1'|], (padding d2) as [d2'|];
    cbn [mbind option_bind option_twins] in *; try done.
  destruct Hp as (Hwf1 & Hwf2 & _ & _ & Hs & _ & Hv & _).
  assert (Hnx : d_nx d1' = d_nx d2').
  { pose proof (wf_buf d1' Hwf1) as H1. pose proof (wf_buf d2' Hwf2) as H2.
    rewrite Hv in H1. destruct Hwf1, Hwf2. lia. }
  assert (Hh : d_h d2' = d_h d1')
    by (apply (f_equal v_h) in Hv; cbn in Hv; congruence).
  rewrite Hnx, Hs, Hh. destruct (decide (d_nx d2' ≠ 0)); [done|].
  destruct (make 0 (d_size d2')) as [digest0|]; cbn [mbind option_bind]; [|done].
  now destruct (put_words digest0 0 (d_h d1')).
Qed.

Lemma Writes_twins chunks : ∀ d1 d2,
  twins c1 c2 d1 d2 → Forall bytes chunks →
  option_twins c1 c2 (Writes d1 chunks) (Writes d2 chunks).
Proof.
  induction chunks as [|p chunks IH]; intros d1 d2 Htw Hb; cbn [Writes]; [done|].
  apply Forall_cons in Hb as [Hp Hb].
  pose proof (Write_twins d1 d2 p Htw Hp) as Hw.
  destruct (Write d1 p) as [d1'|], (Write d2 p) as [d2'|];
    cbn [mbind option_bind option_twins] in *; try done.
  now apply IH.
Qed.

(** Two compressors that declare the same lengths and agree on every call
    with buffers of these lengths give the same hash of every message. *)
Lemma hash_chunks_agree chunks in_ :
  Forall bytes chunks → hash_chunks c1 chunks in_ = hash_chunks c2 chunks in_.
Proof.
  intros Hb. unfold hash_chunks.
  destruct (decide (0 ≤ ol ∧ 0 ≤ il - ol * 8)) as [[Hol0 HB0]|Hneg].
  - rewrite (New_spec c1 il ol), (New_spec c2 il ol) by done.
    cbn [mbind option_bind].
    destruct (decide (il - ol * 8 = 0)) as [Hz|Hnz].
    + destruct chunks as [|p chunks]; cbn [Writes mbind option_bind].
      * now rewrite !Sum_zero_blockSize by done.
      * now rewrite !Write_zero_blockSize by done.
    + match goal with |- (?w1 ≫= _) = (?w2 ≫= _) =>
        assert (Htw : option_twins c1 c2 w1 w2) end.
      { apply Writes_twins; [|done].
        pose proof (New_spec c1 il ol c1_InputLen c1_OutputLen Hol0 HB0) as Hn1.
        pose proof (New_spec c2 il ol c2_InputLen c2_OutputLen Hol0 HB0) as Hn2.
        destruct (New_wf c1 il ol _ c1_InputLen c1_OutputLen ltac:(lia) Hn1)
          as (Hwf1 & _).
        destruct (New_wf c2 il ol _ c2_InputLen c2_OutputLen ltac:(lia) Hn2)
          as (Hwf2 & _).
        unfold twins. split; [done|]. split; [done|].
        repeat (split; [reflexivity|]). unfold view_of. cbn. constructor. }
      destruct (Writes _ chunks) as [d1|], (Writes _ chunks) as [d2|];
        cbn [mbind option_bind option_twins] in *; try done.
      now apply Sum_twins.
  - assert (H1 : New c1 = None ∧ New c2 = None).
    { unfold New, make. rewrite c1_InputLen, c2_InputLen, c1_OutputLen, c2_OutputLen.
      cbn [mbind option_bind].
      destruct (decide (0 ≤ il - ol * 8)); cbn [mbind option_bind]; [|done].
      destruct (decide (0 ≤ ol)); [lia|done]. }
    destruct H1 as [-> ->]. reflexivity.
Qed.

End TwoCompressors.

(** ** Hashing with the table and with the matrix *)

Lemma tables_Compress_eq A N M dst msg :
  dims A N M → 1 ≤ N → M mod 8 = 0 → len msg = M / 8 → bytes msg →
  LookupTable_Compress ((fun row => tab_of row <$> seq 0 (Z.to_nat (M / 8))) <$> A)
    dst msg
  = Matrix_Compress A dst msg.
Proof.
  intros [HlenA HF] HN Hmod Hmsg Hbytes.
  replace (Z.to_nat (M / 8)) with (length msg) by (unfold len in Hmsg; lia).
  unfold LookupTable_Compress, Matrix_Compress.
  destruct (lookup_lt_is_Some_2 A 0) as [A0 HA0]; [unfold len in HlenA; lia|].
  rewrite list_lookup_fmap, HA0. cbn [fmap option_fmap option_map].
  rewrite (proj1 (Forall_lookup _ _) HF 0%nat A0 HA0), <- Hmsg.
  replace (len (tab_of A0 <$> seq 0 (length msg))) with (len msg)
    by (unfold len; now rewrite length_fmap, length_seq).
  replace (len ((fun row => tab_of row <$> seq 0 (length msg)) <$> A))
    with (len A) by (unfold len; now rewrite length_fmap).
  destruct (index msg (len msg - 1)); [|done].
  destruct (index dst (len A - 1)) eqn:Hdst; [|done].
  assert (len A - 1 < len dst).
  { destruct (decide (0 ≤ len A - 1 < len dst)) as [|Hn]; [lia|].
    apply index_None in Hn. congruence. }
  rewrite LookupTable_rows_loop_spec by (auto; unfold len in *; lia).
  rewrite Matrix_rows_loop_spec; [done| |unfold len in *; lia].
  eapply Forall_impl; [exact HF|]. cbn beta.
  pose proof (Z.div_mod M 8 ltac:(lia)) as Hdm.
  unfold len in *. intros row Hrow. lia.
Qed.

(** X16. Hashing with the lookup table of a matrix is hashing with the
    matrix: for a rectangular matrix [A] and the table [A.LookupTable()],
    [New], [Write] of each chunk and [Sum] over the table give what they
    give over [A], the same bytes or a panic on both sides, for every
    message and every split of it into chunks. *)
Theorem LookupTable_hash_eq_Matrix_hash A N M At chunks in_ :
  dims A N M → Matrix_LookupTable A = Some At → Forall bytes chunks →
  hash_chunks (LookupTable_Compressor At) chunks in_
  = hash_chunks (Matrix_Compressor A) chunks in_.
Proof.
  intros Hd HAt Hb.
  destruct (Matrix_LookupTable_Some_dims A N M At Hd HAt) as [HN Hmod].
  destruct (Matrix_LookupTable_Some A At HAt)
    as (A0 & tabs0 & HA0 & Htabs0 & _ & Hlen0 & Hlen).
  pose proof Hd as [HlenA HF].
  pose proof (proj1 (Forall_lookup _ _) HF 0%nat A0 HA0) as HlenA0. cbn beta in HlenA0.
  apply (hash_chunks_agree _ _ (M / 8) N); [| | | | |exact Hb].
  - cbn [InputLen LookupTable_Compressor]. unfold LookupTable_InputLen.
    rewrite Htabs0. cbn [mbind option_bind]. now rewrite Hlen0, HlenA0.
  - cbn [InputLen Matrix_Compressor]. unfold Matrix_InputLen.
    rewrite HA0. cbn [mbind option_bind]. now rewrite HlenA0.
  - cbn [OutputLen LookupTable_Compressor]. unfold LookupTable_OutputLen, len in *.
    now rewrite Hlen, HlenA.
  - cbn [OutputLen Matrix_Compressor]. unfold Matrix_OutputLen. now rewrite HlenA.
  - intros h msg _ Hmsg Hbytes. cbn [Compress LookupTable_Compressor Matrix_Compressor].
    rewrite (Matrix_LookupTable_spec A N M Hd HN Hmod) in HAt. injection HAt as <-.
    now apply (tables_Compress_eq A N M).
Qed.

Lemma LookupTable_hash_eq_Matrix_hash_witness :
  ∃ At, Matrix_LookupTable A_1x128 = Some At
        ∧ hash_chunks (LookupTable_Compressor At) [[1; 2; 3]; [4; 5; 6; 7; 8; 9]] [7]
          = Some [7; 96; 0; 0; 0; 0; 0; 0; 0].
Proof.
  destruct (Matrix_LookupTable A_1x128) as [At|] eqn:HAt;
    [|vm_compute in HAt; discriminate].
  exists At. split; [reflexivity|].
  rewrite (LookupTable_hash_eq_Matrix_hash A_1x128 1 128 At
             [[1; 2; 3]; [4; 5; 6; 7; 8; 9]] [7]
             ltac:(split; [reflexivity|repeat constructor]) HAt
             ltac:(repeat constructor; lia)).
  vm_compute. reflexivity.
Defined.

(** ** The shape of a generated matrix *)

Lemma length_copy_slice_full {A} (w data : list A) :
  length (copy_slice w 0 (length w) data).1 = length w.
Proof.
  unfold copy_slice. cbn [fst].
  rewrite take_0, app_nil_l, length_app, length_take, length_drop. lia.
Qed.

Lemma RandomMatrix_row_length {S} (rand : Reader S) n : ∀ s w row w' s',
  RandomMatrix_row rand s w n = Some (row, w', s') →
  length row = n ∧ length w' = length w.
Proof.
  induction n as [|n IH]; intros s w row w' s' Hrow; cbn [RandomMatrix_row] in Hrow.
  - now injection Hrow as <- <- <-.
  - destruct (Read rand s (length w)) as [[data err] s1].
    destruct err; [done|].
    destruct (RandomMatrix_row rand s1 _ n) as [[[row1 w1] s2]|] eqn:Hrec;
      cbn [mbind option_bind] in Hrow; [|done].
    injection Hrow as <- <- <-.
    destruct (IH _ _ _ _ _ Hrec) as [Hl Hw]. cbn [length].
    rewrite length_copy_slice_full in Hw. split; [lia|exact Hw].
Qed.

Lemma RandomMatrix_rows_dims {S} (rand : Reader S) M n : ∀ s w A w' s',
  RandomMatrix_rows rand s w M n = Some (A, w', s') →
  length A = n ∧ Forall (fun row => len row = M) A.
Proof.
  induction n as [|n IH]; intros s w A w' s' Hrows; cbn [RandomMatrix_rows] in Hrows.
  - injection Hrows as <- <- <-. split; [done|constructor].
  - unfold make in Hrows.
    destruct (decide (0 ≤ M)) as [HM|]; cbn [mbind option_bind] in Hrows; [|done].
    rewrite length_replicate in Hrows.
    destruct (RandomMatrix_row rand s w (Z.to_nat M)) as [[[row w1] s1]|] eqn:Hrow;
      cbn [mbind option_bind] in Hrows; [|done].
    destruct (RandomMatrix_rows rand s1 w1 M n) as [[[rows w2] s2]|] eqn:Hrec;
      cbn [mbind option_bind] in Hrows; [|done].
    injection Hrows as <- <- <-.
    destruct (RandomMatrix_row_length rand _ _ _ _ _ _ Hrow) as [Hl _].
    destruct (IH _ _ _ _ _ Hrec) as [Hn HF]. cbn [length].
    split; [lia|]. constructor; [unfold len; lia|exact HF].
Qed.

Lemma RandomMatrix_Some_dims {S} (rand : Reader S) s N cf A s' :
  RandomMatrix rand s N cf = Some (A, s') → dims A N (cf * N * 64).
Proof.
  unfold RandomMatrix, make. intros HA.
  destruct (decide (0 ≤ N)) as [HN|]; cbn [mbind option_bind] in HA; [|done].
  rewrite decide_True in HA by lia. cbn [mbind option_bind] in HA.
  rewrite length_replicate in HA.
  destruct (RandomMatrix_rows rand s _ _ _) as [[[A1 w1] s1]|] eqn:Hrows;
    cbn [mbind option_bind] in HA; [|done].
  injection HA as <- <-.
  destruct (RandomMatrix_rows_dims rand _ _ _ _ _ _ _ Hrows) as [Hn HF].
  split; [unfold len; lia|exact HF].
Qed.

(** X17. Whatever the reader does, a matrix [RandomMatrix] returns has [N]
    rows of [compressionFactor*N*64] columns each, where that product fits
    a Go [int]. For [N = 0] it returns the empty matrix without a read, and
    for a negative [N] it panics. *)
Theorem RandomMatrix_dims {S} (rand : Reader S) s N cf :
  (- 2 ^ 63 ≤ cf * N * 64 < 2 ^ 63 →
   ∀ A s', RandomMatrix rand s N cf = Some (A, s') → dims A N (cf * N * 64))
  ∧ RandomMatrix rand s 0 cf = Some ([], s)
  ∧ (N < 0 → RandomMatrix rand s N cf = None).
Proof.
  split; [|split].
  - intros _ A s'. apply RandomMatrix_Some_dims.
  - reflexivity.
  - intros HN. unfold RandomMatrix, make. destruct (decide (0 ≤ N)); [lia|done].
Qed.

Lemma RandomMatrix_dims_witness :
  let s := (fun k : nat => Z.of_nat (k mod 251)) <$> seq 1 507 in
  ∃ A s', RandomMatrix bytes_reader s 1 1 = Some (A, s') ∧ dims A 1 (1 * 1 * 64).
Proof.
  intros s.
  destruct (RandomMatrix bytes_reader s 1 1) as [[A s']|] eqn:HA;
    [|vm_compute in HA; discriminate].
  exists A, s'. split; [reflexivity|].
  exact (proj1 (RandomMatrix_dims bytes_reader s 1 1) ltac:(lia) A s' HA).
Defined.

(** ** A generated matrix as a compressor *)



(** ** A reader that fills the buffer *)

Lemma spec_cells_lookup n : ∀ s j,
  (j < n)%nat → spec_cells s n !! j = Some (le_uint64 (take 8 (drop (8 * j) s))).
Proof.
  induction n as [|n IH]; intros s j Hj; [lia|]. cbn [spec_cells].
  destruct j as [|j]; [now rewrite drop_0|].
  cbn [lookup list_lookup]. rewrite IH by lia. rewrite drop_drop.
  now replace (8 * S j)%nat with (8 + 8 * j)%nat by lia.
Qed.

Lemma length_spec_cells n : ∀ s, length (spec_cells s n) = n.
Proof. induction n as [|n IH]; intros s; cbn [spec_cells length]; [done|now rewrite IH]. Qed.

Lemma spec_matrix_lookup M N : ∀ s i,
  (i < N)%nat → spec_matrix s M N !! i = Some (spec_cells (drop (8 * M * i) s) M).
Proof.
  induction N as [|N IH]; intros s i Hi; [lia|]. cbn [spec_matrix].
  destruct i as [|i]; [now rewrite Nat.mul_0_r, drop_0|].
  cbn [lookup list_lookup]. rewrite IH by lia. rewrite drop_drop.
  now replace (8 * M * S i)%nat with (8 * M + 8 * M * i)%nat by lia.
Qed.

Lemma spec_matrix_dims M N : ∀ s, dims (spec_matrix s M N) (Z.of_nat N) (Z.of_nat M).
Proof.
  induction N as [|N IH]; intros s; cbn [spec_matrix].
  - split; [reflexivity|constructor].
  - destruct (IH (drop (8 * M) s)) as [Hl HF]. split; unfold len in *.
    + cbn [length]. lia.
    + constructor; [now rewrite length_spec_cells|exact HF].
Qed.

(** X19. Over a reader that fills the buffer on every call or returns an
    error, as [crypto/rand.Reader] does, [RandomMatrix] consumes exactly the
    first [8*N*M] bytes of the stream, [M = compressionFactor*N*64] (a
    product that fits a Go [int]), and cell [(i, j)] of the matrix is the
    little-endian value of the eight bytes at offset [8*(M*i + j)]: the
    stream is read row by row. With fewer than [8*N*M] bytes in the stream
    it panics. *)
Theorem RandomMatrix_full_reader_cells (N cf : nat) s :
  Z.of_nat (cf * N * 64) < 2 ^ 63 →
  let M := (cf * N * 64)%nat in
  if decide (8 * M * N ≤ length s)%nat
  then ∃ A, RandomMatrix full_reader s (Z.of_nat N) (Z.of_nat cf)
            = Some (A, drop (8 * M * N) s)
            ∧ dims A (Z.of_nat N) (Z.of_nat M)
            ∧ ∀ i j, (i < N)%nat → (j < M)%nat →
                A !! i ≫= (.!! j)
                = Some (le_uint64 (take 8 (drop (8 * (M * i + j)) s)))
  else RandomMatrix full_reader s (Z.of_nat N) (Z.of_nat cf) = None.
Proof.
  intros _ M. pose proof (RandomMatrix_full N cf s) as H. cbn zeta in H. fold M in H.
  destruct (decide (8 * M * N ≤ length s)%nat); [|exact H].
  exists (spec_matrix s M N). split; [exact H|]. split; [apply spec_matrix_dims|].
  intros i j Hi Hj. rewrite spec_matrix_lookup by done. cbn [mbind option_bind].
  rewrite spec_cells_lookup by done. rewrite drop_drop.
  now replace (8 * (M * i + j))%nat with (8 * M * i + 8 * j)%nat by lia.
Qed.

Lemma RandomMatrix_full_reader_cells_witness :
  let s := (fun k : nat => Z.of_nat (k mod 251)) <$> seq 1 600 in
  (∃ A, RandomMatrix full_reader s 1 1 = Some (A, drop 512 s)
        ∧ A !! 0%nat ≫= (.!! 2%nat) = Some (le_uint64 [17; 18; 19; 20; 21; 22; 23; 24]))
  ∧ RandomMatrix full_reader (take 511 s) 1 1 = None.
Proof.
  intros s. split.
  - pose proof (RandomMatrix_full_reader_cells 1 1 s ltac:(simpl; lia)) as H.
    cbn zeta in H.
    rewrite decide_True in H by (unfold s; rewrite length_fmap, length_seq; lia).
    destruct H as (A & HA & _ & Hcells).
    exists A. split; [exact HA|]. exact (Hcells 0%nat 2%nat ltac:(lia) ltac:(lia)).
  - pose proof (RandomMatrix_full_reader_cells 1 1 (take 511 s) ltac:(simpl; lia)) as H.
    cbn zeta in H.
    rewrite decide_False in H
      by (unfold s; rewrite length_take, length_fmap, length_seq; lia).
    exact H.
Defined.

(** ** A block size below eight *)

(** X20. A digest whose block size is between 1 and 7 bytes takes [Write]
    calls but cannot be finalized: in [checkSum] the [uint64] value
    [P = B - 8] wraps around to nearly 2^64, the slice [tmp[0:P-d.len%B]] is
    longer than the [B] bytes of [tmp], and [Sum] panics in every state a
    caller can reach. *)
Theorem Sum_panics_below_block_of_eight c il ol d in_ :
  InputLen c = Some il → OutputLen c = Some ol → 0 < il - 8 * ol < 8 →
  reachable c d → Sum d in_ = None.
Proof.
  intros Hil Hol HB Hreach.
  destruct (reachable_wf c il ol Hil Hol ltac:(lia) d Hreach) as [Hwf HBd].
  destruct Hwf as [_ _ _ _ _ _ Hlen].
  unfold Sum, checkSum, padding. rewrite copy_id, HBd.
  set (B := il - 8 * ol) in *.
  rewrite (uint64_small B) by lia.
  assert (HP : uint64 (B - 8) = 2 ^ 64 + B - 8).
  { unfold uint64. symmetry. apply (Z.mod_unique_pos _ _ (-1)); lia. }
  rewrite HP. unfold make. rewrite decide_True by lia. cbn [mbind option_bind].
  destruct (index (replicate (Z.to_nat B) 0) 0); cbn [mbind option_bind]; [|done].
  rewrite decide_False by lia.
  pose proof (Z.mod_pos_bound (d_len d) B ltac:(lia)) as Hr.
  rewrite decide_True by lia.
  rewrite uint64_small by lia.
  unfold slice. rewrite decide_False; [done|].
  unfold len. rewrite length_insert, length_replicate. lia.
Qed.

Lemma Sum_panics_below_block_of_eight_witness :
  ∃ d0 d, New (Matrix_Compressor A_1x72) = Some d0
          ∧ Write d0 [1; 2; 3] = Some d ∧ Sum d [] = None.
Proof.
  pose proof (New_spec (Matrix_Compressor A_1x72) 9 1
                eq_refl eq_refl ltac:(lia) ltac:(lia)) as Hnew.
  match type of Hnew with _ = Some ?d => set (d0 := d) in * end.
  destruct (New_wf (Matrix_Compressor A_1x72) 9 1 d0 eq_refl eq_refl ltac:(lia) Hnew)
    as (Hwf & _).
  assert (Hret : returns_on (Matrix_Compressor A_1x72) 9 1).
  { apply (Matrix_returns_on A_1x72 1 72);
      [split; [reflexivity|repeat constructor]|lia|lia]. }
  destruct (Write_returns d0 [1; 2; 3] 9 1 Hwf Hret eq_refl eq_refl) as [d HW].
  exists d0, d. split; [exact Hnew|]. split; [exact HW|].
  apply (Sum_panics_below_block_of_eight (Matrix_Compressor A_1x72) 9 1);
    [reflexivity|reflexivity|lia|].
  eapply reach_Write; [apply reach_New; exact Hnew|exact HW].
Defined.

(** ** [copy] makes an independent digest *)

Lemma load_write_back_other σ p q s sq d1 σ1 dq :
  structs σ !! p = Some s → structs σ !! q = Some sq →
  p ≠ q → s_h s ≠ s_h sq → s_x s ≠ s_x sq →
  load σ q = Some dq → write_back σ p d1 = Some σ1 → load σ1 q = Some dq.
Proof.
  intros Hs Hsq Hpq Hh Hx Hload Hwb.
  unfold write_back in Hwb. rewrite Hs in Hwb. cbn [mbind option_bind] in Hwb.
  injection Hwb as <-. unfold load in *. cbn [structs words octets].
  rewrite lookup_insert_ne by done. rewrite Hsq in *. cbn [mbind option_bind] in *.
  now rewrite !lookup_insert_ne by done.
Qed.

(** X21. [d.copy()] gives a digest of its own: a new struct, other than
    the receiver's, that denotes the same state over two new arrays. A
    [Write] through either pointer leaves the digest the other denotes as
    it was, and brings its own to what [Write] gives on that state. *)
Theorem copy_is_independent σ p d p' σ' :
  load σ p = Some d → copy_ptr σ p = Some (p', σ') →
  p' ≠ p ∧ load σ' p = Some d ∧ load σ' p' = Some d
  ∧ (∀ y σ1, Write_ptr σ' p' y = Some σ1 →
       load σ1 p = Some d ∧ load σ1 p' = Write d y)
  ∧ (∀ y σ1, Write_ptr σ' p y = Some σ1 →
       load σ1 p' = Some d ∧ load σ1 p = Write d y).
Proof.
  intros Hload Hcopy.
  destruct (load_struct σ p d Hload)
    as (s & Hs & Hh & Hx & Hc & Hsz & HB & Hnx & Hlen & Hcalls).
  unfold copy_ptr in Hcopy. rewrite Hs, Hload in Hcopy.
  cbn [mbind option_bind] in Hcopy. rewrite copy_id in Hcopy.
  set (ah := fresh (dom (words σ))) in *. set (ax := fresh (dom (octets σ))) in *.
  injection Hcopy as <- <-.
  set (p' := fresh (dom (structs σ))).
  set (s' := {| s_c := s_c s; s_size := s_size s; s_blockSize := s_blockSize s;
                s_h := ah; s_x := ax; s_nx := s_nx s; s_len := s_len s;
                s_calls := s_calls s |}).
  set (σ' := {| words := <[ah := d_h d]> (words σ);
                octets := <[ax := d_x d]> (octets σ);
                structs := <[p' := s']> (structs σ) |}).
  assert (Hp : p' ≠ p) by (eapply fresh_lookup; eauto).
  assert (Hah : ah ≠ s_h s) by (eapply fresh_lookup; eauto).
  assert (Hax : ax ≠ s_x s) by (eapply fresh_lookup; eauto).
  assert (Hs1 : structs σ' !! p = Some s)
    by (cbn [structs σ']; now rewrite lookup_insert_ne).
  assert (Hs2 : structs σ' !! p' = Some s')
    by (cbn [structs σ']; now rewrite lookup_insert_eq).
  assert (Hl1 : load σ' p = Some d).
  { apply (load_preserved σ); [done| | |]; cbn [structs words octets σ'].
    - intros q sq Hq. rewrite lookup_insert_ne by (eapply fresh_lookup; eauto). done.
    - intros a h Ha. rewrite lookup_insert_ne by (eapply fresh_lookup; eauto). done.
    - intros a x Ha. rewrite lookup_insert_ne by (eapply fresh_lookup; eauto). done. }
  assert (Hl2 : load σ' p' = Some d).
  { unfold load. rewrite Hs2. cbn [mbind option_bind s_h s_x s' words octets σ'].
    rewrite !lookup_insert_eq. cbn [mbind option_bind].
    f_equal. destruct d. cbn in *. f_equal; congruence. }
  split; [exact Hp|]. split; [exact Hl1|]. split; [exact Hl2|]. split.
  - intros y σ1 HW. unfold Write_ptr in HW. rewrite Hl2 in HW.
    cbn [mbind option_bind] in HW.
    destruct (Write d y) as [d1|] eqn:Hw; cbn [mbind option_bind] in HW; [|done].
    split.
    + apply (load_write_back_other σ' p' p s' s d1 σ1 d); auto.
    + destruct (load_write_back σ' p' d d1 Hl2 (Write_config _ _ _ Hw))
        as (σ2 & Hwb & Hl). congruence.
  - intros y σ1 HW. unfold Write_ptr in HW. rewrite Hl1 in HW.
    cbn [mbind option_bind] in HW.
    destruct (Write d y) as [d1|] eqn:Hw; cbn [mbind option_bind] in HW; [|done].
    split.
    + apply (load_write_back_other σ' p p' s s' d1 σ1 d); auto.
    + destruct (load_write_back σ' p d d1 Hl1 (Write_config _ _ _ Hw))
        as (σ2 & Hwb & Hl). congruence.
Qed.

Lemma copy_is_independent_witness :
  ∃ p' σ', copy_ptr store_nine 0 = Some (p', σ')
    ∧ p' ≠ 0%nat ∧ load σ' 0 = Some d_nine ∧ load σ' p' = Some d_nine
    ∧ ∃ σ1, Write_ptr σ' p' [10; 11] = Some σ1
            ∧ load σ1 0 = Some d_nine ∧ load σ1 p' = Write d_nine [10; 11].
Proof.
  destruct (copy_ptr store_nine 0) as [[p' σ']|] eqn:Hcopy;
    [|unfold copy_ptr in Hcopy; rewrite load_store_nine in Hcopy; discriminate].
  destruct (copy_is_independent store_nine 0 d_nine p' σ' load_store_nine Hcopy)
    as (Hp & Hl1 & Hl2 & Hthrough & _).
  exists p', σ'. split; [reflexivity|]. split; [exact Hp|].
  split; [exact Hl1|]. split; [exact Hl2|].
  destruct (Write_ptr σ' p' [10; 11]) as [σ1|] eqn:HW.
  - exists σ1. split; [reflexivity|]. exact (Hthrough _ _ HW).
  - exfalso. unfold Write_ptr in HW. rewrite Hl2 in HW. cbn [mbind option_bind] in HW.
    assert (Hret : returns_on (Matrix_Compressor A_1x128) 16 1).
    { apply (Matrix_returns_on A_1x128 1 128);
        [split; [reflexivity|repeat constructor]|lia|lia]. }
    assert (Hwf : wf d_nine).
    { apply (reachable_wf (Matrix_Compressor A_1x128) 16 1 eq_refl eq_refl ltac:(lia)).
      eapply reach_Write; [apply reach_New; exact New_A_1x128|exact Write_nine]. }
    destruct (Write_returns d_nine [10; 11] 16 1 Hwf Hret eq_refl eq_refl) as [d1 Hw].
    rewrite Hw in HW. cbn [mbind option_bind] in HW.
    destruct (load_write_back σ' p' d_nine d1 Hl2 (Write_config _ _ _ Hw))
      as (σ2 & Hwb & _). congruence.
Defined.

(** ** Decoding what [PutUint64] encoded *)

Lemma le_uint64_shifted n : ∀ w,
  le_uint64 ((fun k : nat => uint8 (Z.shiftr w (8 * Z.of_nat k))) <$> seq 0 n)
  = w mod 2 ^ (8 * Z.of_nat n).
Proof.
  induction n as [|n IH]; intros w.
  - cbn. now rewrite Z.mod_1_r.
  - cbn [seq fmap list_fmap le_uint64]. rewrite <- fmap_S_seq, <- list_fmap_compose.
    change (list_fmap nat Z ?f ?l) with (f <$> l).
    rewrite (list_fmap_ext _ (fun k : nat => uint8 (Z.shiftr (Z.shiftr w 8) (8 * Z.of_nat k))));
      [|intros i k _; cbn; rewrite Z.shiftr_shiftr by lia; do 2 f_equal; lia].
    rewrite IH. unfold uint8. change (8 * Z.of_nat 0) with 0. rewrite Z.shiftr_0_r.
    apply Z.bits_inj'. intros i Hi.
    rewrite Z.lor_spec, Z.shiftl_spec by lia.
    destruct (decide (i < 8)) as [Hlow|Hhigh].
    + rewrite !Z.mod_pow2_bits_low by lia.
      rewrite (Z.testbit_neg_r _ (i - 8)) by lia. apply orb_false_r.
    + rewrite (Z.mod_pow2_bits_high w 8) by lia. cbn [orb].
      destruct (decide (i < 8 * Z.of_nat (S n))) as [Hin|Hout].
      * rewrite !Z.mod_pow2_bits_low by lia. rewrite Z.shiftr_spec by lia.
        f_equal. lia.
      * now rewrite !Z.mod_pow2_bits_high by lia.
Qed.

Lemma le_uint64_le_bytes w : 0 ≤ w < 2 ^ 64 → le_uint64 (le_bytes w) = w.
Proof.
  intros Hw. unfold le_bytes.
  change (map ?f ?l) with (f <$> l). rewrite le_uint64_shifted.
  now apply Z.mod_small.
Qed.

Lemma spec_cells_chain_bytes row : ∀ rest,
  Forall (fun a => 0 ≤ a < 2 ^ 64) row →
  spec_cells (chain_bytes row ++ rest) (length row) = row.
Proof.
  induction row as [|w row IH]; intros rest Hrow; [done|].
  apply Forall_cons in Hrow as [Hw Hrow].
  cbn [chain_bytes length spec_cells]. rewrite <- app_assoc.
  change 8%nat with (length (le_bytes w)) at 1 2.
  rewrite take_app_length, drop_app_length.
  now rewrite le_uint64_le_bytes, IH.
Qed.

Lemma spec_matrix_dump M A : ∀ rest,
  Forall (fun row => length row = M) A →
  Forall (Forall (fun a => 0 ≤ a < 2 ^ 64)) A →
  spec_matrix (concat (chain_bytes <$> A) ++ rest) M (length A) = A.
Proof.
  induction A as [|row A IH]; intros rest HM Hcells; [done|].
  apply Forall_cons in HM as [Hrow HM]. apply Forall_cons in Hcells as [Hc Hcells].
  cbn [fmap list_fmap concat length spec_matrix]. rewrite <- app_assoc.
  rewrite <- Hrow at 1. rewrite spec_cells_chain_bytes by done. f_equal.
  replace (8 * M)%nat with (length (chain_bytes row))
    by (rewrite length_chain_bytes; lia).
  rewrite drop_app_length. now apply IH.
Qed.

(** X22. [RandomMatrix] decodes what [PutUint64] encodes. A stream made of
    the cells of an [N] by [compressionFactor*N*64] matrix, row by row,
    each as its eight little-endian bytes, gives that matrix back when read
    through a reader that fills the buffer, and the reader is left at the
    first byte after them. *)
Theorem RandomMatrix_of_dump (N cf : nat) A rest :
  Z.of_nat (cf * N * 64) < 2 ^ 63 →
  dims A (Z.of_nat N) (Z.of_nat (cf * N * 64)) →
  Forall (Forall (fun a => 0 ≤ a < 2 ^ 64)) A →
  RandomMatrix full_reader (concat (chain_bytes <$> A) ++ rest)
    (Z.of_nat N) (Z.of_nat cf)
  = Some (A, rest).
Proof.
  intros _ [HN HM] Hcells. unfold len in *.
  set (M := (cf * N * 64)%nat) in *.
  assert (HM' : Forall (fun row => length row = M) A)
    by (eapply Forall_impl; [exact HM|]; cbn beta; intros row Hrow; lia).
  assert (Hdump : length (concat (chain_bytes <$> A)) = (8 * M * N)%nat).
  { replace N with (length A) by lia. clear HN.
    induction HM' as [|row A' Hrow _ IH]; [cbn; lia|].
    apply Forall_cons in HM as [_ HM]. apply Forall_cons in Hcells as [_ Hcells].
    cbn [fmap list_fmap concat length].
    rewrite length_app, length_chain_bytes, (IH HM Hcells), Hrow. lia. }
  pose proof (RandomMatrix_full N cf (concat (chain_bytes <$> A) ++ rest)) as H.
  cbn zeta in H. fold M in H.
  rewrite decide_True in H by (rewrite length_app; lia).
  rewrite H. f_equal. f_equal.
  - replace N with (length A) by lia. now apply spec_matrix_dump.
  - rewrite <- Hdump. apply drop_app_length.
Qed.

Lemma RandomMatrix_of_dump_witness :
  let A := [Z.of_nat <$> seq 1000 64] in
  RandomMatrix full_reader (concat (chain_bytes <$> A) ++ [1; 2; 3]) 1 1
  = Some (A, [1; 2; 3]).
Proof.
  intros A.
  apply (RandomMatrix_of_dump 1 1 A [1; 2; 3]).
  - simpl. lia.
  - split; [reflexivity|repeat constructor].
  - repeat constructor; lia.
Defined.

(** ** [Reset] *)

(** X23. [Reset] brings a digest back to where [New] left it, in place:
    the chaining value is all zeros again, [nx] and [len] are 0, and
    [Size()] and [BlockSize()] are as they were. It does not clear the
    carry buffer, whose bytes stay as the last [Write] left them, and a
    second [Reset] changes nothing more. *)
Theorem Reset_restores_fresh_state c il ol d0 d :
  InputLen c = Some il → OutputLen c = Some ol → 0 < il - 8 * ol →
  New c = Some d0 → reachable c d →
  d_h (Reset d) = d_h d0 ∧ d_nx (Reset d) = 0 ∧ d_len (Reset d) = 0
  ∧ Size (Reset d) = Size d0 ∧ BlockSize (Reset d) = BlockSize d0
  ∧ d_x (Reset d) = d_x d
  ∧ view_of (Reset d) = view_of d0
  ∧ Reset (Reset d) = Reset d.
Proof.
  intros Hil Hol HB Hnew Hreach.
  destruct (New_wf c il ol d0 Hil Hol HB Hnew) as (Hwf0 & _ & HB0 & Hs0 & Hv0 & _).
  destruct (reachable_wf c il ol Hil Hol HB d Hreach) as [Hwf HBd].
  assert (Hlen : ∀ d', wf d' → d_c d' = c → length (d_h d') = Z.to_nat ol).
  { intros d' [_ _ _ Hol' _ _ _] Hc'. rewrite Hc', Hol in Hol'.
    injection Hol' as ->. unfold len. lia. }
  assert (Hc : d_c d = c).
  { clear -Hreach Hil Hol.
    induction Hreach as [d Hnew|d _ IH|d p d' _ IH Hw].
    - now destruct (New_fields c il ol d Hil Hol Hnew).
    - exact IH.
    - destruct (Write_config d p d' Hw) as (Hc & _). congruence. }
  assert (Hh0 : d_h d0 = replicate (Z.to_nat ol) 0)
    by (apply (f_equal v_h) in Hv0; exact Hv0).
  assert (Hh : d_h (Reset d) = d_h d0).
  { cbn [Reset d_h]. now rewrite fmap_const_replicate, (Hlen d Hwf Hc), Hh0. }
  destruct Hwf as [_ Hsize _ Hol' _ _ _].
  split; [exact Hh|]. split; [reflexivity|]. split; [reflexivity|].
  split; [|split; [|split; [reflexivity|split]]].
  - unfold Size. cbn [Reset d_size]. rewrite Hsize, Hs0.
    rewrite Hc, Hol in Hol'. injection Hol' as ->. reflexivity.
  - unfold BlockSize. cbn [Reset d_blockSize]. congruence.
  - rewrite Hv0. unfold view_of. rewrite Hh, Hh0. cbn [Reset d_nx d_x d_len].
    now rewrite take_0.
  - unfold Reset. cbn. f_equal.
    now rewrite !fmap_const_replicate, length_replicate.
Qed.

Lemma Reset_restores_fresh_state_witness :
  d_h (Reset d_nine) = [0] ∧ d_nx (Reset d_nine) = 0 ∧ d_len (Reset d_nine) = 0
  ∧ d_x (Reset d_nine) = [9; 0; 0; 0; 0; 0; 0; 0]
  ∧ Reset (Reset d_nine) = Reset d_nine.
Proof.
  destruct (Reset_restores_fresh_state (Matrix_Compressor A_1x128) 16 1 d_fresh d_nine
              eq_refl eq_refl ltac:(lia) New_A_1x128)
    as (Hh & Hnx & Hlen & _ & _ & Hx & _ & Hidem).
  - eapply reach_Write; [apply reach_New; exact New_A_1x128|exact Write_nine].
  - split; [exact Hh|]. split; [exact Hnx|]. split; [exact Hlen|].
    split; [exact Hx|exact Hidem].
Defined.

(** ** The compression function is additive *)

Lemma bits_cells_lor row j a b n : ∀ k,
  Z.land a b = 0 →
  sumZ (bits_cells row j (Z.lor a b) k n)
  = sumZ (bits_cells row j a k n) + sumZ (bits_cells row j b k n).
Proof.
  induction n as [|n IH]; intros k Hdisj; cbn [bits_cells]; [done|].
  rewrite !sumZ_app, IH by done.
  assert (Hor : spec_bit (Z.lor a b) k = spec_bit a k || spec_bit b k)
    by (unfold spec_bit; apply Z.lor_spec).
  assert (Hand : spec_bit a k && spec_bit b k = false).
  { unfold spec_bit. rewrite <- Z.land_spec, Hdisj. apply Z.bits_0. }
  rewrite Hor. destruct (spec_bit a k), (spec_bit b k); cbn in *; try done; lia.
Qed.

Lemma msg_cells_lor row m1 m2 : ∀ j,
  Forall2 (fun a b => Z.land a b = 0) m1 m2 →
  sumZ (msg_cells row j (zip_with Z.lor m1 m2))
  = sumZ (msg_cells row j m1) + sumZ (msg_cells row j m2).
Proof.
  intros j Hdisj. revert j.
  induction Hdisj as [|a b m1 m2 Hab _ IH]; intros j; cbn [zip_with msg_cells]; [done|].
  rewrite !sumZ_app, bits_cells_lor, IH by done. lia.
Qed.

(** X24. [Matrix.Compress] is additive over messages with no set bit in
    common: for two messages of [M/8] bytes whose bytes have no common bit,
    each word of the result on their bitwise OR is the sum modulo 2^64 of
    the words of the results on the two messages. *)
Theorem Matrix_Compress_additive A N M dst m1 m2 :
  dims A N M → 1 ≤ N → 8 ≤ M → len m1 = M / 8 → len m2 = M / 8 → N ≤ len dst →
  Forall2 (fun a b => Z.land a b = 0) m1 m2 →
  ∃ out1 out2 out,
    Matrix_Compress A dst m1 = Returned out1
    ∧ Matrix_Compress A dst m2 = Returned out2
    ∧ Matrix_Compress A dst (zip_with Z.lor m1 m2) = Returned out
    ∧ ∀ i : nat, Z.of_nat i < N →
        ∃ x y, out1 !! i = Some x ∧ out2 !! i = Some y
               ∧ out !! i = Some (uint64 (x + y)).
Proof.
  intros Hd HN HM H1 H2 Hdst Hdisj.
  assert (H12 : len (zip_with Z.lor m1 m2) = M / 8).
  { unfold len in *. rewrite length_zip_with. lia. }
  do 3 eexists.
  split; [now apply (Matrix_Compress_spec A N M)|].
  split; [now apply (Matrix_Compress_spec A N M)|].
  split; [now apply (Matrix_Compress_spec A N M)|].
  intros i Hi. destruct Hd as [HlenA _]. unfold len in HlenA.
  destruct (lookup_lt_is_Some_2 A i) as [row Hrow]; [lia|].
  exists (spec_row_sum row m1), (spec_row_sum row m2).
  rewrite !lookup_app_l by (rewrite length_fmap; lia).
  rewrite !list_lookup_fmap, Hrow. cbn [fmap option_fmap option_map].
  split; [done|]. split; [done|]. f_equal.
  unfold spec_row_sum. rewrite !spec_selected_cells.
  change (foldr Z.add 0 ?l) with (sumZ l).
  now rewrite msg_cells_lor, uint64_add_l, uint64_add_r.
Qed.

Lemma Matrix_Compress_additive_witness :
  let A := [[1; 2; 3; 4; 5; 6; 7; 8]; [10; 20; 30; 40; 50; 60; 70; 80]] in
  ∃ out1 out2 out,
    Matrix_Compress A [0; 0] [0xC0] = Returned out1
    ∧ Matrix_Compress A [0; 0] [0x01] = Returned out2
    ∧ Matrix_Compress A [0; 0] [0xC1] = Returned out
    ∧ out1 = [3; 30] ∧ out2 = [8; 80] ∧ out = [11; 110].
Proof.
  intros A.
  destruct (Matrix_Compress_additive A 2 8 [0; 0] [0xC0] [0x01])
    as (out1 & out2 & out & Ho1 & Ho2 & Ho & _).
  - split; [reflexivity|repeat constructor].
  - lia.
  - lia.
  - reflexivity.
  - reflexivity.
  - unfold len. simpl. lia.
  - repeat constructor.
  - exists out1, out2, out. split; [exact Ho1|]. split; [exact Ho2|].
    split; [exact Ho|].
    cbn [zip_with] in Ho. change (Z.lor 0xC0 0x01) with 0xC1 in Ho.
    vm_compute in Ho1, Ho2, Ho.
    injection Ho1 as <-. injection Ho2 as <-. injection Ho as <-. done.
Defined.
